(** * garlang: the recursive-descent parser and the lowering pass to Core Erlang

    A shallow embedding of [parser] (the token cursor, the error collector,
    the expression, statement and declaration parsers) and of [compile]
    (the AST to Core IR lowering), followed by the properties proved of them.

    Go values are modelled as follows.
    - [int], [int64] and [token.Pos] are [Z]; a slice index is a [nat].
    - An interface value ([ast.Expression], [ast.Decl]) is an inductive type
      with one constructor per node type and one for the [nil] interface.
    - A [map[token.Type]bool] is a [gmap token.Type_ bool]; a missing key reads
      as [false].
    - A method with a pointer receiver that updates [*Parser] is a function
      from the parser state to an outcome and the next state; [panic] is an
      outcome that carries the state reached when it was raised.
    - Recursion that is not structural takes a [fuel : nat]; the outcome
      [OutOfFuel] stands for "more fuel needed". For expressions and function
      declarations it is shown unreachable once the fuel exceeds the number
      of remaining tokens; a tuple type left open at the end of the input
      needs more fuel whatever the fuel. *)

From Stdlib Require Import ZArith String Ascii List Bool Lia.
From Stdlib Require Import Floats.
From stdpp Require Import base option list gmap.

Set Warnings "-register-all".

Local Open Scope string_scope.
Local Open Scope Z_scope.
Local Open Scope list_scope.

(** Go's [+] on strings. *)
Infix "^^" := String.append (at level 60, right associativity).

(** Go's [float64]. *)
Definition float64 : Set := PrimFloat.float.

(** The double quote character, for messages that quote a literal. *)
Definition dquote : string := String (ascii_of_nat 34) EmptyString.

(* ================================================================= *)
(** ** Package [token] *)

Module token.

(** [token.Pos]: an offset into the file set. *)
Definition Pos : Type := Z.

(** [token.Position]: a rendered position. *)
Record Position : Type := mkPosition {
  Filename : string;
  Offset : Z;
  Line : Z;
  Column : Z
}.

(** [token.File]: the parser only calls [file.Position(pos)]. *)
Record File : Type := mkFile { Position_ : Pos -> Position }.

(** [token.Type]: the token kinds the parser names, [Illegal] standing for
    the zero value. *)
Inductive Type_ : Set :=
  | Illegal | EOF | Comment
  | Identifier | Integer | Float | String | Atom
  | Semicolon | Comma | Period
  | LParen | RParen | LCurlyBracket | RCurlyBracket
  | LSquareBracket | RSquareBracket
  | Equal | ColonEqual | EqualEqual | BangEqual | Bang
  | Greater | GreaterEqual | Less | LessEqual
  | Plus | Minus | Star | Slash
  | Module | Import | TypeKeyword | Func | Return | Tuple.

Definition Type_to_nat (t : Type_) : nat :=
  match t with
  | Illegal => 0 | EOF => 1 | Comment => 2
  | Identifier => 3 | Integer => 4 | Float => 5 | String => 6 | Atom => 7
  | Semicolon => 8 | Comma => 9 | Period => 10
  | LParen => 11 | RParen => 12 | LCurlyBracket => 13 | RCurlyBracket => 14
  | LSquareBracket => 15 | RSquareBracket => 16
  | Equal => 17 | ColonEqual => 18 | EqualEqual => 19 | BangEqual => 20
  | Bang => 21
  | Greater => 22 | GreaterEqual => 23 | Less => 24 | LessEqual => 25
  | Plus => 26 | Minus => 27 | Star => 28 | Slash => 29
  | Module => 30 | Import => 31 | TypeKeyword => 32 | Func => 33
  | Return => 34 | Tuple => 35
  end%nat.

Definition Type_of_nat (n : nat) : Type_ :=
  match n with
  | 1 => EOF | 2 => Comment
  | 3 => Identifier | 4 => Integer | 5 => Float | 6 => String | 7 => Atom
  | 8 => Semicolon | 9 => Comma | 10 => Period
  | 11 => LParen | 12 => RParen | 13 => LCurlyBracket | 14 => RCurlyBracket
  | 15 => LSquareBracket | 16 => RSquareBracket
  | 17 => Equal | 18 => ColonEqual | 19 => EqualEqual | 20 => BangEqual
  | 21 => Bang
  | 22 => Greater | 23 => GreaterEqual | 24 => Less | 25 => LessEqual
  | 26 => Plus | 27 => Minus | 28 => Star | 29 => Slash
  | 30 => Module | 31 => Import | 32 => TypeKeyword | 33 => Func
  | 34 => Return | 35 => Tuple
  | _ => Illegal
  end%nat.

#[global] Instance Type_eq_dec : EqDecision Type_.
Proof. solve_decision. Defined.

#[global] Instance Type_countable : Countable Type_.
Proof.
  refine (inj_countable' Type_to_nat Type_of_nat _).
  intros t; destruct t; reflexivity.
Defined.

(** [t1 == t2] on token types. *)
Definition Type_eqb (a b : Type_) : bool := bool_decide (a = b).

(** Modelled from the spec: [token.Type.String] is not among the sources; the
    error messages of the tests print a type by the name of its constant
    ([Identifier], [EOF]). *)
Definition Type_String (t : Type_) : string :=
  match t with
  | Illegal => "Illegal" | EOF => "EOF" | Comment => "Comment"
  | Identifier => "Identifier" | Integer => "Integer" | Float => "Float"
  | String => "String" | Atom => "Atom"
  | Semicolon => "Semicolon" | Comma => "Comma" | Period => "Period"
  | LParen => "LParen" | RParen => "RParen"
  | LCurlyBracket => "LCurlyBracket" | RCurlyBracket => "RCurlyBracket"
  | LSquareBracket => "LSquareBracket" | RSquareBracket => "RSquareBracket"
  | Equal => "Equal" | ColonEqual => "ColonEqual"
  | EqualEqual => "EqualEqual" | BangEqual => "BangEqual" | Bang => "Bang"
  | Greater => "Greater" | GreaterEqual => "GreaterEqual"
  | Less => "Less" | LessEqual => "LessEqual"
  | Plus => "Plus" | Minus => "Minus" | Star => "Star" | Slash => "Slash"
  | Module => "Module" | Import => "Import" | TypeKeyword => "TypeKeyword"
  | Func => "Func" | Return => "Return" | Tuple => "Tuple"
  end.

(** One entry of a [token.ErrorList]: where, and the message of the error. *)
Record Error : Type := mkError { ErrPos : Position; Msg : string }.

(** [token.ErrorList]: the ordered list of the errors recorded so far. *)
Definition ErrorList : Type := list Error.

(** Modelled from the spec: [ErrorList.Add] is not among the sources; the
    collector "maintains an append-only ordered list". *)
Definition ErrorList_Add (l : ErrorList) (pos : Position) (msg : string)
  : ErrorList :=
  l ++ [mkError pos msg].

End token.

(* ================================================================= *)
(** ** Go values that are raised or returned as errors *)

(** The Go [error] values of the two packages, and the values [panic] is
    called with. [RuntimeError] is a panic of the Go runtime. *)
Inductive GoError : Type :=
  | ErrBailout
  | ErrBadModule
  | Errorf (msg : string)
  | ErrorListError (l : token.ErrorList)
  | RuntimeError (msg : string).

Definition GoError_Error (e : GoError) : string :=
  match e with
  | ErrBailout => "too many errors"
  | ErrBadModule => "module header is not valid"
  | Errorf msg => msg
  | ErrorListError _ => "error list"
  | RuntimeError msg => msg
  end.

(** What a call does: it returns, it panics, or the model needs more fuel. *)
Inductive Outcome (A : Type) : Type :=
  | Return (a : A)
  | Panicked (v : GoError)
  | OutOfFuel.

Arguments Return {A} a.
Arguments Panicked {A} v.
Arguments OutOfFuel {A}.

Definition Outcome_bind {A B : Type} (m : Outcome A) (k : A -> Outcome B)
  : Outcome B :=
  match m with
  | Return a => k a
  | Panicked v => Panicked v
  | OutOfFuel => OutOfFuel
  end.

(* ================================================================= *)
(** ** Package [lexer] *)

Module lexer.

(** [lexer.Token]. *)
Record Token : Type := mkToken {
  Type_ : token.Type_;
  Pos : token.Pos;
  Lit : string
}.

(** Modelled from the spec: [Token.String] is not among the sources; the tests
    expect a token rendered as its quoted literal and its type in
    parentheses, and the end of input as [EOF]. *)
Definition Token_String (tok : Token) : string :=
  match Type_ tok with
  | token.EOF => "EOF"
  | t => dquote ^^ Lit tok ^^ dquote ^^ " (" ^^ token.Type_String t ^^ ")"
  end.

End lexer.

(* ================================================================= *)
(** ** Package [ast] *)

Module ast.

(** [*ast.Identifier]. *)
Record Identifier : Type := mkIdentifier {
  NamePos : token.Pos;
  Name : string
}.

(** An [ast.Expression] interface value: [NilExpression] is the [nil]
    interface, every other constructor a pointer to the node of that name.
    [TupleType] carries the fields of its [FieldList] ([Opening], the [Type]
    of each [Field] of [List], [Closing]). *)
Inductive Expression : Type :=
  | NilExpression
  | IntLiteral (IntPos : token.Pos) (Lit : string) (Value : Z)
  | FloatLiteral (FloatPos : token.Pos) (Lit : string) (Value : float64)
  | StringLiteral (QuotePos : token.Pos) (Value : string)
  | AtomLiteral (QuotePos : token.Pos) (Value : string)
  | Ident (id : Identifier)
  | ParenExpr (Expression_ : Expression) (LParen RParen : token.Pos)
  | UnaryExpr (Op : token.Type_) (OpPos : token.Pos) (Right : Expression)
  | BinaryExpr (Left : Expression) (Op : token.Type_) (OpPos : token.Pos)
      (Right : Expression)
  | AssignExpr (Left : Identifier) (Equals : token.Pos) (Right : Expression)
  | MatchAssignExpr (Left : Expression) (Equals : token.Pos)
      (Right : Expression)
  | CallExpr (Callee : Expression) (Arguments : list Expression)
      (LeftParen RightParen : token.Pos)
  | DotExpr (Dot : token.Pos) (Target : Expression) (Attribute : Identifier)
  | BadExpr (From To : token.Pos)
  | TupleType (Tuple : token.Pos) (Opening : token.Pos)
      (List_ : list Expression) (Closing : token.Pos).

(** An [ast.Statement] interface value. *)
Inductive Statement : Type :=
  | ReturnStatement (Expression_ : Expression)
  | ExprStatement (Expression_ : Expression)
  | BadStmt (From To : token.Pos).

(** [*ast.FuncDecl]. *)
Record FuncDecl : Type := mkFuncDecl {
  FuncName : Identifier;
  Func : token.Pos;
  Statements : list Statement;
  Parameters : list Identifier;
  LeftBrace : token.Pos;
  RightBrace : token.Pos
}.

(** An [ast.Decl] interface value. *)
Inductive Decl : Type :=
  | NilDecl
  | ImportDecl (Import : token.Pos) (Alias : option Identifier)
      (Path : Expression)
  | TypeDecl (Type_ : token.Pos) (TypeName : Identifier)
      (Definition_ : Expression)
  | FuncDecl_ (fn : FuncDecl)
  | BadDecl (From To : token.Pos).

(** [*ast.Module]; [Id] is [nil] until the header has been parsed. *)
Record Module : Type := mkModule {
  Id : option Identifier;
  Imports : list Decl;
  Decls : list Decl
}.

(** Modelled from the spec: [ast.NewIdent] is not among the sources; an
    identifier node takes its position and its name from the token. *)
Definition NewIdent (tok : lexer.Token) : Identifier :=
  mkIdentifier (lexer.Pos tok) (lexer.Lit tok).

(** Modelled from the spec: the [Pos] method of the nodes is not among the
    sources; "every node carries enough position information to reconstruct
    its source span", and [Pos] is where the span starts. On a [nil]
    interface the call is a nil dereference ([None]). *)
Fixpoint Expression_Pos (e : Expression) : option token.Pos :=
  match e with
  | NilExpression => None
  | IntLiteral p _ _ => Some p
  | FloatLiteral p _ _ => Some p
  | StringLiteral p _ => Some p
  | AtomLiteral p _ => Some p
  | Ident id => Some (NamePos id)
  | ParenExpr _ lp _ => Some lp
  | UnaryExpr _ p _ => Some p
  | BinaryExpr l _ _ _ => Expression_Pos l
  | AssignExpr l _ _ => Some (NamePos l)
  | MatchAssignExpr l _ _ => Expression_Pos l
  | CallExpr c _ _ _ => Expression_Pos c
  | DotExpr _ t _ => Expression_Pos t
  | BadExpr f _ => Some f
  | TupleType p _ _ _ => Some p
  end.

(** What [fmt]'s [%T] prints for an expression. *)
Definition Expression_T (e : Expression) : string :=
  match e with
  | NilExpression => "<nil>"
  | IntLiteral _ _ _ => "*ast.IntLiteral"
  | FloatLiteral _ _ _ => "*ast.FloatLiteral"
  | StringLiteral _ _ => "*ast.StringLiteral"
  | AtomLiteral _ _ => "*ast.AtomLiteral"
  | Ident _ => "*ast.Identifier"
  | ParenExpr _ _ _ => "*ast.ParenExpr"
  | UnaryExpr _ _ _ => "*ast.UnaryExpr"
  | BinaryExpr _ _ _ _ => "*ast.BinaryExpr"
  | AssignExpr _ _ _ => "*ast.AssignExpr"
  | MatchAssignExpr _ _ _ => "*ast.MatchAssignExpr"
  | CallExpr _ _ _ _ => "*ast.CallExpr"
  | DotExpr _ _ _ => "*ast.DotExpr"
  | BadExpr _ _ => "*ast.BadExpr"
  | TupleType _ _ _ _ => "*ast.TupleType"
  end.

(** What [fmt]'s [%T] prints for a declaration. *)
Definition Decl_T (d : Decl) : string :=
  match d with
  | NilDecl => "<nil>"
  | ImportDecl _ _ _ => "*ast.ImportDecl"
  | TypeDecl _ _ _ => "*ast.TypeDecl"
  | FuncDecl_ _ => "*ast.FuncDecl"
  | BadDecl _ _ => "*ast.BadDecl"
  end.

(** The height of an expression tree: the bound on the nesting of the
    recursive calls of a traversal. *)
Fixpoint height (e : Expression) : nat :=
  let fix heights (l : list Expression) : nat :=
    match l with
    | [] => O
    | x :: r => Nat.max (height x) (heights r)
    end in
  match e with
  | ParenExpr x _ _ => S (height x)
  | UnaryExpr _ _ r => S (height r)
  | BinaryExpr l _ _ r => S (Nat.max (height l) (height r))
  | AssignExpr _ _ r => S (height r)
  | MatchAssignExpr l _ r => S (Nat.max (height l) (height r))
  | CallExpr c args _ _ => S (Nat.max (height c) (heights args))
  | DotExpr _ t _ => S (height t)
  | TupleType _ _ l _ => S (heights l)
  | _ => O
  end.

(** The height of the tallest of [l]. *)
Fixpoint heights (l : list Expression) : nat :=
  match l with
  | [] => O
  | x :: r => Nat.max (height x) (heights r)
  end.

(** Whether a [BadExpr] occurs in the expression. *)
Fixpoint Expression_hasBad (e : Expression) : bool :=
  let fix anyBad (l : list Expression) : bool :=
    match l with
    | [] => false
    | x :: r => Expression_hasBad x || anyBad r
    end in
  match e with
  | BadExpr _ _ => true
  | ParenExpr x _ _ => Expression_hasBad x
  | UnaryExpr _ _ r => Expression_hasBad r
  | BinaryExpr l _ _ r => Expression_hasBad l || Expression_hasBad r
  | AssignExpr _ _ r => Expression_hasBad r
  | MatchAssignExpr l _ r => Expression_hasBad l || Expression_hasBad r
  | CallExpr c args _ _ => Expression_hasBad c || anyBad args
  | DotExpr _ t _ => Expression_hasBad t
  | TupleType _ _ l _ => anyBad l
  | _ => false
  end.

(** Whether a [BadExpr] occurs in one of the expressions. *)
Fixpoint Expressions_hasBad (l : list Expression) : bool :=
  match l with
  | [] => false
  | x :: r => Expression_hasBad x || Expressions_hasBad r
  end.

(** Whether a [BadStmt] or a [BadExpr] occurs in the statement. *)
Definition Statement_hasBad (s : Statement) : bool :=
  match s with
  | ReturnStatement e => Expression_hasBad e
  | ExprStatement e => Expression_hasBad e
  | BadStmt _ _ => true
  end.

(** Whether a [BadDecl], a [BadStmt] or a [BadExpr] occurs in the
    declaration. *)
Definition Decl_hasBad (d : Decl) : bool :=
  match d with
  | NilDecl => false
  | ImportDecl _ _ path => Expression_hasBad path
  | TypeDecl _ _ def => Expression_hasBad def
  | FuncDecl_ fn => existsb Statement_hasBad (Statements fn)
  | BadDecl _ _ => true
  end.

(** Whether the declaration is a [*ast.FuncDecl]. *)
Definition isFuncDecl (d : Decl) : bool :=
  match d with
  | FuncDecl_ _ => true
  | _ => false
  end.

(** Whether a bad node occurs anywhere in the module. *)
Definition Module_hasBad (m : Module) : bool :=
  existsb Decl_hasBad (Imports m) || existsb Decl_hasBad (Decls m).

(** Whether the declaration is an [*ast.ImportDecl]. *)
Definition isImportDecl (d : Decl) : bool :=
  match d with
  | ImportDecl _ _ _ => true
  | _ => false
  end.

(** Whether the declaration is an [*ast.BadDecl]. *)
Definition isBadDecl (d : Decl) : bool :=
  match d with
  | BadDecl _ _ => true
  | _ => false
  end.

End ast.

(* ================================================================= *)
(** ** Package [core] *)

Module core.

(** A [core.Const] interface value. *)
Inductive Const : Type :=
  | ConstAtom (Value : string)
  | ConstInteger (Value : Z)
  | ConstTuple (Elements : list Const).

(** A [core.Expr] interface value. *)
Inductive Expr : Type :=
  | Integer (Value : Z)
  | Float (Value : float64)
  | String (Value : string)
  | Atom (Value : string)
  | Var (Name : string)
  | Application (Func : Expr) (Args : list Expr)
  | InterModuleCall (Module : Expr) (Func : Expr) (Args : list Expr).

(** [core.FuncName]: name and arity. *)
Record FuncName : Type := mkFuncName { Name : string; Arity : Z }.

(** [core.Annotation]. *)
Record Annotation : Type := mkAnnotation { Attrs : list Const }.

(** [core.Func]; [Body] is [None] for the [nil] interface. *)
Record Func : Type := mkFunc {
  FName : FuncName;
  Annotation_ : Annotation;
  Parameters : list string;
  Body : option Expr
}.

(** [*core.Module]. *)
Record Module : Type := mkModule {
  ModName : string;
  Exports : list FuncName;
  Functions : list Func
}.

End core.

(* ================================================================= *)
(** ** Package [strconv] *)

Module strconv.

(** The value of a decimal digit. *)
Definition digit (c : ascii) : option Z :=
  let n := Z.of_nat (nat_of_ascii c) in
  if (48 <=? n) && (n <=? 57) then Some (n - 48) else None.

(** The number a run of decimal digits denotes, [None] on any other byte. *)
Fixpoint digits (s : string) (acc : Z) : option Z :=
  match s with
  | EmptyString => Some acc
  | String c r =>
      match digit c with
      | Some d => digits r (acc * 10 + d)
      | None => None
      end
  end.

Definition NumError (s msg : string) : string :=
  "strconv.ParseInt: parsing " ^^ dquote ^^ s ^^ dquote ^^ ": " ^^ msg.

(** [strconv.ParseInt(s, 10, 64)]: the value and the error, if any. A syntax
    error returns 0; a value out of range returns the nearest bound. The
    message quotes [s] as it is (no escapes). *)
Definition ParseInt (s : string) : Z * option string :=
  let syntax := (0, Some (NumError s "invalid syntax")) in
  let range := Some (NumError s "value out of range") in
  match s with
  | EmptyString => syntax
  | String c rest =>
      let neg := Ascii.eqb c "-" in
      let body := if Ascii.eqb c "+" || neg then rest else s in
      match body with
      | EmptyString => syntax
      | _ =>
          match digits body 0 with
          | None => syntax
          | Some un =>
              if negb neg && (2 ^ 63 <=? un) then (2 ^ 63 - 1, range)
              else if neg && (2 ^ 63 <? un) then (- 2 ^ 63, range)
              else (if neg then - un else un, None)
          end
      end
  end.

End strconv.

(* ================================================================= *)
(** ** Package [parser]: state, token cursor and error collector *)

Module parser.

Definition maxErrors : nat := 10.

Definition declStart : gmap token.Type_ bool :=
  <[token.EOF := true]> (<[token.Func := true]> ∅).

Definition exprEnd : gmap token.Type_ bool :=
  <[token.EOF := true]>
    (<[token.Semicolon := true]>
       (<[token.RParen := true]>
          (<[token.RCurlyBracket := true]> (<[token.Comma := true]> ∅)))).

Definition stmtStart : gmap token.Type_ bool :=
  <[token.Return := true]>
    (<[token.Identifier := true]> (<[token.LCurlyBracket := true]> ∅)).

Definition paramStart : gmap token.Type_ bool :=
  <[token.Identifier := true]> ∅.

(** [to[t]]: indexing a Go map, the zero value for a missing key. *)
Definition index (to : gmap token.Type_ bool) (t : token.Type_) : bool :=
  default false (to !! t).

(** [Parser]. *)
Record Parser : Type := mkParser {
  tokens : list lexer.Token;
  file : token.File;
  pos : nat;
  errors : token.ErrorList
}.

Definition set_pos (p : Parser) (i : nat) : Parser :=
  mkParser (tokens p) (file p) i (errors p).

Definition set_errors (p : Parser) (l : token.ErrorList) : Parser :=
  mkParser (tokens p) (file p) (pos p) l.

(** A computation over a state [S]: the outcome and the state it leaves. *)
Definition M (S A : Type) : Type := S -> Outcome A * S.

Definition ret {S A : Type} (a : A) : M S A := fun s => (Return a, s).

Definition bind {S A B : Type} (m : M S A) (k : A -> M S B) : M S B :=
  fun s =>
    match m s with
    | (Return a, s') => k a s'
    | (Panicked v, s') => (Panicked v, s')
    | (OutOfFuel, s') => (OutOfFuel, s')
    end.

Definition panic {S A : Type} (v : GoError) : M S A :=
  fun s => (Panicked v, s).

Definition outOfFuel {S A : Type} : M S A := fun s => (OutOfFuel, s).

Notation "x <- m ;; k" := (bind m (fun x => k))
  (at level 100, m at next level, right associativity).
Notation "m ;;; k" := (bind m (fun _ => k))
  (at level 100, right associativity).

(** The methods of [*Parser]. *)
Definition P (A : Type) : Type := M Parser A.

Definition EOFToken : lexer.Token := lexer.mkToken token.EOF 0 "".

(** The zero value [lexer.Token{}]. *)
Definition zeroToken : lexer.Token := lexer.mkToken token.Illegal 0 "".

Definition isComment (tok : lexer.Token) : bool :=
  token.Type_eqb (lexer.Type_ tok) token.Comment.

(** The loop of [eat] over [p.tokens[p.pos:]]: the first token that is not a
    comment and the index after it. *)
Fixpoint eat_from (l : list lexer.Token) (i : nat) : lexer.Token * nat :=
  match l with
  | [] => (EOFToken, i)
  | tok :: rest =>
      if isComment tok then eat_from rest (S i) else (tok, S i)
  end.

Definition eat : P lexer.Token :=
  fun p =>
    let r := eat_from (drop (pos p) (tokens p)) (pos p) in
    (Return (fst r), set_pos p (snd r)).

(** The loop of [peek]. *)
Fixpoint peek_from (l : list lexer.Token) : lexer.Token :=
  match l with
  | [] => EOFToken
  | tok :: rest => if isComment tok then peek_from rest else tok
  end.

Definition peekToken (p : Parser) : lexer.Token :=
  peek_from (drop (pos p) (tokens p)).

Definition peek : P lexer.Token := fun p => (Return (peekToken p), p).

(** The loop of [eatAll]: comments are not skipped here. *)
Fixpoint eatAll_from (tokenType : token.Type_) (l : list lexer.Token)
    (i : nat) : token.Type_ * nat :=
  match l with
  | [] => (token.EOF, i)
  | tok :: rest =>
      if token.Type_eqb (lexer.Type_ tok) tokenType
      then eatAll_from tokenType rest (S i)
      else (tokenType, i)
  end.

Definition eatAll (tokenType : token.Type_) : P token.Type_ :=
  fun p =>
    let r := eatAll_from tokenType (drop (pos p) (tokens p)) (pos p) in
    (Return (fst r), set_pos p (snd r)).

Definition matchesToken (types : list token.Type_) (p : Parser) : bool :=
  existsb (fun t => token.Type_eqb (lexer.Type_ (peekToken p)) t) types.

Definition matches (types : list token.Type_) : P bool :=
  fun p => (Return (matchesToken types p), p).

(** [error]: an error on the line of the last recorded one is discarded;
    past [maxErrors] recorded errors the call panics. *)
Definition error (pos : token.Pos) (err : GoError) : P unit :=
  fun p =>
    let epos := token.Position_ (file p) pos in
    let sameLine :=
      match last (errors p) with
      | Some e => token.Line (token.ErrPos e) =? token.Line epos
      | None => false
      end in
    if sameLine then (Return tt, p)
    else if Nat.ltb maxErrors (length (errors p)) then (Panicked ErrBailout, p)
    else
      (Return tt,
       set_errors p (token.ErrorList_Add (errors p) epos (GoError_Error err))).

(** The last error recorded, if any, is on another line than [pos]: the
    condition under which [error] does not discard the error it is given. *)
Definition newLine (p : Parser) (pos : token.Pos) : Prop :=
  forall e, last (errors p) = Some e ->
    token.Line (token.ErrPos e) <> token.Line (token.Position_ (file p) pos).

(** The last error recorded is on the line of [pos]: the condition under
    which [error] discards the error it is given. *)
Definition sameLine (p : Parser) (pos : token.Pos) : Prop :=
  exists e, last (errors p) = Some e
    /\ token.Line (token.ErrPos e)
       = token.Line (token.Position_ (file p) pos).

(** [catchErrors], on the value [r] that [recover()] returns ([None] for
    [nil]). *)
Definition catchErrors (r : option GoError) : P token.ErrorList :=
  fun p =>
    match r with
    | Some ErrBailout => (Return (errors p), p)
    | Some r => (Panicked r, p)
    | None => (Return (errors p), p)
    end.

Definition eatOnly (tokenType : token.Type_) (errmsg : string)
  : P lexer.Token :=
  tok <- eat ;;
  (if negb (token.Type_eqb (lexer.Type_ tok) tokenType)
   then error (lexer.Pos tok)
          (Errorf (errmsg ^^ ", got " ^^ lexer.Token_String tok))
   else ret tt) ;;;
  ret tok.

(** The tokens left from the cursor on: the bound on the iterations of a loop
    that consumes a token each time round. *)
Definition remaining (p : Parser) : nat := (length (tokens p) - pos p)%nat.

(** The loop of [advance], run at most [n] times. *)
Fixpoint advance_loop (n : nat) (to : gmap token.Type_ bool)
    (tok : lexer.Token) (p : Parser) : lexer.Token * Parser :=
  match n with
  | O => (tok, p)
  | S n' =>
      let t := lexer.Type_ (peekToken p) in
      if negb (token.Type_eqb t token.EOF) && negb (index to t)
      then
        let r := eat_from (drop (pos p) (tokens p)) (pos p) in
        advance_loop n' to (fst r) (set_pos p (snd r))
      else (tok, p)
  end.

(** [advance]: every iteration consumes a token, so [remaining p] iterations
    are enough. *)
Definition advance (to : gmap token.Type_ bool) : P lexer.Token :=
  fun p =>
    let r := advance_loop (remaining p) to zeroToken p in
    (Return (fst r), snd r).

(** [parseInt]. *)
Definition parseInt (tok : lexer.Token) : P Z :=
  let r := strconv.ParseInt (lexer.Lit tok) in
  (match snd r with
   | Some err => error (lexer.Pos tok) (Errorf ("parse int: " ^^ err))
   | None => ret tt
   end) ;;;
  ret (fst r).

(* ----------------------------------------------------------------- *)
(** *** The expression parser *)

Section Expressions.

(** [strconv.ParseFloat(s, 64)]: the value and the error, if any. Decimal to
    binary conversion is the Go library's and is taken as given. *)
Variable ParseFloat : string -> float64 * option string.

(** [parseFloat]. *)
Definition parseFloat (tok : lexer.Token) : P float64 :=
  let r := ParseFloat (lexer.Lit tok) in
  (match snd r with
   | Some err => error (lexer.Pos tok) (Errorf ("parse float: " ^^ err))
   | None => ret tt
   end) ;;;
  ret (fst r).

Section Precedence.

(** The call [p.parseExpression()] made from within the functions below (by
    [parsePrimary] and [parseArguments]). *)
Variable parseExpression : P ast.Expression.

Definition parsePrimary : P ast.Expression :=
  tok <- eat ;;
  match lexer.Type_ tok with
  | token.Integer =>
      Value <- parseInt tok ;;
      ret (ast.IntLiteral (lexer.Pos tok) (lexer.Lit tok) Value)
  | token.Float =>
      Value <- parseFloat tok ;;
      ret (ast.FloatLiteral (lexer.Pos tok) (lexer.Lit tok) Value)
  | token.Identifier =>
      ret (ast.Ident (ast.mkIdentifier (lexer.Pos tok) (lexer.Lit tok)))
  | token.String => ret (ast.StringLiteral (lexer.Pos tok) (lexer.Lit tok))
  | token.Atom => ret (ast.AtomLiteral (lexer.Pos tok) (lexer.Lit tok))
  | token.LParen =>
      expr <- parseExpression ;;
      rparen <- eatOnly token.RParen "unclosed '(' around expression" ;;
      ret (ast.ParenExpr expr (lexer.Pos tok) (lexer.Pos rparen))
  | _ =>
      error (lexer.Pos tok)
        (Errorf ("expected expression, got "
                 ^^ token.Type_String (lexer.Type_ tok))) ;;;
      to <- advance exprEnd ;;
      ret (ast.BadExpr (lexer.Pos tok) (lexer.Pos to))
  end.

(** The [for p.matches(token.Comma)] loop of [parseArguments]. *)
Fixpoint parseArguments_loop (fuel : nat) (args : list ast.Expression)
  : P (list ast.Expression) :=
  match fuel with
  | O => outOfFuel
  | S fuel' =>
      more <- matches [token.Comma] ;;
      if more : bool then
        comma <- eat ;;
        if (255 <=? length args)%nat then
          error (lexer.Pos comma)
            (Errorf "cannot have more than 255 arguments") ;;;
          ret args
        else
          arg <- parseExpression ;;
          parseArguments_loop fuel' (args ++ [arg])
      else ret args
  end.

Definition parseArguments (fuel : nat) : P (list ast.Expression) :=
  close <- matches [token.RParen] ;;
  if close : bool then ret []
  else
    arg <- parseExpression ;;
    parseArguments_loop fuel [arg].

(** The [for] loop of [parseCall]. *)
Fixpoint parseCall_loop (fuel : nat) (callee : ast.Expression)
  : P ast.Expression :=
  match fuel with
  | O => outOfFuel
  | S fuel' =>
      isCall <- matches [token.LParen] ;;
      if isCall : bool then
        lparen <- eat ;;
        args <- parseArguments fuel' ;;
        rparen <- eat ;;
        parseCall_loop fuel'
          (ast.CallExpr callee args (lexer.Pos lparen) (lexer.Pos rparen))
      else
        isDot <- matches [token.Period] ;;
        if isDot : bool then
          dot <- eat ;;
          name <- eatOnly token.Identifier "expected identifier after '.'" ;;
          if negb (token.Type_eqb (lexer.Type_ name) token.Identifier) then
            advance exprEnd ;;;
            ret (ast.BadExpr (lexer.Pos name) (lexer.Pos name))
          else
            parseCall_loop fuel'
              (ast.DotExpr (lexer.Pos dot) callee (ast.NewIdent name))
        else ret callee
  end.

Definition parseCall (fuel : nat) : P ast.Expression :=
  callee <- parsePrimary ;;
  parseCall_loop fuel callee.

Fixpoint parseUnary (fuel : nat) : P ast.Expression :=
  match fuel with
  | O => outOfFuel
  | S fuel' =>
      isOp <- matches [token.Minus; token.Plus] ;;
      if isOp : bool then
        op <- eat ;;
        Right <- parseUnary fuel' ;;
        ret (ast.UnaryExpr (lexer.Type_ op) (lexer.Pos op) Right)
      else parseCall fuel
  end.

(** The loop of [parseFactor]. *)
Fixpoint parseFactor_loop (fuel : nat) (left : ast.Expression)
  : P ast.Expression :=
  match fuel with
  | O => outOfFuel
  | S fuel' =>
      more <- matches [token.Slash; token.Star] ;;
      if more : bool then
        op <- eat ;;
        right <- parseUnary fuel' ;;
        parseFactor_loop fuel'
          (ast.BinaryExpr left (lexer.Type_ op) (lexer.Pos op) right)
      else ret left
  end.

Definition parseFactor (fuel : nat) : P ast.Expression :=
  left <- parseUnary fuel ;;
  parseFactor_loop fuel left.

(** The loop of [parseTerm]. *)
Fixpoint parseTerm_loop (fuel : nat) (left : ast.Expression)
  : P ast.Expression :=
  match fuel with
  | O => outOfFuel
  | S fuel' =>
      more <- matches [token.Plus; token.Minus] ;;
      if more : bool then
        op <- eat ;;
        right <- parseFactor fuel' ;;
        parseTerm_loop fuel'
          (ast.BinaryExpr left (lexer.Type_ op) (lexer.Pos op) right)
      else ret left
  end.

Definition parseTerm (fuel : nat) : P ast.Expression :=
  left <- parseFactor fuel ;;
  parseTerm_loop fuel left.

(** The loop of [parseComparison]. *)
Fixpoint parseComparison_loop (fuel : nat) (left : ast.Expression)
  : P ast.Expression :=
  match fuel with
  | O => outOfFuel
  | S fuel' =>
      more <-
        matches
          [token.Greater; token.GreaterEqual; token.Less; token.LessEqual] ;;
      if more : bool then
        op <- eat ;;
        right <- parseTerm fuel' ;;
        parseComparison_loop fuel'
          (ast.BinaryExpr left (lexer.Type_ op) (lexer.Pos op) right)
      else ret left
  end.

Definition parseComparison (fuel : nat) : P ast.Expression :=
  left <- parseTerm fuel ;;
  parseComparison_loop fuel left.

(** The loop of [parseEquality]. *)
Fixpoint parseEquality_loop (fuel : nat) (left : ast.Expression)
  : P ast.Expression :=
  match fuel with
  | O => outOfFuel
  | S fuel' =>
      more <- matches [token.EqualEqual; token.BangEqual] ;;
      if more : bool then
        op <- eat ;;
        right <- parseComparison fuel' ;;
        parseEquality_loop fuel'
          (ast.BinaryExpr left (lexer.Type_ op) (lexer.Pos op) right)
      else ret left
  end.

Definition parseEquality (fuel : nat) : P ast.Expression :=
  left <- parseComparison fuel ;;
  parseEquality_loop fuel left.

Definition assignErr : GoError :=
  Errorf "left hand side of assignment must be an identifier".

(** [parseMatch]; [left.Pos()] on a node whose start is a [nil] interface is
    a nil dereference. *)
Fixpoint parseMatch (fuel : nat) : P ast.Expression :=
  match fuel with
  | O => outOfFuel
  | S fuel' =>
      left <- parseEquality fuel ;;
      isAssign <- matches [token.Equal] ;;
      if isAssign : bool then
        equals <- eat ;;
        right <- parseMatch fuel' ;;
        match left with
        | ast.Ident leftId =>
            ret (ast.AssignExpr leftId (lexer.Pos equals) right)
        | ast.NilExpression =>
            error (lexer.Pos equals) assignErr ;;;
            ret ast.NilExpression
        | _ =>
            match ast.Expression_Pos left with
            | Some pos => error pos assignErr ;;; ret ast.NilExpression
            | None =>
                panic
                  (RuntimeError
                     "invalid memory address or nil pointer dereference")
            end
        end
      else
        isMatch <- matches [token.ColonEqual] ;;
        if isMatch : bool then
          equals <- eat ;;
          right <- parseEquality fuel ;;
          ret (ast.MatchAssignExpr left (lexer.Pos equals) right)
        else ret left
  end.

End Precedence.

(** [parseExpression]: the nesting of parentheses and argument lists is
    bounded by [fuel], as is every loop within. *)
Fixpoint parseExpression (fuel : nat) : P ast.Expression :=
  match fuel with
  | O => outOfFuel
  | S fuel' => parseMatch (parseExpression fuel') fuel
  end.

(* ----------------------------------------------------------------- *)
(** *** Statements and function declarations *)

Definition parseReturnStatement (fuel : nat) : P ast.Statement :=
  eatOnly token.Return "expected 'return' keyword" ;;;
  Expression <- parseExpression fuel ;;
  ret (ast.ReturnStatement Expression).

Definition parseExpressionStatement (fuel : nat) (tok : lexer.Token)
  : P ast.Statement :=
  Expression <- parseExpression fuel ;;
  ret (ast.ExprStatement Expression).

Definition parseStatement (fuel : nat) (tok : lexer.Token)
  : P ast.Statement :=
  match lexer.Type_ tok with
  | token.Return => parseReturnStatement fuel
  | _ => parseExpressionStatement fuel tok
  end.

(** The [for !p.matches(token.EOF)] loop of [parseBody]; both statement
    parsers return a pointer that is never [nil], so the statement is always
    appended. *)
Fixpoint parseBody_loop (fuel : nat) (body : list ast.Statement)
  : P (list ast.Statement) :=
  match fuel with
  | O => outOfFuel
  | S fuel' =>
      atEnd <- matches [token.EOF] ;;
      if atEnd : bool then ret body
      else
        eatAll token.Semicolon ;;;
        tok <- peek ;;
        if token.Type_eqb (lexer.Type_ tok) token.RCurlyBracket then ret body
        else
          statement <- parseStatement fuel tok ;;
          let body := body ++ [statement] in
          ended <-
            matches [token.Semicolon; token.RCurlyBracket; token.EOF] ;;
          if ended : bool then parseBody_loop fuel' body
          else
            from <- eat ;;
            error (lexer.Pos from)
              (Errorf "expected ';' at end of statement") ;;;
            advance exprEnd ;;;
            to <- advance stmtStart ;;
            parseBody_loop fuel'
              (body ++ [ast.BadStmt (lexer.Pos from) (lexer.Pos to)])
  end.

Definition parseBody (fuel : nat) : P (list ast.Statement) :=
  parseBody_loop fuel [].

(** The [for !p.matches(token.EOF)] loop of [parseParams]; [i] counts the
    iterations. *)
Fixpoint parseParams_loop (fuel : nat) (i : nat)
    (params : list ast.Identifier) : P (list ast.Identifier) :=
  match fuel with
  | O => outOfFuel
  | S fuel' =>
      atEnd <- matches [token.EOF] ;;
      if atEnd : bool then ret params
      else
        close <- matches [token.RParen] ;;
        if close : bool then eat ;;; ret params
        else
          (if (0 <? i)%nat then
             tok <- eatOnly token.Comma "expected ',' between parameters" ;;
             if negb (token.Type_eqb (lexer.Type_ tok) token.Comma)
             then advance paramStart ;;; ret tt
             else ret tt
           else ret tt) ;;;
          name <- eatOnly token.Identifier "expected parameter name" ;;
          let params :=
            if token.Type_eqb (lexer.Type_ name) token.Identifier
            then params ++ [ast.NewIdent name]
            else params in
          parseParams_loop fuel' (S i) params
  end.

Definition parseParams (fuel : nat) : P (list ast.Identifier) :=
  parseParams_loop fuel O [].

Definition parseFunction (fuel : nat) : P ast.Decl :=
  funcTok <- eatOnly token.Func "expected 'func' keyword at start of function" ;;
  if negb (token.Type_eqb (lexer.Type_ funcTok) token.Func) then
    to <- advance declStart ;;
    ret (ast.BadDecl (lexer.Pos funcTok) (lexer.Pos to))
  else
    name <-
      eatOnly token.Identifier "expected function name after 'func' keyword" ;;
    if negb (token.Type_eqb (lexer.Type_ name) token.Identifier) then
      to <- advance declStart ;;
      ret (ast.BadDecl (lexer.Pos funcTok) (lexer.Pos to))
    else
      eatOnly token.LParen "expected '(' after function name" ;;;
      params <- parseParams fuel ;;
      lbrace <-
        eatOnly token.LCurlyBracket "expected '{' after function parameters" ;;
      body <- parseBody fuel ;;
      rbrace <-
        eatOnly token.RCurlyBracket "expected '}' to end function body" ;;
      ret (ast.FuncDecl_
             (ast.mkFuncDecl (ast.NewIdent name) (lexer.Pos funcTok) body
                params (lexer.Pos lbrace) (lexer.Pos rbrace))).

End Expressions.

(* ----------------------------------------------------------------- *)
(** *** Type declarations, imports and the module header *)

Section TypeExpressions.

(** The call [p.parseType()] made from within [parseTupleType]. *)
Variable parseType : P ast.Expression.

(** The [for !p.matches(token.RSquareBracket)] loop of [parseTupleType]. *)
Fixpoint parseTupleType_loop (fuel : nat) (fields : list ast.Expression)
  : P (list ast.Expression) :=
  match fuel with
  | O => outOfFuel
  | S fuel' =>
      close <- matches [token.RSquareBracket] ;;
      if close : bool then ret fields
      else
        typExpr <- parseType ;;
        let fields := fields ++ [typExpr] in
        close <- matches [token.RSquareBracket] ;;
        if close : bool then ret fields
        else
          eatOnly token.Comma "missing ',' in tuple type list" ;;;
          parseTupleType_loop fuel' fields
  end.

Definition parseTupleType (fuel : nat) (tupleTok : lexer.Token)
  : P ast.Expression :=
  lbracket <- eatOnly token.LSquareBracket "expected '[' after 'tuple'" ;;
  fields <- parseTupleType_loop fuel [] ;;
  rbracket <-
    eatOnly token.RSquareBracket "expected ']' after tuple field list" ;;
  ret (ast.TupleType (lexer.Pos tupleTok) (lexer.Pos lbracket) fields
         (lexer.Pos rbracket)).

(** The body of [parseType]. *)
Definition parseType_body (fuel : nat) : P ast.Expression :=
  tok <- eat ;;
  match lexer.Type_ tok with
  | token.Identifier =>
      let ident := ast.NewIdent tok in
      isDot <- matches [token.Period] ;;
      if isDot : bool then
        dot <- eat ;;
        attr <- eatOnly token.Identifier "expected identifier after '.'" ;;
        if negb (token.Type_eqb (lexer.Type_ attr) token.Identifier)
        then ret (ast.BadExpr (lexer.Pos dot) (lexer.Pos attr))
        else
          ret (ast.DotExpr (lexer.Pos dot) (ast.Ident ident)
                 (ast.NewIdent attr))
      else ret (ast.Ident ident)
  | token.Tuple => parseTupleType fuel tok
  | _ =>
      error (lexer.Pos tok)
        (Errorf ("expected type, got "
                 ^^ token.Type_String (lexer.Type_ tok))) ;;;
      ret (ast.BadExpr (lexer.Pos tok) (lexer.Pos tok))
  end.

End TypeExpressions.

(** [parseType]: the nesting of tuple types is bounded by [fuel], as is the
    loop over the fields. *)
Fixpoint parseType (fuel : nat) : P ast.Expression :=
  match fuel with
  | O => outOfFuel
  | S fuel' => parseType_body (parseType fuel') fuel
  end.

Definition parseTypeDecl (fuel : nat) : P ast.Decl :=
  typeTok <-
    eatOnly token.TypeKeyword
      "expected 'type' keyword at start of type declaration" ;;
  if negb (token.Type_eqb (lexer.Type_ typeTok) token.TypeKeyword) then
    to <- advance declStart ;;
    ret (ast.BadDecl (lexer.Pos typeTok) (lexer.Pos to))
  else
    name <- eatOnly token.Identifier "expected type name after 'type' keyword" ;;
    if negb (token.Type_eqb (lexer.Type_ name) token.Identifier) then
      to <- advance declStart ;;
      ret (ast.BadDecl (lexer.Pos typeTok) (lexer.Pos to))
    else
      def <- parseType fuel ;;
      ret (ast.TypeDecl (lexer.Pos typeTok) (ast.NewIdent name) def).

(** [parseImport]; its argument [mod] is not used. *)
Definition parseImport : P ast.Decl :=
  importTok <-
    eatOnly token.Import
      "expected 'import' keyword at start of import declaration" ;;
  if negb (token.Type_eqb (lexer.Type_ importTok) token.Import) then
    to <- advance declStart ;;
    ret (ast.BadDecl (lexer.Pos importTok) (lexer.Pos to))
  else
    hasAlias <- matches [token.Identifier] ;;
    alias <-
      (if hasAlias : bool
       then tok <- eat ;; ret (Some (ast.NewIdent tok))
       else ret None) ;;
    path <-
      eatOnly token.String "expected module path after 'import' keyword" ;;
    if negb (token.Type_eqb (lexer.Type_ path) token.String) then
      to <- advance declStart ;;
      ret (ast.BadDecl (lexer.Pos importTok) (lexer.Pos to))
    else
      ret (ast.ImportDecl (lexer.Pos importTok) alias
             (ast.StringLiteral (lexer.Pos path) (lexer.Lit path))).

(** The functions that fill in the [*ast.Module] they are given run over the
    module and the parser: what they have stored in the module by the time of
    a panic stays there. *)
Definition ModState : Type := ast.Module * Parser.

Definition PM (A : Type) : Type := M ModState A.

Definition liftP {A : Type} (m : P A) : PM A :=
  fun s => let r := m (snd s) in (fst r, (fst s, snd r)).

Definition getModule : PM ast.Module := fun s => (Return (fst s), s).

Definition setModule (m : ast.Module) : PM unit :=
  fun s => (Return tt, (m, snd s)).

Definition appendDecl (d : ast.Decl) : PM unit :=
  m <- getModule ;;
  setModule (ast.mkModule (ast.Id m) (ast.Imports m) (ast.Decls m ++ [d])).

(** The [for p.matches(token.Import)] loop of [parseImports]. *)
Fixpoint parseImports_loop (fuel : nat) (imports : list ast.Decl)
  : PM (list ast.Decl) :=
  match fuel with
  | O => outOfFuel
  | S fuel' =>
      more <- liftP (matches [token.Import]) ;;
      if more : bool then
        imp <- liftP parseImport ;;
        (match imp with
         | ast.NilDecl => ret tt
         | _ => appendDecl imp
         end) ;;;
        match imp with
        | ast.ImportDecl _ _ _ =>
            ended <- liftP (matches [token.Semicolon; token.EOF]) ;;
            (if ended : bool then ret tt
             else
               liftP
                 (eatOnly token.Semicolon
                    "expected ';' after import declaration") ;;;
               ret tt) ;;;
            liftP (eatAll token.Semicolon) ;;;
            parseImports_loop fuel' (imports ++ [imp])
        | _ => parseImports_loop fuel' imports
        end
      else ret imports
  end.

Definition parseImports (fuel : nat) : PM (list ast.Decl) :=
  parseImports_loop fuel [].

(** [parseModuleHeader]: the error it returns, [None] for [nil]. *)
Definition parseModuleHeader (fuel : nat) : PM (option GoError) :=
  tok <-
    liftP
      (eatOnly token.Module "expected 'module' keyword at start of file") ;;
  if negb (token.Type_eqb (lexer.Type_ tok) token.Module) then
    liftP (advance declStart) ;;;
    ret (Some ErrBadModule)
  else
    name <-
      liftP
        (eatOnly token.Identifier
           "expected module name after 'module' keyword") ;;
    if negb (token.Type_eqb (lexer.Type_ name) token.Identifier) then
      liftP (advance declStart) ;;;
      ret (Some ErrBadModule)
    else
      m <- getModule ;;
      setModule
        (ast.mkModule (Some (ast.NewIdent name)) (ast.Imports m)
           (ast.Decls m)) ;;;
      ended <- liftP (matches [token.Semicolon; token.EOF]) ;;
      (if ended : bool then ret tt
       else
         liftP (eatOnly token.Semicolon "expected ';' after module name") ;;;
         ret tt) ;;;
      liftP (eatAll token.Semicolon) ;;;
      imports <- parseImports fuel ;;
      m <- getModule ;;
      setModule (ast.mkModule (ast.Id m) imports (ast.Decls m)) ;;;
      ret None.

(* ----------------------------------------------------------------- *)
(** *** The entry points *)

Section Entry.

Variable ParseFloat : string -> float64 * option string.

(** Modelled from the spec: the loop over the top-level declarations is not
    among the sources. The declarations are "dispatched by next-token type:
    [type] to a type declaration, [func] to a function declaration, anything
    else to a BadDecl consuming at least one token", and the error of the last
    case reads [expected func, got <token>]. *)
Fixpoint parseDecls_loop (fuel : nat) : PM unit :=
  match fuel with
  | O => outOfFuel
  | S fuel' =>
      atEnd <- liftP (matches [token.EOF]) ;;
      if atEnd : bool then ret tt
      else
        tok <- liftP peek ;;
        decl <-
          liftP
            (match lexer.Type_ tok with
             | token.TypeKeyword => parseTypeDecl fuel
             | token.Func => parseFunction ParseFloat fuel
             | _ =>
                 from <- eatOnly token.Func "expected func" ;;
                 to <- advance declStart ;;
                 ret (ast.BadDecl (lexer.Pos from) (lexer.Pos to))
             end) ;;
        appendDecl decl ;;;
        parseDecls_loop fuel'
  end.

(** Modelled from the spec: a failing header "aborts the whole unit with a
    module-level error"; otherwise the declarations follow. *)
Definition parseModule (fuel : nat) : PM (option GoError) :=
  err <- parseModuleHeader fuel ;;
  match err with
  | Some e => ret (Some e)
  | None => parseDecls_loop fuel ;;; ret None
  end.

(** The error an entry point returns: [nil] when nothing was recorded. *)
Definition errorOrNil (errs : token.ErrorList) : option GoError :=
  match errs with
  | [] => None
  | _ => Some (ErrorListError errs)
  end.

(** Modelled from the spec: [parser.Module] is not among the sources. Both
    entry points "install the bailout-catching behavior at their outermost
    scope" and return the result with the errors recorded, the module as
    built so far when parsing bailed out. The lexer being a collaborator, the
    entry point is given the tokens and the file of the source. *)
Definition Module_ (fuel : nat) (file : token.File)
    (tokens : list lexer.Token) : Outcome (ast.Module * option GoError) :=
  let s0 := (ast.mkModule None [] [], mkParser tokens file O []) in
  match parseModule fuel s0 with
  | (OutOfFuel, _) => OutOfFuel
  | (Return _, (m, p)) =>
      match catchErrors None p with
      | (Return errs, _) => Return (m, errorOrNil errs)
      | (Panicked v, _) => Panicked v
      | (OutOfFuel, _) => OutOfFuel
      end
  | (Panicked r, (m, p)) =>
      match catchErrors (Some r) p with
      | (Return errs, _) => Return (m, errorOrNil errs)
      | (Panicked v, _) => Panicked v
      | (OutOfFuel, _) => OutOfFuel
      end
  end.

(** Modelled from the spec: [parser.Function], the entry point that parses "a
    standalone function body", is not among the sources. When parsing bailed
    out there is no declaration to return ([NilDecl]). *)
Definition Function_ (fuel : nat) (file : token.File)
    (tokens : list lexer.Token) : Outcome (ast.Decl * option GoError) :=
  match parseFunction ParseFloat fuel (mkParser tokens file O []) with
  | (OutOfFuel, _) => OutOfFuel
  | (Return fn, p) =>
      match catchErrors None p with
      | (Return errs, _) => Return (fn, errorOrNil errs)
      | (Panicked v, _) => Panicked v
      | (OutOfFuel, _) => OutOfFuel
      end
  | (Panicked r, p) =>
      match catchErrors (Some r) p with
      | (Return errs, _) => Return (ast.NilDecl, errorOrNil errs)
      | (Panicked v, _) => Panicked v
      | (OutOfFuel, _) => OutOfFuel
      end
  end.

End Entry.

(** Where [parseMatch] reports a left operand of [=] that is not an
    identifier: at the operand, or at the operator when the operand is [nil]
    ([None] when [left.Pos()] dereferences [nil]). *)
Definition assignErrPos (equals : lexer.Token) (left : ast.Expression)
  : option token.Pos :=
  match left with
  | ast.NilExpression => Some (lexer.Pos equals)
  | _ => ast.Expression_Pos left
  end.

(** The error list after [error] has recorded [err] at [pos]. *)
Definition recorded (p : Parser) (pos : token.Pos) (err : GoError) : Parser :=
  set_errors p
    (errors p
     ++ [token.mkError (token.Position_ (file p) pos) (GoError_Error err)]).

(* ----------------------------------------------------------------- *)
(** *** What a run of a parsing function guarantees *)

(** What every parsing function leaves as it found it: the tokens and the
    file are the same, the cursor has not moved back, and errors are only
    ever added. *)
Definition frame (p p' : Parser) : Prop :=
  tokens p' = tokens p
  /\ file p' = file p
  /\ (remaining p' <= remaining p)%nat
  /\ (errors p' = [] -> errors p = []).

(** [runs T m p Q]: from [p], [m] returns a value and a state that satisfy
    [Q] and the frame, or it panics with [ErrBailout], some error having
    been recorded. Running out of fuel is allowed when [T] holds: [T := False]
    is total correctness, [T := True] partial correctness. *)
Definition runs {A : Type} (T : Prop) (m : P A) (p : Parser)
    (Q : A -> Parser -> Prop) : Prop :=
  match m p with
  | (Return a, p') => frame p p' /\ Q a p'
  | (Panicked v, p') => v = ErrBailout /\ errors p' <> []
  | (OutOfFuel, _) => T
  end.

(** The fuel is more than the tokens left (or running out is allowed). *)
Definition enough (T : Prop) (fuel : nat) (p : Parser) : Prop :=
  T \/ (remaining p < fuel)%nat.

Definition atEOF (p : Parser) : Prop :=
  lexer.Type_ (peekToken p) = token.EOF.

(** The expression has a start position ([Pos] does not dereference [nil]). *)
Definition hasPos (e : ast.Expression) : Prop :=
  ast.Expression_Pos e <> None.

(** What [parseExpression] guarantees of its result: no bad node unless an
    error was recorded, and at least one token consumed unless the input
    was at its end. *)
Definition Qexpr (p : Parser) (e : ast.Expression) (p' : Parser) : Prop :=
  (errors p' = [] -> ast.Expression_hasBad e = false)
  /\ (~ atEOF p -> (remaining p' < remaining p)%nat).

(** The result of a precedence level below [parseMatch]: as for
    [parseExpression], and the node has a start position. *)
Definition Qsub (p : Parser) (e : ast.Expression) (p' : Parser) : Prop :=
  Qexpr p e p' /\ hasPos e.

(** What the loops over a left operand guarantee of their result. *)
Definition Qleft (e : ast.Expression) (p' : Parser) : Prop :=
  (errors p' = [] -> ast.Expression_hasBad e = false) /\ hasPos e.

(** What the parser of a declaration guarantees of its result. *)
Definition Qdecl (p : Parser) (d : ast.Decl) (p' : Parser) : Prop :=
  (errors p' = [] -> ast.Decl_hasBad d = false)
  /\ (~ atEOF p -> (remaining p' < remaining p)%nat).

(** What the parsers of types guarantee (when they return). *)
Definition Qtype (e : ast.Expression) (p' : Parser) : Prop :=
  errors p' = [] -> ast.Expression_hasBad e = false.

(** What the parsers of declarations guarantee (when they return). *)
Definition Qclean (d : ast.Decl) (p' : Parser) : Prop :=
  errors p' = [] -> ast.Decl_hasBad d = false.

(** The parser is past its last token, and an error at position 0 would be
    the first one or on the line of the last one. *)
Definition stuck (p : Parser) : Prop :=
  (length (tokens p) <= pos p)%nat
  /\ (errors p = []
      \/ exists e, last (errors p) = Some e
           /\ token.Line (token.ErrPos e)
              = token.Line (token.Position_ (file p) 0)).

(** [runs] for the functions that also fill in a module. *)
Definition runsM {A : Type} (T : Prop) (m : PM A) (s : ModState)
    (Q : A -> ModState -> Prop) : Prop :=
  match m s with
  | (Return a, s') => frame (snd s) (snd s') /\ Q a s'
  | (Panicked v, s') => v = ErrBailout /\ errors (snd s') <> []
  | (OutOfFuel, _) => T
  end.

(** The module built so far has no bad node unless an error was recorded. *)
Definition cleanSoFar (s : ModState) : Prop :=
  errors (snd s) = [] -> ast.Module_hasBad (fst s) = false.

(* ----------------------------------------------------------------- *)
(** *** What every step of the parser keeps *)

(** No two errors next to each other in the list are on the same line. *)
Fixpoint spaced (l : token.ErrorList) : bool :=
  match l with
  | e1 :: ((e2 :: _) as rest) =>
      negb (token.Line (token.ErrPos e1) =? token.Line (token.ErrPos e2))
      && spaced rest
  | _ => true
  end.

(** [extends p p']: the tokens and the file are the same, the cursor has not
    moved back nor left the tokens, the errors of [p] are the first errors of
    [p'], and the bound on their number and their spacing are kept. *)
Definition extends (p p' : Parser) : Prop :=
  tokens p' = tokens p
  /\ file p' = file p
  /\ (pos p <= pos p')%nat
  /\ ((pos p <= length (tokens p))%nat -> (pos p' <= length (tokens p))%nat)
  /\ errors p `prefix_of` errors p'
  /\ ((length (errors p) <= S maxErrors)%nat ->
      (length (errors p') <= S maxErrors)%nat)
  /\ (spaced (errors p) = true -> spaced (errors p') = true).

(** [m] keeps [extends], and bails out only past [maxErrors] errors. *)
Definition steps {A : Type} (m : P A) : Prop :=
  forall p,
    extends p (snd (m p))
    /\ (fst (m p) = Panicked ErrBailout ->
        (maxErrors < length (errors (snd (m p))))%nat).

(** The same of a function that also fills in a module. *)
Definition stepsM {A : Type} (m : PM A) : Prop :=
  forall s,
    extends (snd s) (snd (snd (m s)))
    /\ (fst (m s) = Panicked ErrBailout ->
        (maxErrors < length (errors (snd (snd (m s)))))%nat).

(* ----------------------------------------------------------------- *)
(** *** Where a run can be out of fuel *)

(** [wears m p Q]: from [p], [m] does not move the cursor back; what it
    returns satisfies [Q]; and where it is out of fuel, no token is left. *)
Definition wears {A : Type} (m : P A) (p : Parser)
    (Q : A -> Parser -> Prop) : Prop :=
  match m p with
  | (Return a, p') =>
      tokens p' = tokens p /\ (remaining p' <= remaining p)%nat /\ Q a p'
  | (Panicked _, _) => True
  | (OutOfFuel, p') => remaining p' = O
  end.

(** The fuel is more than the tokens left, or no token is left. *)
Definition fuelled (fuel : nat) (p : Parser) : Prop :=
  (remaining p < fuel)%nat \/ remaining p = O.

(** A token has been consumed, unless none was left. *)
Definition consumed (p p' : Parser) : Prop :=
  (0 < remaining p)%nat -> (remaining p' < remaining p)%nat.

End parser.

(* ================================================================= *)
(** ** Chains of operands and operators

    The shape of an input [a + b * c - d]: what its tokens are, and the tree
    in which every operator is grouped to the left and [*] and [/] bind
    tighter than [+] and [-]. *)

Module shape.

Import parser.

(** The tokens from the cursor on are [l]. *)
Definition ahead (p : Parser) (l : list lexer.Token) : Prop :=
  drop (pos p) (tokens p) = l.

(** The parser [n] tokens further. *)
Definition skip (p : Parser) (n : nat) : Parser := set_pos p (pos p + n).

(** The type of the first token of [l] that is not a comment. *)
Definition next (l : list lexer.Token) : token.Type_ :=
  lexer.Type_ (peek_from l).

(** The node of an identifier token. *)
Definition operand (x : lexer.Token) : ast.Expression :=
  ast.Ident (ast.mkIdentifier (lexer.Pos x) (lexer.Lit x)).

(** [left op1 e1 op2 e2 ...] grouped to the left:
    [((left op1 e1) op2 e2) ...]. *)
Definition leftFold (left : ast.Expression)
    (rest : list (lexer.Token * ast.Expression)) : ast.Expression :=
  fold_left
    (fun l oe =>
       ast.BinaryExpr l (lexer.Type_ (fst oe)) (lexer.Pos (fst oe)) (snd oe))
    rest left.

(** The tokens of the operators of a product and of the operands after
    them. *)
Definition pairTokens (pairs : list (lexer.Token * lexer.Token))
  : list lexer.Token :=
  flat_map (fun ox => [fst ox; snd ox]) pairs.

(** The operator is [*] or [/] and the operand an identifier. *)
Definition isFactorPair (ox : lexer.Token * lexer.Token) : bool :=
  (token.Type_eqb (lexer.Type_ (fst ox)) token.Star
   || token.Type_eqb (lexer.Type_ (fst ox)) token.Slash)
  && token.Type_eqb (lexer.Type_ (snd ox)) token.Identifier.

(** A product: identifiers with an operator between each two. *)
Definition Product : Type := lexer.Token * list (lexer.Token * lexer.Token).

Definition productTokens (pr : Product) : list lexer.Token :=
  fst pr :: pairTokens (snd pr).

Definition productExpr (pr : Product) : ast.Expression :=
  leftFold (operand (fst pr))
    (map (fun ox => (fst ox, operand (snd ox))) (snd pr)).

(** The operands are identifiers and the operators are [*] or [/]. *)
Definition isProduct (pr : Product) : bool :=
  token.Type_eqb (lexer.Type_ (fst pr)) token.Identifier
  && forallb isFactorPair (snd pr).

(** The tokens of the operators of a sum and of the products after them. *)
Definition termTokens (ops : list (lexer.Token * Product))
  : list lexer.Token :=
  flat_map (fun op => fst op :: productTokens (snd op)) ops.

(** The operator is [+] or [-] and the operand a product. *)
Definition isTermPair (op : lexer.Token * Product) : bool :=
  (token.Type_eqb (lexer.Type_ (fst op)) token.Plus
   || token.Type_eqb (lexer.Type_ (fst op)) token.Minus)
  && isProduct (snd op).

(** A sum: products with an operator between each two. *)
Definition Sum : Type := Product * list (lexer.Token * Product).

Definition sumTokens (s : Sum) : list lexer.Token :=
  productTokens (fst s) ++ termTokens (snd s).

Definition sumExpr (s : Sum) : ast.Expression :=
  leftFold (productExpr (fst s))
    (map (fun op => (fst op, productExpr (snd op))) (snd s)).

(** The operands are products and the operators are [+] or [-]. *)
Definition isSum (s : Sum) : bool :=
  isProduct (fst s) && forallb isTermPair (snd s).

(* ----------------------------------------------------------------- *)
(** *** Calls on identifiers *)

(** The token types that continue an expression after an operand. *)
Definition continues : list token.Type_ :=
  [token.LParen; token.Period; token.Slash; token.Star; token.Plus;
   token.Minus; token.Greater; token.GreaterEqual; token.Less;
   token.LessEqual; token.EqualEqual; token.BangEqual; token.Equal;
   token.ColonEqual].

(** Arguments: none, or identifiers with a comma before each but the
    first. *)
Definition Args : Type :=
  option (lexer.Token * list (lexer.Token * lexer.Token)).

Definition argTokens (args : Args) : list lexer.Token :=
  match args with
  | None => []
  | Some (x, more) => x :: pairTokens more
  end.

Definition argNames (args : Args) : list lexer.Token :=
  match args with
  | None => []
  | Some (x, more) => x :: map snd more
  end.

(** A comma, then an identifier. *)
Definition isArgPair (cx : lexer.Token * lexer.Token) : bool :=
  token.Type_eqb (lexer.Type_ (fst cx)) token.Comma
  && token.Type_eqb (lexer.Type_ (snd cx)) token.Identifier.

Definition isArgs (args : Args) : bool :=
  match args with
  | None => true
  | Some (x, more) =>
      token.Type_eqb (lexer.Type_ x) token.Identifier
      && forallb isArgPair more
  end.

End shape.

(* ================================================================= *)
(** ** Package [compile] *)

Module compile.

Notation "x <- m ;; k" := (Outcome_bind m (fun x => k))
  (at level 100, m at next level, right associativity).

Section Lowering.

(** The recursive call [c.compileExpr] of the functions below. *)
Variable compileExpr : ast.Expression -> Outcome core.Expr.

(** [compileExprs]: the loop appends the lowering of each expression. *)
Fixpoint compileExprs_loop (coreExprs : list core.Expr)
    (exprs : list ast.Expression) : Outcome (list core.Expr) :=
  match exprs with
  | [] => Return coreExprs
  | expr :: rest =>
      e <- compileExpr expr ;;
      compileExprs_loop (coreExprs ++ [e]) rest
  end.

Definition compileExprs (exprs : list ast.Expression)
  : Outcome (list core.Expr) :=
  compileExprs_loop [] exprs.

(** [compileLocalCallExpr]: [expr.Callee] is overwritten by an atom literal
    when it is an identifier, then lowered; the fields of the composite
    literal are evaluated in order. *)
Definition compileLocalCallExpr (Callee : ast.Expression)
    (Arguments : list ast.Expression) : Outcome core.Expr :=
  let Callee :=
    match Callee with
    | ast.Ident ident => ast.AtomLiteral 0 (ast.Name ident)
    | _ => Callee
    end in
  Func <- compileExpr Callee ;;
  Args <- compileExprs Arguments ;;
  Return (core.Application Func Args).

(** [compileDotCallExpr]: [dot.Target] is overwritten by an atom literal when
    it is an identifier, then lowered. *)
Definition compileDotCallExpr (Arguments : list ast.Expression)
    (Target : ast.Expression) (Attribute : ast.Identifier)
  : Outcome core.Expr :=
  let Target :=
    match Target with
    | ast.Ident ident => ast.AtomLiteral 0 (ast.Name ident)
    | _ => Target
    end in
  Module <- compileExpr Target ;;
  Args <- compileExprs Arguments ;;
  Return (core.InterModuleCall Module (core.Atom (ast.Name Attribute)) Args).

(** [compileCallExpr], on the fields of the call. *)
Definition compileCallExpr (Callee : ast.Expression)
    (Arguments : list ast.Expression) : Outcome core.Expr :=
  match Callee with
  | ast.DotExpr _ Target Attribute =>
      compileDotCallExpr Arguments Target Attribute
  | _ => compileLocalCallExpr Callee Arguments
  end.

(** The type switch of [compileExpr]. *)
Definition compileExpr_switch (expr : ast.Expression) : Outcome core.Expr :=
  match expr with
  | ast.IntLiteral _ _ Value => Return (core.Integer Value)
  | ast.StringLiteral _ Value => Return (core.String Value)
  | ast.Ident ident => Return (core.Var (ast.Name ident))
  | ast.AtomLiteral _ Value => Return (core.Atom Value)
  | ast.CallExpr Callee Arguments _ _ => compileCallExpr Callee Arguments
  | _ =>
      Panicked
        (Errorf ("unrecognized expression type: " ^^ ast.Expression_T expr))
  end.

End Lowering.

(** [compileExpr] with its recursion bounded by [fuel]. *)
Fixpoint compileExpr_fuel (fuel : nat) (expr : ast.Expression)
  : Outcome core.Expr :=
  match fuel with
  | O => OutOfFuel
  | S fuel' => compileExpr_switch (compileExpr_fuel fuel') expr
  end.

(** [compileExpr]: the recursion is at most as deep as the tree is high. *)
Definition compileExpr (expr : ast.Expression) : Outcome core.Expr :=
  compileExpr_fuel (S (ast.height expr)) expr.

(** [compileStatements]: the loop keeps the lowering of the last
    [ReturnStatement]; the error returned is always [nil]. *)
Fixpoint compileStatements_loop (expr : option core.Expr)
    (stmts : list ast.Statement) : Outcome (option core.Expr) :=
  match stmts with
  | [] => Return expr
  | ast.ReturnStatement e :: rest =>
      e' <- compileExpr e ;;
      compileStatements_loop (Some e') rest
  | _ :: rest => compileStatements_loop expr rest
  end.

Definition compileStatements (stmts : list ast.Statement)
  : Outcome (option core.Expr * option GoError) :=
  expr <- compileStatements_loop None stmts ;;
  Return (expr, None).

(** [compileFunction]. *)
Definition compileFunction (fn : ast.FuncDecl)
  : Outcome (core.Func * option GoError) :=
  let arity := Z.of_nat (length (ast.Parameters fn)) in
  let name := ast.Name (ast.FuncName fn) in
  let Annotation :=
    core.mkAnnotation
      [core.ConstTuple
         [core.ConstAtom "function";
          core.ConstTuple [core.ConstAtom name; core.ConstInteger arity]]] in
  let Parameters := map ast.Name (ast.Parameters fn) in
  r <- compileStatements (ast.Statements fn) ;;
  Return (core.mkFunc (core.mkFuncName name arity) Annotation Parameters
            (fst r), snd r).

Definition CompileFunction (fn : ast.FuncDecl)
  : Outcome (core.Func * option GoError) :=
  compileFunction fn.

Section Module_.

(** [FuncDecl.IsPublic] is not among the sources: the export rule is the
    collaborator's, and is taken as given. *)
Variable IsPublic : ast.FuncDecl -> bool.

(** The loop of [compileModule] over [mod.Decls]. *)
Fixpoint compileModule_loop (coreMod : core.Module) (decls : list ast.Decl)
  : Outcome (core.Module * option GoError) :=
  match decls with
  | [] => Return (coreMod, None)
  | decl :: rest =>
      match decl with
      | ast.FuncDecl_ d =>
          r <- compileFunction d ;;
          match snd r with
          | Some err => Return (coreMod, Some err)
          | None =>
              let coreFn := fst r in
              let Exports :=
                if IsPublic d
                then core.Exports coreMod ++ [core.FName coreFn]
                else core.Exports coreMod in
              compileModule_loop
                (core.mkModule (core.ModName coreMod) Exports
                   (core.Functions coreMod ++ [coreFn]))
                rest
          end
      | _ => Panicked (Errorf ("unrecognized decl: " ^^ ast.Decl_T decl))
      end
  end.

(** [compileModule]; reading [mod.Id.Name] of a module without a name is a
    nil dereference. *)
Definition compileModule (mod_ : ast.Module)
  : Outcome (core.Module * option GoError) :=
  match ast.Id mod_ with
  | None =>
      Panicked
        (RuntimeError "invalid memory address or nil pointer dereference")
  | Some id =>
      compileModule_loop (core.mkModule (ast.Name id) [] []) (ast.Decls mod_)
  end.

End Module_.

(* ----------------------------------------------------------------- *)
(** *** The functions every module is given *)

Definition LF : string := String (ascii_of_nat 10) EmptyString.
Definition TAB : string := String (ascii_of_nat 9) EmptyString.

(** The template of [commonModFuncs], a raw string literal in the source. *)
Definition commonModTemplate : string :=
  LF ^^ "module common" ^^ LF
  ^^ LF
  ^^ "func module_info() {" ^^ LF
  ^^ TAB ^^ "return erlang.module_info('{{mod}}')" ^^ LF
  ^^ "}" ^^ LF
  ^^ LF
  ^^ "func module_info(Value) {" ^^ LF
  ^^ TAB ^^ "return erlang.module_info('{{mod}}', Value)" ^^ LF
  ^^ "}" ^^ LF.

(** [strings.NewReplacer(old, new).Replace(s)] for one pair with a non-empty
    [old]: the occurrences of [old] are replaced from left to right, and what
    was replaced is not scanned again. [skip] counts the bytes of an
    occurrence still to be dropped. *)
Fixpoint Replace_from (old new : string) (skip : nat) (s : string) : string :=
  match s with
  | EmptyString => EmptyString
  | String c rest =>
      match skip with
      | S k => Replace_from old new k rest
      | O =>
          if String.prefix old s
          then new ^^ Replace_from old new (String.length old - 1) rest
          else String c (Replace_from old new O rest)
      end
  end.

Definition Replace (old new s : string) : string := Replace_from old new O s.

(** [commonModFuncs], on [mod.Id.Name]. *)
Definition commonModFuncs (name : string) : string :=
  Replace "{{mod}}" name commonModTemplate.

(** Modelled from the spec: the tokenizer is not among the sources, and the
    spec takes it as "a given producer" of tokens. These are the tokens of
    the template for a module named [name], the [k]-th of them at position
    [pos k], before the end-of-input marker, as a tokenizer produces them
    that ends a line after an identifier or a closing parenthesis with a
    semicolon ([parseModuleHeader] is in error without one after the name
    of the module) and gives an atom its name for literal (the literal is
    what the lowering takes for the atom). *)
Definition commonModTokens (pos : nat -> token.Pos) (name : string)
  : list lexer.Token :=
  imap (fun k tl => lexer.mkToken (fst tl) (pos k) (snd tl))
    [(token.Module, "module"); (token.Identifier, "common");
     (token.Semicolon, LF);
     (token.Func, "func"); (token.Identifier, "module_info");
     (token.LParen, "("); (token.RParen, ")"); (token.LCurlyBracket, "{");
     (token.Return, "return"); (token.Identifier, "erlang");
     (token.Period, "."); (token.Identifier, "module_info");
     (token.LParen, "("); (token.Atom, name); (token.RParen, ")");
     (token.Semicolon, LF); (token.RCurlyBracket, "}");
     (token.Func, "func"); (token.Identifier, "module_info");
     (token.LParen, "("); (token.Identifier, "Value"); (token.RParen, ")");
     (token.LCurlyBracket, "{");
     (token.Return, "return"); (token.Identifier, "erlang");
     (token.Period, "."); (token.Identifier, "module_info");
     (token.LParen, "("); (token.Atom, name); (token.Comma, ",");
     (token.Identifier, "Value"); (token.RParen, ")");
     (token.Semicolon, LF); (token.RCurlyBracket, "}")].

(** The declaration of [module_info/0] that the template parses to. *)
Definition module_info_0 (pos : nat -> token.Pos) (name : string)
  : ast.FuncDecl :=
  ast.mkFuncDecl (ast.mkIdentifier (pos 4%nat) "module_info") (pos 3%nat)
    [ast.ReturnStatement
       (ast.CallExpr
          (ast.DotExpr (pos 10%nat)
             (ast.Ident (ast.mkIdentifier (pos 9%nat) "erlang"))
             (ast.mkIdentifier (pos 11%nat) "module_info"))
          [ast.AtomLiteral (pos 13%nat) name] (pos 12%nat) (pos 14%nat))]
    [] (pos 7%nat) (pos 16%nat).

(** The declaration of [module_info/1] that the template parses to. *)
Definition module_info_1 (pos : nat -> token.Pos) (name : string)
  : ast.FuncDecl :=
  ast.mkFuncDecl (ast.mkIdentifier (pos 18%nat) "module_info") (pos 17%nat)
    [ast.ReturnStatement
       (ast.CallExpr
          (ast.DotExpr (pos 25%nat)
             (ast.Ident (ast.mkIdentifier (pos 24%nat) "erlang"))
             (ast.mkIdentifier (pos 26%nat) "module_info"))
          [ast.AtomLiteral (pos 28%nat) name;
           ast.Ident (ast.mkIdentifier (pos 30%nat) "Value")]
          (pos 27%nat) (pos 31%nat))]
    [ast.mkIdentifier (pos 20%nat) "Value"] (pos 22%nat) (pos 33%nat).

Section BaseFuncs.

Variable ParseFloat : string -> float64 * option string.

(** The tokenizer and the position service are collaborators: the tokens of
    a source text, and the file that renders its positions. *)
Variable Lex : string -> list lexer.Token.
Variable NewFile : string -> string -> token.File.

Variable IsPublic : ast.FuncDecl -> bool.

(** The call [parse.Module(filename, src)], run with a unit of fuel for each
    token and one more. *)
Definition parse_Module (filename src : string)
  : Outcome (ast.Module * option GoError) :=
  let toks := Lex src in
  parser.Module_ ParseFloat (S (length toks)) (NewFile filename src) toks.

(** [addBaseFuncs]: it panics with the error of the parse, if any, and
    otherwise stores the declarations of the template, followed by those of
    the module, in the module it was given. *)
Definition addBaseFuncs (mod_ : ast.Module) : Outcome ast.Module :=
  match ast.Id mod_ with
  | None =>
      Panicked
        (RuntimeError "invalid memory address or nil pointer dereference")
  | Some id =>
      r <- parse_Module "<builtin>" (commonModFuncs (ast.Name id)) ;;
      match snd r with
      | Some err => Panicked err
      | None =>
          Return
            (ast.mkModule (ast.Id mod_) (ast.Imports mod_)
               (ast.Decls (fst r) ++ ast.Decls mod_))
      end
  end.

Definition CompileModule (mod_ : ast.Module)
  : Outcome (core.Module * option GoError) :=
  mod_ <- addBaseFuncs mod_ ;;
  compileModule IsPublic mod_.

End BaseFuncs.

(* ----------------------------------------------------------------- *)
(** *** What lowers *)

(** The expressions [compileExpr] has a case for, all the way down: the
    literals other than floats, identifiers, and calls of a callee and of
    arguments that are such; of a callee [target.attr] it is the target that
    is lowered. *)
Fixpoint lowerable (e : ast.Expression) : bool :=
  match e with
  | ast.IntLiteral _ _ _ | ast.StringLiteral _ _ | ast.AtomLiteral _ _
  | ast.Ident _ => true
  | ast.CallExpr callee args _ _ =>
      match callee with
      | ast.DotExpr _ target _ => lowerable target
      | _ => lowerable callee
      end
      && forallb lowerable args
  | _ => false
  end.

(** The operands of the [return] statements of a body, in order. *)
Definition returnExprs (stmts : list ast.Statement) : list ast.Expression :=
  flat_map
    (fun stmt =>
       match stmt with
       | ast.ReturnStatement e => [e]
       | _ => []
       end)
    stmts.

(** The name [compileFunction] gives the function: its name and arity. *)
Definition coreName (fn : ast.FuncDecl) : core.FuncName :=
  core.mkFuncName (ast.Name (ast.FuncName fn))
    (Z.of_nat (length (ast.Parameters fn))).


(** The panic of [compileExpr] on a node [x] it has no case for. *)
Definition unrecognized (x : ast.Expression) : GoError :=
  Errorf ("unrecognized expression type: " ^^ ast.Expression_T x).

(** What [compileExpr] does on [e] is decided by [lowerable]. *)
Definition decided (e : ast.Expression) : Prop :=
  if lowerable e
  then exists c, compileExpr e = Return c
  else exists x, compileExpr e = Panicked (unrecognized x).

(* ----------------------------------------------------------------- *)
(** *** The tree as the lowering leaves it

    The lowering writes into the tree it reads: [compileLocalCallExpr]
    overwrites [expr.Callee] and [compileDotCallExpr] overwrites
    [dot.Target]. The functions below are the functions above with the
    tree made explicit: each gives, with the outcome, the node as the call
    leaves it, for a tree in which no node occurs twice (as the parser
    builds them). *)

Section LoweringInPlace.

(** The recursive call [c.compileExpr]: what it does, and the node as it
    leaves it. *)
Variable compileExpr : ast.Expression -> Outcome core.Expr * ast.Expression.

(** [compileExprs], and the expressions as the loop leaves them. *)
Fixpoint compileExprs_inPlace_loop (coreExprs : list core.Expr)
    (exprs : list ast.Expression)
  : Outcome (list core.Expr) * list ast.Expression :=
  match exprs with
  | [] => (Return coreExprs, [])
  | expr :: rest =>
      let r := compileExpr expr in
      match fst r with
      | Return e =>
          let r' := compileExprs_inPlace_loop (coreExprs ++ [e]) rest in
          (fst r', snd r :: snd r')
      | Panicked v => (Panicked v, snd r :: rest)
      | OutOfFuel => (OutOfFuel, snd r :: rest)
      end
  end.

Definition compileExprs_inPlace (exprs : list ast.Expression)
  : Outcome (list core.Expr) * list ast.Expression :=
  compileExprs_inPlace_loop [] exprs.

(** The atom literal that is stored in the place of an identifier. *)
Definition atomFor (e : ast.Expression) : ast.Expression :=
  match e with
  | ast.Ident ident => ast.AtomLiteral 0 (ast.Name ident)
  | _ => e
  end.

(** [compileLocalCallExpr], and [expr.Callee] and [expr.Arguments] as it
    leaves them. *)
Definition compileLocalCallExpr_inPlace (Callee : ast.Expression)
    (Arguments : list ast.Expression)
  : Outcome core.Expr * (ast.Expression * list ast.Expression) :=
  let Callee := atomFor Callee in
  let f := compileExpr Callee in
  match fst f with
  | Return Func =>
      let a := compileExprs_inPlace Arguments in
      (Args <- fst a ;; Return (core.Application Func Args), (snd f, snd a))
  | Panicked v => (Panicked v, (snd f, Arguments))
  | OutOfFuel => (OutOfFuel, (snd f, Arguments))
  end.

(** [compileDotCallExpr], and [dot.Target] and [call.Arguments] as it leaves
    them. *)
Definition compileDotCallExpr_inPlace (Arguments : list ast.Expression)
    (Target : ast.Expression) (Attribute : ast.Identifier)
  : Outcome core.Expr * (ast.Expression * list ast.Expression) :=
  let Target := atomFor Target in
  let m := compileExpr Target in
  match fst m with
  | Return Module =>
      let a := compileExprs_inPlace Arguments in
      (Args <- fst a ;;
       Return
         (core.InterModuleCall Module (core.Atom (ast.Name Attribute)) Args),
       (snd m, snd a))
  | Panicked v => (Panicked v, (snd m, Arguments))
  | OutOfFuel => (OutOfFuel, (snd m, Arguments))
  end.

(** [compileCallExpr], and [call.Callee] and [call.Arguments] as it leaves
    them. *)
Definition compileCallExpr_inPlace (Callee : ast.Expression)
    (Arguments : list ast.Expression)
  : Outcome core.Expr * (ast.Expression * list ast.Expression) :=
  match Callee with
  | ast.DotExpr Dot Target Attribute =>
      let r := compileDotCallExpr_inPlace Arguments Target Attribute in
      (fst r, (ast.DotExpr Dot (fst (snd r)) Attribute, snd (snd r)))
  | _ => compileLocalCallExpr_inPlace Callee Arguments
  end.

Definition compileExpr_inPlace_switch (expr : ast.Expression)
  : Outcome core.Expr * ast.Expression :=
  match expr with
  | ast.IntLiteral _ _ Value => (Return (core.Integer Value), expr)
  | ast.StringLiteral _ Value => (Return (core.String Value), expr)
  | ast.Ident ident => (Return (core.Var (ast.Name ident)), expr)
  | ast.AtomLiteral _ Value => (Return (core.Atom Value), expr)
  | ast.CallExpr Callee Arguments lp rp =>
      let r := compileCallExpr_inPlace Callee Arguments in
      (fst r, ast.CallExpr (fst (snd r)) (snd (snd r)) lp rp)
  | _ =>
      (Panicked
         (Errorf ("unrecognized expression type: " ^^ ast.Expression_T expr)),
       expr)
  end.

End LoweringInPlace.

Fixpoint compileExpr_inPlace_fuel (fuel : nat) (expr : ast.Expression)
  : Outcome core.Expr * ast.Expression :=
  match fuel with
  | O => (OutOfFuel, expr)
  | S fuel' => compileExpr_inPlace_switch (compileExpr_inPlace_fuel fuel') expr
  end.

Definition compileExpr_inPlace (expr : ast.Expression)
  : Outcome core.Expr * ast.Expression :=
  compileExpr_inPlace_fuel (S (ast.height expr)) expr.

(** Re-lowering the node that a lowering has left lowers to the same and
    leaves the node as it is. *)
Definition settled (e : ast.Expression) : Prop :=
  let r := compileExpr_inPlace e in
  fst r = compileExpr e
  /\ compileExpr_inPlace (snd r) = r
  /\ ast.height (snd r) = ast.height e.

End compile.

(* ================================================================= *)
(** ** Sample inputs *)

Module sample.

(** A float parser for inputs without float literals: it accepts nothing. *)
Definition noFloat (s : string) : float64 * option string :=
  (PrimFloat.zero, Some ("strconv.ParseFloat: parsing " ^^ s)).

(** A file with lines of 100 columns: offset [100 * k + c] is column [c] of
    line [k + 1]. *)
Definition file : token.File :=
  token.mkFile
    (fun pos => token.mkPosition "sample" pos (pos / 100 + 1) (pos mod 100)).

Definition tok (t : token.Type_) (pos : Z) (lit : string) : lexer.Token :=
  lexer.mkToken t pos lit.

Definition start (toks : list lexer.Token) : parser.Parser :=
  parser.mkParser toks file O [].

(** An error list with one error on each of the lines 1 to [n]. *)
Definition errorsOnLines (n : nat) : token.ErrorList :=
  map (fun k => token.mkError (token.Position_ file (100 * Z.of_nat k)) "e")
    (seq 0 n).

(** [a = b = c] *)
Definition chain : list lexer.Token :=
  [tok token.Identifier 0 "a"; tok token.Equal 2 "=";
   tok token.Identifier 4 "b"; tok token.Equal 6 "=";
   tok token.Identifier 8 "c"].

(** [f(1 2)] *)
Definition call12 : list lexer.Token :=
  [tok token.Identifier 0 "f"; tok token.LParen 1 "(";
   tok token.Integer 2 "1"; tok token.Integer 4 "2";
   tok token.RParen 5 ")"].

(** [func foo() {] *)
Definition unterminated : list lexer.Token :=
  [tok token.Func 0 "func"; tok token.Identifier 5 "foo";
   tok token.LParen 8 "("; tok token.RParen 9 ")";
   tok token.LCurlyBracket 11 "{"].

(** [module abc; func foo() {] *)
Definition unterminatedModule : list lexer.Token :=
  [tok token.Module 0 "module"; tok token.Identifier 7 "abc";
   tok token.Semicolon 10 ";";
   tok token.Func 12 "func"; tok token.Identifier 17 "foo";
   tok token.LParen 20 "("; tok token.RParen 21 ")";
   tok token.LCurlyBracket 23 "{"].

(** [module m; func f() { return 1 }] *)
Definition smallModule : list lexer.Token :=
  [tok token.Module 0 "module"; tok token.Identifier 7 "m";
   tok token.Semicolon 8 ";";
   tok token.Func 10 "func"; tok token.Identifier 15 "f";
   tok token.LParen 16 "("; tok token.RParen 17 ")";
   tok token.LCurlyBracket 19 "{";
   tok token.Return 21 "return"; tok token.Integer 28 "1";
   tok token.RCurlyBracket 30 "}"].

(** [1 = 2] *)
Definition assignToLiteral : list lexer.Token :=
  [tok token.Integer 0 "1"; tok token.Equal 2 "="; tok token.Integer 4 "2"].

(** [, 1] repeated [n] times from offset [pos] on. *)
Fixpoint moreArgs (n : nat) (pos : Z) : list lexer.Token :=
  match n with
  | O => []
  | S n' =>
      tok token.Comma pos "," :: tok token.Integer (pos + 1) "1"
      :: moreArgs n' (pos + 2)
  end.

(** [f(1, 1, ..., 1)] with [n + 1] arguments, fifty to a line. *)
Definition callWith (n : nat) : list lexer.Token :=
  [tok token.Identifier 0 "f"; tok token.LParen 1 "(";
   tok token.Integer 2 "1"]
  ++ moreArgs n 3 ++ [tok token.RParen (3 + 2 * Z.of_nat n) ")"].

(** The first 255 arguments of [callWith 255], as parsed. *)
Definition args255 : list ast.Expression :=
  map (fun k => ast.IntLiteral (2 + 2 * Z.of_nat k) "1" 1) (seq 0 255).

(** [callWith 255] with [}] in the place of its 254th argument, which is on
    the line of the comma after the 255th. *)
Definition callWithBadArg : list lexer.Token :=
  <[508%nat := tok token.RCurlyBracket 508 "}"]> (callWith 255).

(** Its first 255 arguments, as parsed. *)
Definition args255Bad : list ast.Expression :=
  <[253%nat := ast.BadExpr 508 0]> args255.

(** [1 = )] *)
Definition assignToParen : list lexer.Token :=
  [tok token.Integer 0 "1"; tok token.Equal 2 "="; tok token.RParen 4 ")"].

(** The parser at token [i] of [toks], no error recorded. *)
Definition at_ (toks : list lexer.Token) (i : nat) : parser.Parser :=
  parser.mkParser toks file i [].

(** [x y;] on each of the lines 2 to [n + 1]. *)
Definition badLines (n : nat) : list lexer.Token :=
  flat_map
    (fun k =>
       let o := 100 * Z.of_nat (S k) in
       [tok token.Identifier o "x"; tok token.Identifier (o + 2) "y";
        tok token.Semicolon (o + 3) ";"])
    (seq 0 n).

(** [func f() {], then [n] lines [x y;]. *)
Definition manyErrors (n : nat) : list lexer.Token :=
  [tok token.Func 0 "func"; tok token.Identifier 5 "f";
   tok token.LParen 6 "("; tok token.RParen 7 ")";
   tok token.LCurlyBracket 9 "{"] ++ badLines n.

(** [type T tuple\[], at the positions [pos]. *)
Definition openTuple (pos : nat -> token.Pos) : list lexer.Token :=
  [lexer.mkToken token.TypeKeyword (pos 0%nat) "type";
   lexer.mkToken token.Identifier (pos 1%nat) "T";
   lexer.mkToken token.Tuple (pos 2%nat) "tuple";
   lexer.mkToken token.LSquareBracket (pos 3%nat) "["].

(** A module of one function, [func f() { return 1 }], and one import. *)
Definition funcThenImport : ast.Module :=
  ast.mkModule (Some (ast.mkIdentifier 7 "m")) []
    [ast.FuncDecl_
       (ast.mkFuncDecl (ast.mkIdentifier 15 "f") 10
          [ast.ReturnStatement (ast.IntLiteral 30 "1" 1)] [] 20 40);
     ast.ImportDecl 50 None (ast.StringLiteral 57 "x")].


(** [a + b * c - d], followed by [;]. *)
Definition sumSample : shape.Sum :=
  ((tok token.Identifier 0 "a", []),
   [(tok token.Plus 2 "+",
     (tok token.Identifier 4 "b",
      [(tok token.Star 6 "*", tok token.Identifier 8 "c")]));
    (tok token.Minus 10 "-",
     (tok token.Identifier 12 "d", []))]).

(** [module m; import "x"; func] *)
Definition headerWithImport : list lexer.Token :=
  [tok token.Module 0 "module"; tok token.Identifier 7 "m";
   tok token.Semicolon 8 ";";
   tok token.Import 10 "import"; tok token.String 17 "x";
   tok token.Semicolon 20 ";"; tok token.Func 22 "func"].

(** [f(a, b);] *)
Definition localCall : list lexer.Token :=
  [tok token.Identifier 0 "f"; tok token.LParen 1 "(";
   tok token.Identifier 2 "a"; tok token.Comma 3 ",";
   tok token.Identifier 5 "b"; tok token.RParen 6 ")";
   tok token.Semicolon 7 ";"].

(** [erlang.module_info(Value) }] *)
Definition qualifiedCall : list lexer.Token :=
  [tok token.Identifier 0 "erlang"; tok token.Period 6 ".";
   tok token.Identifier 7 "module_info"; tok token.LParen 18 "(";
   tok token.Identifier 19 "Value"; tok token.RParen 24 ")";
   tok token.RCurlyBracket 26 "}"].

(** A tokenizer for the samples, which reads its text byte by byte. A word
    of letters, digits and [_] is a keyword or an identifier; a name between
    single quotes is an atom, with the name for literal and the position of
    the opening quote; the end of a line after an identifier or a closing
    parenthesis is a semicolon; blanks separate; the end of the text is the
    end-of-input token. A position is the offset of the first byte. *)
Inductive Scan : Type :=
  | Between
  | InWord (start : nat) (word : string)
  | InAtom (start : nat) (name : string).

Definition isWordByte (c : ascii) : bool :=
  let n := nat_of_ascii c in
  ((65 <=? n) && (n <=? 90) || (97 <=? n) && (n <=? 122)
   || (48 <=? n) && (n <=? 57) || (n =? 95))%nat.

Definition wordType (w : string) : token.Type_ :=
  if String.eqb w "module" then token.Module
  else if String.eqb w "import" then token.Import
  else if String.eqb w "type" then token.TypeKeyword
  else if String.eqb w "func" then token.Func
  else if String.eqb w "return" then token.Return
  else if String.eqb w "tuple" then token.Tuple
  else token.Identifier.

Definition wordToken (start : nat) (w : string) : lexer.Token :=
  lexer.mkToken (wordType w) (Z.of_nat start) w.

Definition punctuation (c : ascii) : option token.Type_ :=
  if Ascii.eqb c "(" then Some token.LParen
  else if Ascii.eqb c ")" then Some token.RParen
  else if Ascii.eqb c "{" then Some token.LCurlyBracket
  else if Ascii.eqb c "}" then Some token.RCurlyBracket
  else if Ascii.eqb c "." then Some token.Period
  else if Ascii.eqb c "," then Some token.Comma
  else None.

Definition endsStatement (last : option token.Type_) : bool :=
  match last with
  | Some token.Identifier | Some token.RParen => true
  | _ => false
  end.

Definition snoc (s : string) (c : ascii) : string :=
  s ^^ String c EmptyString.

(** One byte read between two tokens, after a token of type [last] (if any):
    the tokens it completes, and where the scan is then. *)
Definition between (last : option token.Type_) (i : nat) (c : ascii)
  : list lexer.Token * Scan * option token.Type_ :=
  if isWordByte c then ([], InWord i (String c EmptyString), last)
  else if Ascii.eqb c "'" then ([], InAtom i EmptyString, last)
  else if Ascii.eqb c (ascii_of_nat 10) then
    if endsStatement last
    then ([lexer.mkToken token.Semicolon (Z.of_nat i) compile.LF], Between,
          Some token.Semicolon)
    else ([], Between, last)
  else
    match punctuation c with
    | Some t =>
        ([lexer.mkToken t (Z.of_nat i) (String c EmptyString)], Between,
         Some t)
    | None => ([], Between, last)
    end.

Definition scan (st : Scan) (last : option token.Type_) (i : nat) (c : ascii)
  : list lexer.Token * Scan * option token.Type_ :=
  match st with
  | Between => between last i c
  | InWord start w =>
      if isWordByte c then ([], InWord start (snoc w c), last)
      else
        let r := between (Some (wordType w)) i c in
        (wordToken start w :: fst (fst r), snd (fst r), snd r)
  | InAtom start name =>
      if Ascii.eqb c "'"
      then ([lexer.mkToken token.Atom (Z.of_nat start) name], Between,
            Some token.Atom)
      else ([], InAtom start (snoc name c), last)
  end.

Fixpoint lex_from (st : Scan) (last : option token.Type_) (i : nat)
    (s : string) : list lexer.Token :=
  match s with
  | EmptyString =>
      match st with
      | Between => []
      | InWord start w => [wordToken start w]
      | InAtom start name =>
          [lexer.mkToken token.Illegal (Z.of_nat start) name]
      end
      ++ [lexer.mkToken token.EOF (Z.of_nat i) EmptyString]
  | String c rest =>
      let r := scan st last i c in
      fst (fst r) ++ lex_from (snd (fst r)) (snd r) (S i) rest
  end.

Definition lex (s : string) : list lexer.Token := lex_from Between None O s.

(** The scan of a part of the text: the tokens it completes, and where the
    scan is then. *)
Fixpoint scanAll (st : Scan) (last : option token.Type_) (i : nat)
    (s : string) : list lexer.Token * (Scan * option token.Type_ * nat) :=
  match s with
  | EmptyString => ([], (st, last, i))
  | String c rest =>
      let r := scan st last i c in
      let r' := scanAll (snd (fst r)) (snd r) (S i) rest in
      (fst (fst r) ++ fst r', snd r')
  end.

(** No single quote in the name. *)
Fixpoint quoteFree (s : string) : bool :=
  match s with
  | EmptyString => true
  | String c rest => negb (Ascii.eqb c "'") && quoteFree rest
  end.

End sample.

(* ================================================================= *)
(** * Properties *)

(** ** The lowering pass *)

Section LoweringFacts.

Import compile.

(** Induction over expressions that reaches into the argument lists. *)
Lemma Expression_nested_ind (Q : ast.Expression -> Prop)
  (Hnil : Q ast.NilExpression)
  (Hint : forall p l v, Q (ast.IntLiteral p l v))
  (Hfloat : forall p l v, Q (ast.FloatLiteral p l v))
  (Hstr : forall p v, Q (ast.StringLiteral p v))
  (Hatom : forall p v, Q (ast.AtomLiteral p v))
  (Hid : forall id, Q (ast.Ident id))
  (Hparen : forall x lp rp, Q x -> Q (ast.ParenExpr x lp rp))
  (Hun : forall op p r, Q r -> Q (ast.UnaryExpr op p r))
  (Hbin : forall l op p r, Q l -> Q r -> Q (ast.BinaryExpr l op p r))
  (Hassign : forall l p r, Q r -> Q (ast.AssignExpr l p r))
  (Hmatch : forall l p r, Q l -> Q r -> Q (ast.MatchAssignExpr l p r))
  (Hcall : forall c args lp rp,
      Q c -> Forall Q args -> Q (ast.CallExpr c args lp rp))
  (Hdot : forall d t a, Q t -> Q (ast.DotExpr d t a))
  (Hbad : forall f t, Q (ast.BadExpr f t))
  (Htuple : forall p o l c, Forall Q l -> Q (ast.TupleType p o l c))
  : forall e, Q e.
Proof.
  fix IH 1.
  intros [ | | | | | | x ? ? | ? ? r | l ? ? r | ? ? r | l ? r
         | c args ? ? | ? t ? | | ? ? l ?].
  - exact Hnil.
  - apply Hint.
  - apply Hfloat.
  - apply Hstr.
  - apply Hatom.
  - apply Hid.
  - apply Hparen, IH.
  - apply Hun, IH.
  - apply Hbin; apply IH.
  - apply Hassign, IH.
  - apply Hmatch; apply IH.
  - apply Hcall; [apply IH|].
    revert args. fix IHl 1.
    intros [|x r]; constructor; [apply IH | apply IHl].
  - apply Hdot, IH.
  - apply Hbad.
  - apply Htuple.
    revert l. fix IHl 1.
    intros [|x r]; constructor; [apply IH | apply IHl].
Qed.

Lemma heights_le (l : list ast.Expression) (x : ast.Expression) :
  In x l -> (ast.height x <= ast.heights l)%nat.
Proof.
  induction l as [|y r IH]; simpl; intros Hin; [contradiction|].
  destruct Hin as [->|Hin]; [lia|]. specialize (IH Hin). lia.
Qed.

(** Two recursive calls that agree on the arguments give the same list. *)
Lemma compileExprs_loop_ext (f g : ast.Expression -> Outcome core.Expr)
    (exprs : list ast.Expression) :
  (forall x, In x exprs -> f x = g x) ->
  forall acc, compileExprs_loop f acc exprs = compileExprs_loop g acc exprs.
Proof.
  induction exprs as [|e rest IH]; intros Hfg acc; simpl; [reflexivity|].
  rewrite (Hfg e) by (left; reflexivity).
  destruct (g e); simpl; try reflexivity.
  apply IH. intros x Hx. apply Hfg. right; exact Hx.
Qed.

(** The type switch only calls [compileExpr] on expressions lower than the
    one it is given: on its parts, or on the atom that replaces a callee. *)
Lemma compileExpr_switch_ext (f g : ast.Expression -> Outcome core.Expr)
    (e : ast.Expression) :
  (forall x, (ast.height x < ast.height e)%nat -> f x = g x) ->
  compileExpr_switch f e = compileExpr_switch g e.
Proof.
  destruct e as [ | | | | | | | | | | | c args lp rp | | | ];
    try reflexivity.
  intros Hfg.
  change (ast.height (ast.CallExpr c args lp rp))
    with (S (Nat.max (ast.height c) (ast.heights args))) in Hfg.
  assert (Hargs : forall acc,
             compileExprs_loop f acc args = compileExprs_loop g acc args).
  { apply compileExprs_loop_ext. intros x Hx. apply Hfg.
    pose proof (heights_le args x Hx). lia. }
  assert (Hc : f c = g c) by (apply Hfg; lia).
  assert (Hatom : forall v, f (ast.AtomLiteral 0 v) = g (ast.AtomLiteral 0 v))
    by (intros v; apply Hfg; simpl; lia).
  unfold compileExpr_switch, compileCallExpr.
  destruct c as [ | | | | | id | | | | | | | d t a | | ];
    unfold compileLocalCallExpr, compileDotCallExpr, compileExprs;
    try (rewrite Hc, Hargs; reflexivity);
    try (rewrite Hatom, Hargs; reflexivity).
  assert (Ht : f t = g t) by (apply Hfg; simpl; lia).
  destruct t; try (rewrite Ht, Hargs; reflexivity);
    rewrite Hatom, Hargs; reflexivity.
Qed.

(** Fuel beyond the height of the expression changes nothing. *)
Lemma compileExpr_fuel_stable (n : nat) :
  forall m e, (ast.height e < n)%nat -> (ast.height e < m)%nat ->
  compileExpr_fuel n e = compileExpr_fuel m e.
Proof.
  induction n as [|n IH]; intros m e Hn Hm; [lia|].
  destruct m as [|m]; [lia|]. simpl.
  apply compileExpr_switch_ext. intros x Hx. apply IH; lia.
Qed.

(** [compileExpr] satisfies the equation of the source function: it is the
    type switch, with [compileExpr] itself for the recursive calls. *)
Lemma compileExpr_eq (e : ast.Expression) :
  compileExpr e = compileExpr_switch compileExpr e.
Proof.
  unfold compileExpr at 1. simpl.
  apply compileExpr_switch_ext. intros x Hx.
  unfold compileExpr. apply compileExpr_fuel_stable; lia.
Qed.

Lemma compileExprs_loop_fuel (f : ast.Expression -> Outcome core.Expr)
    (exprs : list ast.Expression) :
  Forall (fun x => f x <> OutOfFuel) exprs ->
  forall acc, compileExprs_loop f acc exprs <> OutOfFuel.
Proof.
  induction 1 as [|e rest He _ IH]; intros acc; simpl; [discriminate|].
  destruct (f e); simpl; [apply IH | discriminate | contradiction].
Qed.

(** [compileExpr] never runs out of fuel: it returns or it panics. *)
Lemma compileExpr_total (e : ast.Expression) : compileExpr e <> OutOfFuel.
Proof.
  remember (S (ast.height e)) as n eqn:Hn.
  assert (Hlt : (ast.height e < n)%nat) by lia. clear Hn.
  revert e Hlt.
  induction n as [|n IH]; intros e Hlt; [lia|].
  rewrite compileExpr_eq.
  destruct e as [ | | | | | | | | | | | c args lp rp | | | ];
    try (simpl; discriminate).
  change (ast.height (ast.CallExpr c args lp rp))
    with (S (Nat.max (ast.height c) (ast.heights args))) in Hlt.
  assert (Hargs : forall acc,
             compileExprs_loop compileExpr acc args <> OutOfFuel).
  { apply compileExprs_loop_fuel. apply List.Forall_forall. intros x Hx.
    apply IH. pose proof (heights_le args x Hx). lia. }
  assert (Hatom : forall v,
             compileExpr (ast.AtomLiteral 0 v) = Return (core.Atom v))
    by (intros v; rewrite compileExpr_eq; reflexivity).
  assert (Hlocal : forall c', compileExpr c' <> OutOfFuel ->
             (Func <- compileExpr c' ;;
              Args <- compileExprs compileExpr args ;;
              Return (core.Application Func Args)) <> OutOfFuel).
  { intros c' Hc'. destruct (compileExpr c'); simpl; try easy.
    unfold compileExprs. specialize (Hargs []).
    destruct (compileExprs_loop compileExpr [] args); simpl; easy. }
  assert (Hdot : forall a t', compileExpr t' <> OutOfFuel ->
             (Module <- compileExpr t' ;;
              Args <- compileExprs compileExpr args ;;
              Return (core.InterModuleCall Module
                        (core.Atom (ast.Name a)) Args)) <> OutOfFuel).
  { intros a t' Ht'. destruct (compileExpr t'); simpl; try easy.
    unfold compileExprs. specialize (Hargs []).
    destruct (compileExprs_loop compileExpr [] args); simpl; easy. }
  assert (Hc : compileExpr c <> OutOfFuel) by (apply IH; lia).
  unfold compileExpr_switch, compileCallExpr.
  destruct c as [ | | | | | id | | | | | | | d t a | | ];
    unfold compileLocalCallExpr; try (apply Hlocal; assumption).
  - apply Hlocal. rewrite Hatom. discriminate.
  - unfold compileDotCallExpr.
    assert (Ht : compileExpr t <> OutOfFuel) by (apply IH; simpl in Hlt; lia).
    destruct t; try (apply Hdot; assumption).
    apply Hdot. rewrite Hatom. discriminate.
Qed.



(** C2. Integer, string and atom literals lower to the constant of their
    kind and an identifier to a variable of its name; a float literal has no
    case in the type switch of [compileExpr], which panics on it. *)
Theorem compileExpr_FloatLiteral_panics :
  (forall p l v, compileExpr (ast.IntLiteral p l v) = Return (core.Integer v))
  /\ (forall p v, compileExpr (ast.StringLiteral p v) = Return (core.String v))
  /\ (forall p v, compileExpr (ast.AtomLiteral p v) = Return (core.Atom v))
  /\ (forall id, compileExpr (ast.Ident id) = Return (core.Var (ast.Name id)))
  /\ (forall p l v,
         compileExpr (ast.FloatLiteral p l v)
         = Panicked
             (Errorf "unrecognized expression type: *ast.FloatLiteral")).
Proof.
  repeat split; intros; rewrite compileExpr_eq; reflexivity.
Qed.

Lemma compileStatements_loop_total (stmts : list ast.Statement) :
  forall expr, compileStatements_loop expr stmts <> OutOfFuel.
Proof.
  induction stmts as [|s rest IH]; intros expr; simpl; [discriminate|].
  destruct s as [e|e|f t]; try apply IH.
  pose proof (compileExpr_total e) as He.
  destruct (compileExpr e); simpl; [apply IH | discriminate | contradiction].
Qed.

(** [compileFunction] returns no error, and never needs more fuel. *)
Lemma compileFunction_cases (fn : ast.FuncDecl) :
  (exists coreFn, compileFunction fn = Return (coreFn, None))
  \/ (exists v, compileFunction fn = Panicked v).
Proof.
  unfold compileFunction, compileStatements.
  pose proof (compileStatements_loop_total (ast.Statements fn) None) as H.
  destruct (compileStatements_loop None (ast.Statements fn)) as [b|v|];
    simpl; [left | right |]; eauto. contradiction.
Qed.

Section ModuleFacts.

Variable IsPublic : ast.FuncDecl -> bool.

Lemma compileModule_loop_panics (decls : list ast.Decl) :
  (exists d, In d decls /\ ast.isFuncDecl d = false) ->
  forall coreMod, exists v,
    compileModule_loop IsPublic coreMod decls = Panicked v.
Proof.
  induction decls as [|decl rest IH]; intros (d & Hin & Hd) coreMod.
  - destruct Hin.
  - simpl.
    destruct decl as [ | | | fn | ]; try (eexists; reflexivity).
    destruct Hin as [<-|Hin]; [discriminate|].
    destruct (compileFunction_cases fn) as [[coreFn ->]|[v ->]]; simpl.
    + apply IH. exists d. split; assumption.
    + eexists; reflexivity.
Qed.


(** The loop over function declarations followed by another declaration is
    the loop over the function declarations, then the panic. *)
Lemma compileModule_loop_then (fns : list ast.FuncDecl) (d : ast.Decl)
    (rest : list ast.Decl) :
  ast.isFuncDecl d = false ->
  forall coreMod,
    compileModule_loop IsPublic coreMod (map ast.FuncDecl_ fns ++ d :: rest)
    = (_ <- compileModule_loop IsPublic coreMod (map ast.FuncDecl_ fns) ;;
       Panicked (Errorf ("unrecognized decl: " ^^ ast.Decl_T d))).
Proof.
  intros Hd. induction fns as [|fn fns IH]; intros coreMod.
  - simpl. destruct d; try reflexivity. discriminate.
  - simpl.
    destruct (compileFunction_cases fn) as [[coreFn ->]|[v ->]]; simpl.
    + apply IH.
    + reflexivity.
Qed.

End ModuleFacts.

End LoweringFacts.

(** ** The error collector *)

Section CollectorFacts.

Import parser.

Lemma error_newLine (p : Parser) (pos : token.Pos) (err : GoError) :
  newLine p pos ->
  error pos err p
  = if Nat.ltb maxErrors (length (errors p)) then (Panicked ErrBailout, p)
    else (Return tt,
          set_errors p
            (errors p
             ++ [token.mkError (token.Position_ (file p) pos)
                   (GoError_Error err)])).
Proof.
  intros Hnew. unfold error.
  destruct (last (errors p)) as [e|] eqn:Hlast; [|reflexivity].
  specialize (Hnew e Hlast).
  destruct (Z.eqb_spec (token.Line (token.ErrPos e))
              (token.Line (token.Position_ (file p) pos))); [contradiction|].
  reflexivity.
Qed.

(** C3. With more than ten errors recorded, recording one more on a new
    line panics with [ErrBailout] and leaves the parser as it was.
    [catchErrors] turns a recovered [ErrBailout] into a normal return of the
    errors recorded so far, raises any other recovered value again as it is,
    and returns the errors when there was no panic. *)
Theorem error_bailout_caught (p : Parser) (pos : token.Pos) (err : GoError) :
  (10 < length (errors p))%nat ->
  newLine p pos ->
  error pos err p = (Panicked ErrBailout, p)
  /\ catchErrors (Some ErrBailout) p = (Return (errors p), p)
  /\ (forall r, r <> ErrBailout -> catchErrors (Some r) p = (Panicked r, p))
  /\ catchErrors None p = (Return (errors p), p).
Proof.
  intros Hmany Hnew. repeat split.
  - rewrite error_newLine by assumption.
    unfold maxErrors. destruct (Nat.ltb_spec 10 (length (errors p))); [reflexivity | lia].
  - intros r Hr. destruct r; try reflexivity. contradiction.
Qed.

End CollectorFacts.

(** Eleven errors on the lines 1 to 11, and one more on the line 13. *)
Lemma error_bailout_caught_witness :
  let p := parser.mkParser [] sample.file O (sample.errorsOnLines 11) in
  parser.error 1200 (Errorf "one more") p = (Panicked ErrBailout, p)
  /\ parser.catchErrors (Some ErrBailout) p
     = (Return (sample.errorsOnLines 11), p).
Proof.
  intros p.
  destruct (error_bailout_caught p 1200 (Errorf "one more")) as (H1 & H2 & _).
  - vm_compute. lia.
  - intros e He. vm_compute in He. injection He as <-. vm_compute. discriminate.
  - split; [exact H1 | exact H2].
Defined.

(** ** Runs of the parsing functions *)

Section RunFacts.

Import parser.

Lemma frame_refl (p : Parser) : frame p p.
Proof. unfold frame. auto. Qed.

Lemma frame_trans (p1 p2 p3 : Parser) :
  frame p1 p2 -> frame p2 p3 -> frame p1 p3.
Proof.
  unfold frame. intros (Ht1 & Hf1 & Hr1 & He1) (Ht2 & Hf2 & Hr2 & He2).
  repeat split; try congruence; [lia | auto].
Qed.

Context {T : Prop}.

Lemma runs_ret {A : Type} (a : A) (p : Parser) (Q : A -> Parser -> Prop) :
  Q a p -> runs T (ret a) p Q.
Proof. intros HQ. unfold runs, ret. split; [apply frame_refl | exact HQ]. Qed.

Lemma runs_bind {A B : Type} (m : P A) (k : A -> P B) (p : Parser)
    (Q1 : A -> Parser -> Prop) (Q : B -> Parser -> Prop) :
  runs T m p Q1 ->
  (forall a p1, frame p p1 -> Q1 a p1 -> runs T (k a) p1 Q) ->
  runs T (bind m k) p Q.
Proof.
  unfold runs, bind. intros Hm Hk.
  destruct (m p) as [[a|v|] p1]; try assumption.
  destruct Hm as [Hf HQ1]. specialize (Hk a p1 Hf HQ1).
  destruct (k a p1) as [[b|v|] p2]; try assumption.
  destruct Hk as [Hf2 HQ]. split; [eapply frame_trans; eassumption | exact HQ].
Qed.

Lemma runs_weaken {A : Type} (m : P A) (p : Parser)
    (Q1 Q : A -> Parser -> Prop) :
  runs T m p Q1 ->
  (forall a p1, frame p p1 -> Q1 a p1 -> Q a p1) ->
  runs T m p Q.
Proof.
  unfold runs. intros Hm HQ.
  destruct (m p) as [[a|v|] p1]; try assumption.
  destruct Hm as [Hf HQ1]. split; [exact Hf | apply HQ; assumption].
Qed.

Lemma runs_outOfFuel {A : Type} (p : Parser) (Q : A -> Parser -> Prop) :
  T -> runs T outOfFuel p Q.
Proof. intros HT. exact HT. Qed.

Lemma eat_from_spec (l : list lexer.Token) :
  forall i,
    fst (eat_from l i) = peek_from l
    /\ (i <= snd (eat_from l i) <= i + length l)%nat
    /\ (lexer.Type_ (fst (eat_from l i)) <> token.EOF ->
        (i < snd (eat_from l i))%nat).
Proof.
  induction l as [|tok rest IH]; intros i; simpl.
  - repeat split; try lia. intros H. contradiction H. reflexivity.
  - destruct (isComment tok).
    + destruct (IH (S i)) as (H1 & H2 & H3).
      repeat split; [assumption | lia | lia | intros H; specialize (H3 H); lia].
    + simpl. repeat split; lia.
Qed.

Lemma eat_runs (p : Parser) :
  runs T eat p
    (fun tok p' =>
       tok = peekToken p /\ errors p' = errors p
       /\ (~ atEOF p -> (remaining p' < remaining p)%nat)).
Proof.
  unfold runs, eat, frame, atEOF, peekToken, remaining.
  destruct (eat_from_spec (drop (pos p) (tokens p)) (pos p)) as (H1 & H2 & H3).
  rewrite length_drop in H2. simpl.
  repeat split; auto; try lia.
  rewrite <- H1. intros H. specialize (H3 H). lia.
Qed.

Lemma peek_runs (p : Parser) :
  runs T peek p (fun tok p' => tok = peekToken p /\ p' = p).
Proof. unfold runs, peek. split; [apply frame_refl | auto]. Qed.

Lemma matches_runs (types : list token.Type_) (p : Parser) :
  runs T (matches types) p
    (fun b p' => b = matchesToken types p /\ p' = p).
Proof. unfold runs, matches. split; [apply frame_refl | auto]. Qed.

Lemma eatAll_from_spec (t : token.Type_) (l : list lexer.Token) :
  forall i, (i <= snd (eatAll_from t l i) <= i + length l)%nat.
Proof.
  induction l as [|tok rest IH]; intros i; simpl; [lia|].
  destruct (token.Type_eqb (lexer.Type_ tok) t); simpl; [|lia].
  specialize (IH (S i)). lia.
Qed.

Lemma eatAll_runs (t : token.Type_) (p : Parser) :
  runs T (eatAll t) p
    (fun _ p' =>
       errors p' = errors p
       /\ (p' = p \/ (remaining p' < remaining p)%nat)).
Proof.
  unfold runs, eatAll, frame, remaining. simpl.
  pose proof (eatAll_from_spec t (drop (pos p) (tokens p)) (pos p)) as H.
  rewrite length_drop in H. repeat split; auto; try lia.
  destruct (Nat.eq_dec (snd (eatAll_from t (drop (pos p) (tokens p)) (pos p)))
              (pos p)) as [->|Hne].
  - left. destruct p; reflexivity.
  - right. lia.
Qed.

Lemma error_runs (pos : token.Pos) (err : GoError) (p : Parser) :
  runs T (error pos err) p
    (fun _ p' => errors p' <> [] /\ remaining p' = remaining p).
Proof.
  unfold runs, error.
  destruct (last (errors p)) as [e|] eqn:Hlast.
  - assert (Hne : errors p <> []).
    { intros Hnil. rewrite Hnil in Hlast. discriminate. }
    destruct (token.Line (token.ErrPos e)
              =? token.Line (token.Position_ (file p) pos)).
    + split; [apply frame_refl | auto].
    + destruct (Nat.ltb maxErrors (length (errors p))); [auto|].
      unfold frame, token.ErrorList_Add, remaining. simpl.
      repeat split; auto; intros H; destruct (errors p); discriminate.
  - destruct (Nat.ltb maxErrors (length (errors p))) eqn:Hlt.
    + apply last_None in Hlast. rewrite Hlast in Hlt. discriminate.
    + unfold frame, token.ErrorList_Add, remaining. simpl.
      repeat split; auto; intros H; destruct (errors p); discriminate.
Qed.

Lemma eatOnly_runs (t : token.Type_) (msg : string) (p : Parser) :
  runs T (eatOnly t msg) p
    (fun tok p' =>
       tok = peekToken p
       /\ (lexer.Type_ tok <> t -> errors p' <> [])
       /\ (~ atEOF p -> (remaining p' < remaining p)%nat)).
Proof.
  unfold eatOnly.
  eapply runs_bind; [apply eat_runs|].
  intros tok p1 Hf1 (Htok & He1 & Hprog1).
  eapply runs_bind
    with (Q1 := fun _ p' => lexer.Type_ tok <> t -> errors p' <> []).
  - destruct (token.Type_eqb (lexer.Type_ tok) t) eqn:Heq; simpl.
    + apply runs_ret. apply bool_decide_eq_true in Heq. intros H. contradiction.
    + eapply runs_weaken; [apply error_runs|]. intros _ p2 _ [Hne _] _. exact Hne.
  - intros _ p2 Hf2 Hne. apply runs_ret.
    destruct Hf2 as (_ & _ & Hr & _).
    repeat split; auto. intros H; specialize (Hprog1 H); lia.
Qed.

Lemma advance_loop_spec (to : gmap token.Type_ bool) (n : nat) :
  forall tok p,
    frame p (snd (advance_loop n to tok p))
    /\ errors (snd (advance_loop n to tok p)) = errors p.
Proof.
  induction n as [|n IH]; intros tok p; simpl.
  - split; [apply frame_refl | reflexivity].
  - destruct (negb (token.Type_eqb (lexer.Type_ (peekToken p)) token.EOF)
              && negb (index to (lexer.Type_ (peekToken p)))).
    + pose proof (eat_runs p) as He. unfold runs, eat in He. simpl in He.
      destruct He as [Hf (_ & He & _)].
      match goal with |- context [advance_loop n to ?t ?q] =>
        destruct (IH t q) as [Hf2 He2] end.
      split; [eapply frame_trans; eassumption | rewrite He2; reflexivity].
    + split; [apply frame_refl | reflexivity].
Qed.

Lemma advance_runs (to : gmap token.Type_ bool) (p : Parser) :
  runs T (advance to) p (fun _ p' => errors p' = errors p).
Proof.
  unfold runs, advance. apply advance_loop_spec.
Qed.

Lemma parseInt_runs (tok : lexer.Token) (p : Parser) :
  runs T (parseInt tok) p (fun _ _ => True).
Proof.
  unfold parseInt.
  eapply runs_bind with (Q1 := fun _ _ => True).
  - destruct (snd (strconv.ParseInt (lexer.Lit tok)));
      [eapply runs_weaken; [apply error_runs | auto] | apply runs_ret; exact I].
  - intros. apply runs_ret. exact I.
Qed.

(** A token of one of [types] is ahead. *)
Lemma matchesToken_In (types : list token.Type_) (p : Parser) :
  matchesToken types p = true -> In (lexer.Type_ (peekToken p)) types.
Proof.
  unfold matchesToken. rewrite existsb_exists.
  intros (t & Hin & Heq). apply bool_decide_eq_true in Heq. congruence.
Qed.

Lemma matchesToken_not_atEOF (types : list token.Type_) (p : Parser) :
  matchesToken types p = true -> ~ In token.EOF types -> ~ atEOF p.
Proof.
  intros Hm Hnot Heof. apply matchesToken_In in Hm.
  unfold atEOF in Heof. rewrite Heof in Hm. contradiction.
Qed.

Lemma matchesToken_EOF_false (p : Parser) :
  matchesToken [token.EOF] p = false -> ~ atEOF p.
Proof.
  unfold matchesToken, atEOF. simpl. rewrite orb_false_r.
  intros H Heq. rewrite Heq in H. discriminate.
Qed.

End RunFacts.

(** *** The expression parser *)

Lemma frame_remaining (p p' : parser.Parser) :
  parser.frame p p' -> (parser.remaining p' <= parser.remaining p)%nat.
Proof. intros (_ & _ & H & _). exact H. Qed.

Lemma frame_errors (p p' : parser.Parser) :
  parser.frame p p' -> parser.errors p' = [] -> parser.errors p = [].
Proof. intros (_ & _ & _ & H). exact H. Qed.

Lemma Expressions_hasBad_app (l : list ast.Expression) (x : ast.Expression) :
  ast.Expressions_hasBad (l ++ [x])
  = ast.Expressions_hasBad l || ast.Expression_hasBad x.
Proof.
  induction l as [|y r IH]; simpl.
  - now rewrite orb_false_r.
  - rewrite IH. now rewrite orb_assoc.
Qed.

(** What the frames in the context say about the tokens left. *)
Ltac frames :=
  repeat match goal with
    | H : parser.frame ?a ?b |- _ =>
        pose proof (frame_remaining a b H);
        pose proof (frame_errors a b H);
        clear H
    end.

(** Closes a goal [enough T fuel p] from the hypotheses of that form. *)
Ltac spend :=
  unfold parser.enough in *;
  repeat match goal with
    | H : _ \/ (_ < _)%nat |- _ =>
        destruct H as [H|H]; [left; exact H|]
    end;
  frames; right; lia.

Section ExprRuns.

Import parser.

Context {T : Prop}.
Variable ParseFloat : string -> float64 * option string.
Variable knot : P ast.Expression.
Variable K : nat.

(** The recursive call is sound wherever fewer than [K] tokens are left. *)
Hypothesis knot_runs : forall p, enough T K p -> runs T knot p (Qexpr p).

Lemma parseFloat_runs (tok : lexer.Token) (p : Parser) :
  runs T (parseFloat ParseFloat tok) p (fun _ _ => True).
Proof.
  unfold parseFloat.
  eapply runs_bind with (Q1 := fun _ _ => True).
  - destruct (snd (ParseFloat (lexer.Lit tok)));
      [eapply runs_weaken; [apply error_runs | auto] | apply runs_ret; exact I].
  - intros. apply runs_ret. exact I.
Qed.

Lemma parsePrimary_bad_runs (tok : lexer.Token) (msg : GoError) (p : Parser) :
  runs T
    (error (lexer.Pos tok) msg ;;;
     to <- advance exprEnd ;;
     ret (ast.BadExpr (lexer.Pos tok) (lexer.Pos to)))
    p (fun e p' => errors p' <> [] /\ hasPos e).
Proof.
  eapply runs_bind; [apply error_runs|].
  intros _ p1 Hf1 [Hne _].
  eapply runs_bind; [apply advance_runs|].
  intros to p2 Hf2 He. apply runs_ret.
  split; [congruence | discriminate].
Qed.

Lemma parsePrimary_runs (p : Parser) :
  enough T (S K) p -> runs T (parsePrimary ParseFloat knot) p (Qsub p).
Proof.
  intros HK. unfold parsePrimary.
  eapply runs_bind; [apply eat_runs|].
  intros tok p1 Hf1 (Htok & He1 & Hprog1).
  assert (Hleaf : forall e,
             ast.Expression_hasBad e = false -> hasPos e ->
             forall p2, frame p1 p2 -> Qsub p e p2).
  { intros e Hbad Hpos p2 Hf2. frames. repeat split; auto.
    intros Hne. specialize (Hprog1 Hne). lia. }
  destruct (lexer.Type_ tok) eqn:Htype;
    try (eapply runs_weaken; [apply parsePrimary_bad_runs|];
         intros e p2 Hf2 [Hne Hpos]; frames; repeat split; auto;
         [intros Hnil; contradiction
         |intros Hn; specialize (Hprog1 Hn); lia]).
  - (* Identifier *)
    apply runs_ret. apply Hleaf; [reflexivity | discriminate | apply frame_refl].
  - (* Integer *)
    eapply runs_bind; [apply parseInt_runs|].
    intros v p2 Hf2 _. apply runs_ret.
    apply Hleaf; [reflexivity | discriminate | exact Hf2].
  - (* Float *)
    eapply runs_bind; [apply parseFloat_runs|].
    intros v p2 Hf2 _. apply runs_ret.
    apply Hleaf; [reflexivity | discriminate | exact Hf2].
  - (* String *)
    apply runs_ret. apply Hleaf; [reflexivity | discriminate | apply frame_refl].
  - (* Atom *)
    apply runs_ret. apply Hleaf; [reflexivity | discriminate | apply frame_refl].
  - (* LParen *)
    assert (Hne : ~ atEOF p).
    { unfold atEOF. rewrite <- Htok, Htype. discriminate. }
    specialize (Hprog1 Hne).
    eapply runs_bind; [apply knot_runs; spend|].
    intros expr p2 Hf2 [Hbad _].
    eapply runs_bind; [apply eatOnly_runs|].
    intros rparen p3 Hf3 _. apply runs_ret.
    frames. repeat split; simpl; auto; [lia | discriminate].
Qed.

Lemma parseArguments_loop_runs (fuel : nat) :
  forall args p,
    enough T fuel p -> enough T (S K) p ->
    (errors p = [] -> ast.Expressions_hasBad args = false) ->
    runs T (parseArguments_loop knot fuel args) p
      (fun l p' => errors p' = [] -> ast.Expressions_hasBad l = false).
Proof.
  induction fuel as [|fuel IH]; intros args p Hfuel HK Hargs.
  - apply runs_outOfFuel. destruct Hfuel as [HT|Hlt]; [exact HT | lia].
  - cbn [parseArguments_loop].
    eapply runs_bind; [apply matches_runs|].
    intros more p0 _ [-> ->].
    destruct (matchesToken [token.Comma] p) eqn:Hcomma.
    + assert (Hne : ~ atEOF p).
      { eapply matchesToken_not_atEOF; [exact Hcomma|].
        simpl. intros [H|[]]. discriminate. }
      eapply runs_bind; [apply eat_runs|].
      intros comma p1 Hf1 (_ & He1 & Hprog1). specialize (Hprog1 Hne).
      destruct (255 <=? length args)%nat.
      * eapply runs_bind; [apply error_runs|].
        intros _ p2 Hf2 [Hne2 _]. apply runs_ret.
        intros Hnil. contradiction.
      * eapply runs_bind; [apply knot_runs; spend|].
        intros arg p2 Hf2 [Hbad _].
        eapply runs_weaken; [apply IH|].
        -- spend.
        -- spend.
        -- intros Hnil. rewrite Expressions_hasBad_app.
           frames. rewrite Hargs, Hbad; auto.
        -- intros l p3 _ HQ. exact HQ.
    + apply runs_ret. exact Hargs.
Qed.

Lemma parseArguments_runs (fuel : nat) (p : Parser) :
  enough T fuel p -> enough T K p ->
  runs T (parseArguments knot fuel) p
    (fun l p' => errors p' = [] -> ast.Expressions_hasBad l = false).
Proof.
  intros Hfuel HK. unfold parseArguments.
  eapply runs_bind; [apply matches_runs|].
  intros close p0 _ [-> ->].
  destruct (matchesToken [token.RParen] p).
  - apply runs_ret. reflexivity.
  - eapply runs_bind; [apply knot_runs; exact HK|].
    intros arg p1 Hf1 [Hbad _].
    eapply runs_weaken; [apply parseArguments_loop_runs|].
    + spend.
    + spend.
    + intros Hnil. simpl. rewrite Hbad; auto.
    + intros l p2 _ HQ. exact HQ.
Qed.

Lemma parseCall_loop_runs (fuel : nat) :
  forall callee p,
    enough T fuel p -> enough T (S K) p ->
    Qleft callee p ->
    runs T (parseCall_loop knot fuel callee) p Qleft.
Proof.
  induction fuel as [|fuel IH]; intros callee p Hfuel HK [Hbad Hpos].
  - apply runs_outOfFuel. destruct Hfuel as [HT|Hlt]; [exact HT | lia].
  - cbn [parseCall_loop].
    eapply runs_bind; [apply matches_runs|].
    intros isCall p0 _ [-> ->].
    destruct (matchesToken [token.LParen] p) eqn:Hcall.
    + assert (Hne : ~ atEOF p).
      { eapply matchesToken_not_atEOF; [exact Hcall|].
        simpl. intros [H|[]]. discriminate. }
      eapply runs_bind; [apply eat_runs|].
      intros lparen p1 Hf1 (_ & He1 & Hprog1). specialize (Hprog1 Hne).
      eapply runs_bind; [apply parseArguments_runs; spend|].
      intros args p2 Hf2 Hargs.
      eapply runs_bind; [apply eat_runs|].
      intros rparen p3 Hf3 (_ & He3 & _).
      eapply runs_weaken; [apply IH|].
      * spend.
      * spend.
      * split; [|exact Hpos].
        intros Hnil. change (ast.Expression_hasBad (ast.CallExpr callee args
                               (lexer.Pos lparen) (lexer.Pos rparen)))
          with (ast.Expression_hasBad callee || ast.Expressions_hasBad args).
        frames. rewrite Hbad, Hargs; auto; congruence.
      * intros e p4 _ HQ. exact HQ.
    + eapply runs_bind; [apply matches_runs|].
      intros isDot p0 _ [-> ->].
      destruct (matchesToken [token.Period] p) eqn:Hdot.
      * assert (Hne : ~ atEOF p).
        { eapply matchesToken_not_atEOF; [exact Hdot|].
          simpl. intros [H|[]]. discriminate. }
        eapply runs_bind; [apply eat_runs|].
        intros dot p1 Hf1 (_ & He1 & Hprog1). specialize (Hprog1 Hne).
        eapply runs_bind; [apply eatOnly_runs|].
        intros name p2 Hf2 (_ & Hname & _).
        destruct (token.Type_eqb (lexer.Type_ name) token.Identifier) eqn:Hid;
          simpl.
        -- eapply runs_weaken; [apply IH|].
           ++ spend.
           ++ spend.
           ++ split; [|exact Hpos]. intros Hnil. simpl. frames. auto.
           ++ intros e p3 _ HQ. exact HQ.
        -- apply bool_decide_eq_false in Hid. specialize (Hname Hid).
           eapply runs_bind; [apply advance_runs|].
           intros to p3 Hf3 He3. simpl in He3. apply runs_ret.
           split; [|discriminate]. intros Hnil. congruence.
      * apply runs_ret. split; assumption.
Qed.

Lemma parseCall_runs (fuel : nat) (p : Parser) :
  enough T fuel p -> enough T (S K) p ->
  runs T (parseCall ParseFloat knot fuel) p (Qsub p).
Proof.
  intros Hfuel HK. unfold parseCall.
  eapply runs_bind; [apply parsePrimary_runs; exact HK|].
  intros callee p1 Hf1 [[Hbad Hprog] Hpos].
  eapply runs_weaken; [apply parseCall_loop_runs|].
  - spend.
  - spend.
  - split; assumption.
  - intros e p2 Hf2 [Hbad2 Hpos2]. frames.
    repeat split; auto. intros Hne. specialize (Hprog Hne). lia.
Qed.

Lemma parseUnary_runs (fuel : nat) :
  forall p,
    enough T fuel p -> enough T (S K) p ->
    runs T (parseUnary ParseFloat knot fuel) p (Qsub p).
Proof.
  induction fuel as [|fuel IH]; intros p Hfuel HK.
  - apply runs_outOfFuel. destruct Hfuel as [HT|Hlt]; [exact HT | lia].
  - cbn [parseUnary].
    eapply runs_bind; [apply matches_runs|].
    intros isOp p0 _ [-> ->].
    destruct (matchesToken [token.Minus; token.Plus] p) eqn:Hop.
    + assert (Hne : ~ atEOF p).
      { eapply matchesToken_not_atEOF; [exact Hop|].
        simpl. intros [H|[H|[]]]; discriminate. }
      eapply runs_bind; [apply eat_runs|].
      intros op p1 Hf1 (_ & He1 & Hprog1). specialize (Hprog1 Hne).
      eapply runs_bind; [apply IH; spend|].
      intros right p2 Hf2 [[Hbad _] _]. apply runs_ret.
      frames. repeat split; simpl; auto; [lia | discriminate].
    + apply parseCall_runs; assumption.
Qed.

(** The proof of a loop over binary operators, given what the parser of
    the operands guarantees. *)
Ltac binary_loop operand_runs :=
  let fuel := fresh "fuel" in
  let IH := fresh "IH" in
  let left := fresh "left" in
  let p := fresh "p" in
  let Hfuel := fresh "Hfuel" in
  let HK := fresh "HK" in
  let Hbad := fresh "Hbad" in
  let Hpos := fresh "Hpos" in
  let Hop := fresh "Hop" in
  let Hne := fresh "Hne" in
  let p1 := fresh "p1" in
  let p2 := fresh "p2" in
  let Hf1 := fresh "Hf1" in
  let Hf2 := fresh "Hf2" in
  let He1 := fresh "He1" in
  let Hprog1 := fresh "Hprog1" in
  let Hbadr := fresh "Hbadr" in
  let Hnil := fresh "Hnil" in
  let HQ := fresh "HQ" in
  intros fuel;
  induction fuel as [|fuel IH]; intros left p Hfuel HK [Hbad Hpos];
  [ apply runs_outOfFuel; destruct Hfuel as [Hfuel|Hfuel];
    [exact Hfuel | lia] | ];
  cbn [parseFactor_loop parseTerm_loop parseComparison_loop
         parseEquality_loop];
  eapply runs_bind; [apply matches_runs|];
  intros ? ? _ [-> ->];
  match goal with
  | |- context [matchesToken ?ts p] => destruct (matchesToken ts p) eqn:Hop
  end;
  [ assert (Hne : ~ atEOF p)
      by (eapply matchesToken_not_atEOF;
          [exact Hop | simpl; intuition discriminate]);
    eapply runs_bind; [apply eat_runs|];
    intros ? p1 Hf1 (_ & He1 & Hprog1); specialize (Hprog1 Hne);
    eapply runs_bind; [apply operand_runs; spend|];
    intros ? p2 Hf2 [[Hbadr _] _];
    eapply runs_weaken;
    [ apply IH;
      [ spend | spend
      | split; [intros Hnil; simpl; frames; rewrite Hbad, Hbadr; auto
               | exact Hpos] ]
    | intros ? ? _ HQ; exact HQ ]
  | apply runs_ret; split; assumption ].

(** The proof of a precedence level: an operand, then the loop. *)
Ltac binary_level operand_runs loop_runs :=
  let fuel := fresh "fuel" in
  let p := fresh "p" in
  let p1 := fresh "p1" in
  let p2 := fresh "p2" in
  let Hfuel := fresh "Hfuel" in
  let HK := fresh "HK" in
  let Hbad := fresh "Hbad" in
  let Hprog := fresh "Hprog" in
  let Hpos := fresh "Hpos" in
  let Hf1 := fresh "Hf1" in
  let Hf2 := fresh "Hf2" in
  let Hbad2 := fresh "Hbad2" in
  let Hpos2 := fresh "Hpos2" in
  let Hne := fresh "Hne" in
  intros fuel p Hfuel HK;
  eapply runs_bind; [apply operand_runs; assumption|];
  intros ? p1 Hf1 [[Hbad Hprog] Hpos];
  eapply runs_weaken;
  [ apply loop_runs; [spend | spend | split; assumption]
  | intros ? p2 Hf2 [Hbad2 Hpos2]; frames; repeat split; auto;
    intros Hne; specialize (Hprog Hne); lia ].

Lemma parseFactor_loop_runs :
  forall fuel left p,
    enough T fuel p -> enough T (S K) p -> Qleft left p ->
    runs T (parseFactor_loop ParseFloat knot fuel left) p Qleft.
Proof. binary_loop parseUnary_runs. Qed.

Lemma parseFactor_runs :
  forall fuel p,
    enough T fuel p -> enough T (S K) p ->
    runs T (parseFactor ParseFloat knot fuel) p (Qsub p).
Proof. binary_level parseUnary_runs parseFactor_loop_runs. Qed.

Lemma parseTerm_loop_runs :
  forall fuel left p,
    enough T fuel p -> enough T (S K) p -> Qleft left p ->
    runs T (parseTerm_loop ParseFloat knot fuel left) p Qleft.
Proof. binary_loop parseFactor_runs. Qed.

Lemma parseTerm_runs :
  forall fuel p,
    enough T fuel p -> enough T (S K) p ->
    runs T (parseTerm ParseFloat knot fuel) p (Qsub p).
Proof. binary_level parseFactor_runs parseTerm_loop_runs. Qed.

Lemma parseComparison_loop_runs :
  forall fuel left p,
    enough T fuel p -> enough T (S K) p -> Qleft left p ->
    runs T (parseComparison_loop ParseFloat knot fuel left) p Qleft.
Proof. binary_loop parseTerm_runs. Qed.

Lemma parseComparison_runs :
  forall fuel p,
    enough T fuel p -> enough T (S K) p ->
    runs T (parseComparison ParseFloat knot fuel) p (Qsub p).
Proof. binary_level parseTerm_runs parseComparison_loop_runs. Qed.

Lemma parseEquality_loop_runs :
  forall fuel left p,
    enough T fuel p -> enough T (S K) p -> Qleft left p ->
    runs T (parseEquality_loop ParseFloat knot fuel left) p Qleft.
Proof. binary_loop parseComparison_runs. Qed.

Lemma parseEquality_runs :
  forall fuel p,
    enough T fuel p -> enough T (S K) p ->
    runs T (parseEquality ParseFloat knot fuel) p (Qsub p).
Proof. binary_level parseComparison_runs parseEquality_loop_runs. Qed.

Lemma parseMatch_runs (fuel : nat) :
  forall p,
    enough T fuel p -> enough T (S K) p ->
    runs T (parseMatch ParseFloat knot fuel) p (Qexpr p).
Proof.
  induction fuel as [|fuel IH]; intros p Hfuel HK.
  - apply runs_outOfFuel. destruct Hfuel as [HT|Hlt]; [exact HT | lia].
  - cbn [parseMatch].
    eapply runs_bind; [apply parseEquality_runs; assumption|].
    intros left p1 Hf1 [[Hbad Hprog] Hpos].
    eapply runs_bind; [apply matches_runs|].
    intros isAssign p0 _ [-> ->].
    destruct (matchesToken [token.Equal] p1) eqn:Hassign.
    + assert (Hne : ~ atEOF p1).
      { eapply matchesToken_not_atEOF; [exact Hassign|].
        simpl. intuition discriminate. }
      eapply runs_bind; [apply eat_runs|].
      intros equals p2 Hf2 (_ & He2 & Hprog2). specialize (Hprog2 Hne).
      eapply runs_bind; [apply IH; spend|].
      intros right p3 Hf3 [Hbadr _].
      assert (Herr : forall pos,
                 runs T (error pos assignErr ;;; ret ast.NilExpression) p3
                   (Qexpr p)).
      { intros pos. eapply runs_bind; [apply error_runs|].
        intros _ p4 Hf4 _. apply runs_ret. frames.
        split; [reflexivity | intros; lia]. }
      destruct left; try apply Herr;
        try (unfold hasPos in Hpos;
             destruct (ast.Expression_Pos _) eqn:Hp in |- *;
             [apply Herr | rewrite Hp in Hpos; contradiction]).
      apply runs_ret. frames. split; [simpl; auto | intros; lia].
    + eapply runs_bind; [apply matches_runs|].
      intros isMatch p0 _ [-> ->].
      destruct (matchesToken [token.ColonEqual] p1) eqn:Hmatch.
      * assert (Hne : ~ atEOF p1).
        { eapply matchesToken_not_atEOF; [exact Hmatch|].
          simpl. intuition discriminate. }
        eapply runs_bind; [apply eat_runs|].
        intros equals p2 Hf2 (_ & He2 & Hprog2). specialize (Hprog2 Hne).
        eapply runs_bind; [apply parseEquality_runs; spend|].
        intros right p3 Hf3 [[Hbadr _] _]. apply runs_ret. frames.
        split; [intros Hnil; simpl; rewrite Hbad, Hbadr; auto | intros; lia].
      * apply runs_ret. split; assumption.
Qed.

End ExprRuns.

Section ExpressionRuns.

Import parser.

Variable ParseFloat : string -> float64 * option string.

(** [parseExpression] returns, or bails out, whenever its fuel exceeds the
    number of tokens left; it consumes a token unless the input is at its
    end, and its result has no bad node unless an error was recorded. *)
Lemma parseExpression_runs (T : Prop) (fuel : nat) :
  forall p,
    enough T fuel p ->
    runs T (parseExpression ParseFloat fuel) p (Qexpr p).
Proof.
  induction fuel as [|fuel IH]; intros p Hfuel.
  - apply runs_outOfFuel. destruct Hfuel as [HT|Hlt]; [exact HT | lia].
  - cbn [parseExpression].
    apply (parseMatch_runs (T := T) ParseFloat (parseExpression ParseFloat fuel)
             fuel IH (S fuel) p Hfuel Hfuel).
Qed.

End ExpressionRuns.

(** *** Statements and function declarations *)

Section FunctionRuns.

Import parser.

Context {T : Prop}.
Variable ParseFloat : string -> float64 * option string.

Lemma parseStatement_runs (fuel : nat) (tok : lexer.Token) (p : Parser) :
  enough T fuel p ->
  runs T (parseStatement ParseFloat fuel tok) p
    (fun s p' =>
       (errors p' = [] -> ast.Statement_hasBad s = false)
       /\ (~ atEOF p -> (remaining p' < remaining p)%nat)).
Proof.
  intros Hfuel. unfold parseStatement.
  assert (Hexpr : runs T (parseExpressionStatement ParseFloat fuel tok) p
            (fun s p' =>
               (errors p' = [] -> ast.Statement_hasBad s = false)
               /\ (~ atEOF p -> (remaining p' < remaining p)%nat))).
  { unfold parseExpressionStatement.
    eapply runs_bind; [apply parseExpression_runs; exact Hfuel|].
    intros e p1 Hf1 [Hbad Hprog]. apply runs_ret. split; assumption. }
  destruct (lexer.Type_ tok); try exact Hexpr.
  unfold parseReturnStatement.
  eapply runs_bind; [apply eatOnly_runs|].
  intros ret_ p1 Hf1 (_ & _ & Hprog1).
  eapply runs_bind; [apply parseExpression_runs; spend|].
  intros e p2 Hf2 [Hbad _]. apply runs_ret. frames.
  split; [exact Hbad | intros Hne; specialize (Hprog1 Hne); lia].
Qed.

Lemma parseBody_loop_runs (fuel : nat) :
  forall body p,
    enough T fuel p ->
    (errors p = [] -> existsb ast.Statement_hasBad body = false) ->
    runs T (parseBody_loop ParseFloat fuel body) p
      (fun l p' => errors p' = [] -> existsb ast.Statement_hasBad l = false).
Proof.
  induction fuel as [|fuel IH]; intros body p Hfuel Hbody.
  - apply runs_outOfFuel. destruct Hfuel as [HT|Hlt]; [exact HT | lia].
  - cbn [parseBody_loop].
    eapply runs_bind; [apply matches_runs|].
    intros atEnd p0 _ [-> ->].
    destruct (matchesToken [token.EOF] p) eqn:Heof;
      [apply runs_ret; exact Hbody|].
    apply matchesToken_EOF_false in Heof.
    eapply runs_bind; [apply eatAll_runs|].
    intros t p1 Hf1 [He1 Hmoved].
    eapply runs_bind; [apply peek_runs|].
    intros tok p0 _ [-> ->].
    destruct (token.Type_eqb (lexer.Type_ (peekToken p1)) token.RCurlyBracket).
    { apply runs_ret. intros Hnil. apply Hbody. congruence. }
    eapply runs_bind; [apply parseStatement_runs; spend|].
    intros statement p2 Hf2 [Hbad Hprog2].
    assert (Hless : ~ matchesToken
                        [token.Semicolon; token.RCurlyBracket; token.EOF] p2
                      = false ->
                    (remaining p2 < remaining p)%nat).
    { intros _. destruct Hmoved as [->|Hlt].
      - specialize (Hprog2 Heof). exact Hprog2.
      - frames. lia. }
    eapply runs_bind; [apply matches_runs|].
    intros ended p0 _ [-> ->].
    destruct (matchesToken [token.Semicolon; token.RCurlyBracket; token.EOF]
                p2) eqn:Hended.
    + eapply runs_weaken; [apply IH|].
      * assert (remaining p2 < remaining p)%nat
          by (apply Hless; discriminate).
        spend.
      * intros Hnil. rewrite existsb_app. simpl. frames.
        rewrite Hbody, Hbad; auto; congruence.
      * intros l p3 _ HQ. exact HQ.
    + assert (Hne2 : ~ atEOF p2).
      { unfold matchesToken in Hended. simpl in Hended.
        unfold atEOF. intros Heq. rewrite Heq in Hended.
        rewrite !orb_false_r in Hended.
        apply orb_false_elim in Hended as [_ Hended].
        apply orb_false_elim in Hended as [_ Hended]. discriminate. }
      eapply runs_bind; [apply eat_runs|].
      intros from p3 Hf3 (_ & _ & Hprog3). specialize (Hprog3 Hne2).
      eapply runs_bind; [apply error_runs|].
      intros u p4 Hf4 [Hne4 _].
      eapply runs_bind; [apply advance_runs|].
      intros to1 p5 Hf5 He5. simpl in He5.
      eapply runs_bind; [apply advance_runs|].
      intros to p6 Hf6 He6. simpl in He6.
      eapply runs_weaken; [apply IH|].
      * spend.
      * intros Hnil. exfalso. apply Hne4. congruence.
      * intros l p7 _ HQ. exact HQ.
Qed.

Lemma parseBody_runs (fuel : nat) (p : Parser) :
  enough T fuel p ->
  runs T (parseBody ParseFloat fuel) p
    (fun l p' => errors p' = [] -> existsb ast.Statement_hasBad l = false).
Proof.
  intros Hfuel. unfold parseBody.
  apply parseBody_loop_runs; [exact Hfuel | reflexivity].
Qed.

Lemma parseParams_loop_runs (fuel : nat) :
  forall i params p,
    enough T fuel p ->
    runs T (parseParams_loop fuel i params) p (fun _ _ => True).
Proof.
  induction fuel as [|fuel IH]; intros i params p Hfuel.
  - apply runs_outOfFuel. destruct Hfuel as [HT|Hlt]; [exact HT | lia].
  - cbn [parseParams_loop].
    eapply runs_bind; [apply matches_runs|].
    intros atEnd p0 _ [-> ->].
    destruct (matchesToken [token.EOF] p) eqn:Heof;
      [apply runs_ret; exact I|].
    apply matchesToken_EOF_false in Heof.
    eapply runs_bind; [apply matches_runs|].
    intros close p0 _ [-> ->].
    destruct (matchesToken [token.RParen] p).
    { eapply runs_bind; [apply eat_runs|]. intros. apply runs_ret. exact I. }
    eapply runs_bind
      with (Q1 := fun _ p' =>
                    if (0 <? i)%nat then (remaining p' < remaining p)%nat
                    else p' = p).
    { destruct (0 <? i)%nat eqn:Hi.
      - eapply runs_bind; [apply eatOnly_runs|].
        intros tok p1 Hf1 (_ & _ & Hprog1). specialize (Hprog1 Heof).
        destruct (negb (token.Type_eqb (lexer.Type_ tok) token.Comma)).
        + eapply runs_bind; [apply advance_runs|].
          intros to p2 Hf2 _. apply runs_ret. frames. lia.
        + apply runs_ret. exact Hprog1.
      - apply runs_ret. reflexivity. }
    intros u p1 Hf1 Hprog1.
    eapply runs_bind; [apply eatOnly_runs|].
    intros name p2 Hf2 (_ & _ & Hprog2).
    eapply runs_weaken; [apply IH|auto].
    assert (remaining p2 < remaining p)%nat.
    { destruct (0 <? i)%nat.
      - frames. lia.
      - subst p1. apply Hprog2. exact Heof. }
    spend.
Qed.

(** A declaration that is abandoned for a [BadDecl], an error having been
    recorded. *)
Lemma badDecl_runs (from : lexer.Token) (p0 p : Parser) :
  errors p <> [] -> frame p0 p ->
  (~ atEOF p0 -> (remaining p < remaining p0)%nat) ->
  runs T
    (to <- advance declStart ;;
     ret (ast.BadDecl (lexer.Pos from) (lexer.Pos to)))
    p (Qdecl p0).
Proof.
  intros Hne Hf Hprog.
  eapply runs_bind; [apply advance_runs|].
  intros to p1 Hf1 He1. simpl in He1. apply runs_ret. frames.
  split; [intros Hnil; exfalso; apply Hne; congruence|].
  intros Hn. specialize (Hprog Hn). lia.
Qed.

Lemma parseFunction_runs (fuel : nat) (p : Parser) :
  enough T fuel p ->
  runs T (parseFunction ParseFloat fuel) p (Qdecl p).
Proof.
  intros Hfuel. unfold parseFunction.
  eapply runs_bind; [apply eatOnly_runs|].
  intros funcTok p1 Hf1 (_ & Hfunc & Hprog1).
  destruct (token.Type_eqb (lexer.Type_ funcTok) token.Func) eqn:Hisfunc;
    simpl.
  2:{ apply bool_decide_eq_false in Hisfunc.
      apply badDecl_runs; auto. }
  eapply runs_bind; [apply eatOnly_runs|].
  intros name p2 Hf2 (_ & Hname & _).
  destruct (token.Type_eqb (lexer.Type_ name) token.Identifier) eqn:Hisid;
    simpl.
  2:{ apply bool_decide_eq_false in Hisid.
      apply badDecl_runs; auto.
      - eapply frame_trans; eassumption.
      - intros Hn. specialize (Hprog1 Hn). frames. lia. }
  eapply runs_bind; [apply eatOnly_runs|].
  intros lparen p3 Hf3 _.
  eapply runs_bind; [apply parseParams_loop_runs; spend|].
  intros params p4 Hf4 _.
  eapply runs_bind; [apply eatOnly_runs|].
  intros lbrace p5 Hf5 _.
  eapply runs_bind; [apply parseBody_runs; spend|].
  intros body p6 Hf6 Hbody.
  eapply runs_bind; [apply eatOnly_runs|].
  intros rbrace p7 Hf7 _. apply runs_ret. frames.
  split; [simpl; auto|].
  intros Hn. specialize (Hprog1 Hn). lia.
Qed.

End FunctionRuns.

(** *** Type declarations, imports and modules *)

Section ModuleRuns.

Import parser.

Section TypeRuns.

Variable knot : P ast.Expression.
Hypothesis knot_runs : forall p, runs True knot p Qtype.

Lemma parseTupleType_loop_runs (fuel : nat) :
  forall fields p,
    (errors p = [] -> ast.Expressions_hasBad fields = false) ->
    runs True (parseTupleType_loop knot fuel fields) p
      (fun l p' => errors p' = [] -> ast.Expressions_hasBad l = false).
Proof.
  induction fuel as [|fuel IH]; intros fields p Hfields.
  - exact I.
  - cbn [parseTupleType_loop].
    eapply runs_bind; [apply matches_runs|].
    intros close p0 _ [-> ->].
    destruct (matchesToken [token.RSquareBracket] p);
      [apply runs_ret; exact Hfields|].
    eapply runs_bind; [apply knot_runs|].
    intros typExpr p1 Hf1 Hbad.
    assert (Hall : errors p1 = [] ->
                   ast.Expressions_hasBad (fields ++ [typExpr]) = false).
    { intros Hnil. rewrite Expressions_hasBad_app. frames.
      rewrite Hfields, Hbad; auto. }
    eapply runs_bind; [apply matches_runs|].
    intros close p0 _ [-> ->].
    destruct (matchesToken [token.RSquareBracket] p1);
      [apply runs_ret; exact Hall|].
    eapply runs_bind; [apply eatOnly_runs|].
    intros comma p2 Hf2 _.
    eapply runs_weaken; [apply IH|auto].
    intros Hnil. frames. auto.
Qed.

Lemma parseType_body_runs (fuel : nat) (p : Parser) :
  runs True (parseType_body knot fuel) p Qtype.
Proof.
  unfold parseType_body.
  eapply runs_bind; [apply eat_runs|].
  intros tok p1 Hf1 _.
  assert (Hbad : runs True
            (error (lexer.Pos tok)
               (Errorf ("expected type, got "
                        ^^ token.Type_String (lexer.Type_ tok))) ;;;
             ret (ast.BadExpr (lexer.Pos tok) (lexer.Pos tok)))
            p1 Qtype).
  { eapply runs_bind; [apply error_runs|].
    intros u p2 Hf2 [Hne _]. apply runs_ret. intros Hnil. contradiction. }
  destruct (lexer.Type_ tok); try exact Hbad.
  - (* Identifier *)
    eapply runs_bind; [apply matches_runs|].
    intros isDot p0 _ [-> ->].
    destruct (matchesToken [token.Period] p1);
      [|apply runs_ret; intros _; reflexivity].
    eapply runs_bind; [apply eat_runs|].
    intros dot p2 Hf2 _.
    eapply runs_bind; [apply eatOnly_runs|].
    intros attr p3 Hf3 (_ & Hattr & _).
    destruct (token.Type_eqb (lexer.Type_ attr) token.Identifier) eqn:Hid;
      simpl; apply runs_ret.
    + intros _. reflexivity.
    + apply bool_decide_eq_false in Hid. intros Hnil.
      exfalso. apply (Hattr Hid). exact Hnil.
  - (* Tuple *)
    unfold parseTupleType.
    eapply runs_bind; [apply eatOnly_runs|].
    intros lbracket p2 Hf2 _.
    eapply runs_bind; [apply parseTupleType_loop_runs; reflexivity|].
    intros fields p3 Hf3 Hfields.
    eapply runs_bind; [apply eatOnly_runs|].
    intros rbracket p4 Hf4 _. apply runs_ret.
    intros Hnil. frames.
    change (ast.Expressions_hasBad fields = false). auto.
Qed.

End TypeRuns.

Lemma parseType_runs (fuel : nat) :
  forall p, runs True (parseType fuel) p Qtype.
Proof.
  induction fuel as [|fuel IH]; intros p; [exact I|].
  cbn [parseType]. apply parseType_body_runs. exact IH.
Qed.

Lemma badDecl_clean (from : lexer.Token) (p : Parser) :
  errors p <> [] ->
  runs True
    (to <- advance declStart ;;
     ret (ast.BadDecl (lexer.Pos from) (lexer.Pos to)))
    p Qclean.
Proof.
  intros Hne.
  eapply runs_bind; [apply advance_runs|].
  intros to p1 Hf1 He1. simpl in He1. apply runs_ret.
  intros Hnil. exfalso. apply Hne. congruence.
Qed.

Lemma parseTypeDecl_runs (fuel : nat) (p : Parser) :
  runs True (parseTypeDecl fuel) p Qclean.
Proof.
  unfold parseTypeDecl.
  eapply runs_bind; [apply eatOnly_runs|].
  intros typeTok p1 Hf1 (_ & Htype & _).
  destruct (token.Type_eqb (lexer.Type_ typeTok) token.TypeKeyword) eqn:Hty;
    simpl.
  2:{ apply bool_decide_eq_false in Hty. apply badDecl_clean; auto. }
  eapply runs_bind; [apply eatOnly_runs|].
  intros name p2 Hf2 (_ & Hname & _).
  destruct (token.Type_eqb (lexer.Type_ name) token.Identifier) eqn:Hid;
    simpl.
  2:{ apply bool_decide_eq_false in Hid. apply badDecl_clean; auto. }
  eapply runs_bind; [apply parseType_runs|].
  intros def p3 Hf3 Hdef. apply runs_ret. exact Hdef.
Qed.

Lemma parseImport_runs (p : Parser) : runs True parseImport p Qclean.
Proof.
  unfold parseImport.
  eapply runs_bind; [apply eatOnly_runs|].
  intros importTok p1 Hf1 (_ & Himport & _).
  destruct (token.Type_eqb (lexer.Type_ importTok) token.Import) eqn:Him;
    simpl.
  2:{ apply bool_decide_eq_false in Him. apply badDecl_clean; auto. }
  eapply runs_bind; [apply matches_runs|].
  intros hasAlias p0 _ [-> ->].
  eapply runs_bind with (Q1 := fun _ _ => True).
  { destruct (matchesToken [token.Identifier] p1).
    - eapply runs_bind; [apply eat_runs|]. intros. apply runs_ret. exact I.
    - apply runs_ret. exact I. }
  intros alias p2 Hf2 _.
  eapply runs_bind; [apply eatOnly_runs|].
  intros path p3 Hf3 (_ & Hpath & _).
  destruct (token.Type_eqb (lexer.Type_ path) token.String) eqn:Hstr; simpl.
  2:{ apply bool_decide_eq_false in Hstr. apply badDecl_clean; auto. }
  apply runs_ret. intros _. reflexivity.
Qed.

Lemma parseFunction_clean (ParseFloat : string -> float64 * option string)
    (fuel : nat) (p : Parser) :
  runs True (parseFunction ParseFloat fuel) p Qclean.
Proof.
  eapply runs_weaken; [apply parseFunction_runs; left; exact I|].
  intros d p1 _ [Hbad _]. exact Hbad.
Qed.

Lemma runsM_ret {A : Type} (a : A) (s : ModState)
    (Q : A -> ModState -> Prop) :
  Q a s -> runsM True (ret a) s Q.
Proof. intros HQ. unfold runsM, ret. split; [apply frame_refl | exact HQ]. Qed.

Lemma runsM_bind {A B : Type} (m : PM A) (k : A -> PM B) (s : ModState)
    (Q1 : A -> ModState -> Prop) (Q : B -> ModState -> Prop) :
  runsM True m s Q1 ->
  (forall a s1, frame (snd s) (snd s1) -> Q1 a s1 -> runsM True (k a) s1 Q) ->
  runsM True (bind m k) s Q.
Proof.
  unfold runsM, bind. intros Hm Hk.
  destruct (m s) as [[a|v|] s1]; try assumption.
  destruct Hm as [Hf HQ1]. specialize (Hk a s1 Hf HQ1).
  destruct (k a s1) as [[b|v|] s2]; try assumption.
  destruct Hk as [Hf2 HQ]. split; [eapply frame_trans; eassumption | exact HQ].
Qed.

Lemma runsM_liftP {A : Type} (m : P A) (s : ModState)
    (Q : A -> Parser -> Prop) :
  runs True m (snd s) Q ->
  runsM True (liftP m) s (fun a s' => fst s' = fst s /\ Q a (snd s')).
Proof.
  unfold runs, runsM, liftP. destruct (m (snd s)) as [[a|v|] p']; simpl; auto.
  intros [Hf HQ]. auto.
Qed.

Lemma getModule_runs (s : ModState) :
  runsM True getModule s (fun m s' => m = fst s /\ s' = s).
Proof. unfold runsM, getModule. split; [apply frame_refl | auto]. Qed.

Lemma setModule_runs (m : ast.Module) (s : ModState) :
  runsM True (setModule m) s (fun _ s' => s' = (m, snd s)).
Proof. unfold runsM, setModule. split; [apply frame_refl | auto]. Qed.

Lemma appendDecl_runs (d : ast.Decl) (s : ModState) :
  cleanSoFar s -> Qclean d (snd s) ->
  runsM True (appendDecl d) s (fun _ s' => cleanSoFar s').
Proof.
  intros Hs Hd.
  unfold runsM, appendDecl, bind, getModule, setModule. simpl.
  split; [apply frame_refl|].
  unfold cleanSoFar, ast.Module_hasBad in *. simpl. intros Hnil.
  specialize (Hs Hnil). specialize (Hd Hnil).
  apply orb_false_elim in Hs as [Himp Hdecls].
  rewrite Himp, existsb_app, Hdecls. simpl. rewrite Hd. reflexivity.
Qed.

(** A step of the parser keeps what was known of the module. *)
Lemma cleanSoFar_frame (m : ast.Module) (p p' : Parser) :
  cleanSoFar (m, p) -> frame p p' -> cleanSoFar (m, p').
Proof.
  unfold cleanSoFar. simpl. intros Hs Hf Hnil. apply Hs.
  eapply frame_errors; eassumption.
Qed.

Lemma parseImports_loop_runs (fuel : nat) :
  forall imports s,
    cleanSoFar s ->
    (errors (snd s) = [] -> existsb ast.Decl_hasBad imports = false) ->
    runsM True (parseImports_loop fuel imports) s
      (fun l s' =>
         cleanSoFar s'
         /\ (errors (snd s') = [] -> existsb ast.Decl_hasBad l = false)).
Proof.
  induction fuel as [|fuel IH]; intros imports [m p] Hs Himports; [exact I|].
  cbn [parseImports_loop].
  eapply runsM_bind; [apply runsM_liftP, matches_runs|].
  intros more [m0 p0] _ [Hm [-> Hp]]. simpl in Hm, Hp. subst m0 p0.
  destruct (matchesToken [token.Import] (snd (m, p)));
    [|apply runsM_ret; split; assumption].
  eapply runsM_bind; [apply runsM_liftP, parseImport_runs|].
  intros imp [m1 p1] Hf1 [Hm Himp]. simpl in Hm, Himp, Hf1. subst m1.
  assert (Hs1 : cleanSoFar (m, p1)) by (eapply cleanSoFar_frame; eassumption).
  eapply runsM_bind with (Q1 := fun _ s' => cleanSoFar s').
  { destruct imp; try (apply appendDecl_runs; assumption).
    apply runsM_ret. exact Hs1. }
  intros u [m2 p2] Hf2 Hs2. simpl in Hf2.
  assert (Himports2 : errors p2 = [] -> existsb ast.Decl_hasBad imports = false).
  { intros Hnil. apply Himports. simpl.
    eapply frame_errors; [exact Hf1|]. eapply frame_errors; eassumption. }
  destruct imp; try (apply IH; assumption).
  eapply runsM_bind; [apply runsM_liftP, matches_runs|].
  intros ended [m3 p3] _ [Hm [-> Hp]]. simpl in Hm, Hp. subst m3 p3.
  eapply runsM_bind with (Q1 := fun _ s' => fst s' = m2).
  { destruct (matchesToken [token.Semicolon; token.EOF] (snd (m2, p2))).
    - apply runsM_ret. reflexivity.
    - eapply runsM_bind; [apply runsM_liftP, eatOnly_runs|].
      intros t [m3 p3] _ [Hm _]. apply runsM_ret. exact Hm. }
  intros u2 [m3 p3] Hf3 Hm. simpl in Hm, Hf3. subst m3.
  eapply runsM_bind; [apply runsM_liftP, eatAll_runs|].
  intros t [m4 p4] Hf4 [Hm _]. simpl in Hm, Hf4. subst m4.
  apply IH.
  - eapply cleanSoFar_frame; [|exact Hf4].
    eapply cleanSoFar_frame; eassumption.
  - simpl. intros Hnil. rewrite existsb_app. simpl.
    assert (Hnil2 : errors p2 = []).
    { eapply frame_errors; [exact Hf3|].
      eapply frame_errors; eassumption. }
    rewrite Himports2 by exact Hnil2.
    unfold Qclean in Himp. simpl in Himp. rewrite Himp; [reflexivity|].
    eapply frame_errors; eassumption.
Qed.

Lemma parseModuleHeader_runs (fuel : nat) (s : ModState) :
  cleanSoFar s ->
  runsM True (parseModuleHeader fuel) s (fun _ s' => cleanSoFar s').
Proof.
  destruct s as [m p]. intros Hs. unfold parseModuleHeader.
  eapply runsM_bind; [apply runsM_liftP, eatOnly_runs|].
  intros tok [m1 p1] Hf1 [Hm _]. simpl in Hm, Hf1. subst m1.
  assert (Hs1 : cleanSoFar (m, p1)) by (eapply cleanSoFar_frame; eassumption).
  destruct (negb (token.Type_eqb (lexer.Type_ tok) token.Module)).
  { eapply runsM_bind; [apply runsM_liftP, advance_runs|].
    intros to [m2 p2] Hf2 [Hm _]. simpl in Hm, Hf2. subst m2.
    apply runsM_ret. eapply cleanSoFar_frame; eassumption. }
  eapply runsM_bind; [apply runsM_liftP, eatOnly_runs|].
  intros name [m2 p2] Hf2 [Hm _]. simpl in Hm, Hf2. subst m2.
  assert (Hs2 : cleanSoFar (m, p2)) by (eapply cleanSoFar_frame; eassumption).
  destruct (negb (token.Type_eqb (lexer.Type_ name) token.Identifier)).
  { eapply runsM_bind; [apply runsM_liftP, advance_runs|].
    intros to [m3 p3] Hf3 [Hm _]. simpl in Hm, Hf3. subst m3.
    apply runsM_ret. eapply cleanSoFar_frame; eassumption. }
  eapply runsM_bind; [apply getModule_runs|].
  intros m' s3 _ [-> ->]. simpl.
  eapply runsM_bind; [apply setModule_runs|].
  intros u s4 _ ->. simpl.
  set (m1 := ast.mkModule (Some (ast.NewIdent name)) (ast.Imports m)
               (ast.Decls m)).
  assert (Hs4 : cleanSoFar (m1, p2)) by exact Hs2.
  eapply runsM_bind; [apply runsM_liftP, matches_runs|].
  intros ended [m5 p5] _ [Hm [-> Hp]]. simpl in Hm, Hp. subst m5 p5.
  eapply runsM_bind with (Q1 := fun _ s' => fst s' = m1).
  { destruct (matchesToken [token.Semicolon; token.EOF] (snd (m1, p2))).
    - apply runsM_ret. reflexivity.
    - eapply runsM_bind; [apply runsM_liftP, eatOnly_runs|].
      intros t [m6 p6] _ [Hm _]. apply runsM_ret. exact Hm. }
  intros u2 [m6 p6] Hf6 Hm. simpl in Hm, Hf6. subst m6.
  eapply runsM_bind; [apply runsM_liftP, eatAll_runs|].
  intros t [m7 p7] Hf7 [Hm _]. simpl in Hm, Hf7. subst m7.
  eapply runsM_bind.
  { apply parseImports_loop_runs with (imports := []).
    - eapply cleanSoFar_frame; [|exact Hf7].
      eapply cleanSoFar_frame; eassumption.
    - reflexivity. }
  intros imports [m8 p8] Hf8 [Hs8 Himports]. simpl in Hf8, Himports.
  eapply runsM_bind; [apply getModule_runs|].
  intros m' s9 _ [-> ->]. simpl.
  eapply runsM_bind; [apply setModule_runs|].
  intros u3 s10 _ ->. simpl. apply runsM_ret.
  unfold cleanSoFar, ast.Module_hasBad in *. simpl in *. intros Hnil.
  specialize (Hs8 Hnil). apply orb_false_elim in Hs8 as [_ Hdecls].
  rewrite Himports, Hdecls; auto.
Qed.

Section EntryRuns.

Variable ParseFloat : string -> float64 * option string.

Lemma parseDecls_loop_runs (fuel : nat) :
  forall s,
    cleanSoFar s ->
    runsM True (parseDecls_loop ParseFloat fuel) s
      (fun _ s' => cleanSoFar s').
Proof.
  induction fuel as [|fuel IH]; intros [m p] Hs; [exact I|].
  cbn [parseDecls_loop].
  eapply runsM_bind; [apply runsM_liftP, matches_runs|].
  intros atEnd [m0 p0] _ [Hm [-> Hp]]. simpl in Hm, Hp. subst m0 p0.
  destruct (matchesToken [token.EOF] (snd (m, p)));
    [apply runsM_ret; exact Hs|].
  eapply runsM_bind; [apply runsM_liftP, peek_runs|].
  intros tok [m0 p0] _ [Hm [-> Hp]]. simpl in Hm, Hp. subst m0 p0.
  eapply runsM_bind.
  { apply runsM_liftP with (Q := Qclean).
    simpl.
    destruct (lexer.Type_ (peekToken p)) eqn:Htype;
      try apply parseTypeDecl_runs; try apply parseFunction_clean;
      (eapply runs_bind; [apply eatOnly_runs|];
       intros from p1 Hf1 (Hfrom & Herr & _);
       apply badDecl_clean; apply Herr; rewrite Hfrom, Htype;
       discriminate). }
  intros decl [m1 p1] Hf1 [Hm Hdecl]. simpl in Hm, Hf1, Hdecl. subst m1.
  eapply runsM_bind.
  { apply appendDecl_runs; [|exact Hdecl].
    eapply cleanSoFar_frame; eassumption. }
  intros u s2 _ Hs2. apply IH. exact Hs2.
Qed.

Lemma parseModule_runs (fuel : nat) (s : ModState) :
  cleanSoFar s ->
  runsM True (parseModule ParseFloat fuel) s (fun _ s' => cleanSoFar s').
Proof.
  intros Hs. unfold parseModule.
  eapply runsM_bind; [apply parseModuleHeader_runs; exact Hs|].
  intros err s1 _ Hs1.
  destruct err; [apply runsM_ret; exact Hs1|].
  eapply runsM_bind; [apply parseDecls_loop_runs; exact Hs1|].
  intros u s2 _ Hs2. apply runsM_ret. exact Hs2.
Qed.

End EntryRuns.

End ModuleRuns.

(** ** Errors and bad nodes *)

Section Consistency.

Import parser.

Variable ParseFloat : string -> float64 * option string.

(** [parseFunction] from a fresh parser, with more fuel than tokens. *)
Lemma parseFunction_fresh (fuel : nat) (file : token.File)
    (toks : list lexer.Token) :
  (length toks < fuel)%nat ->
  match parseFunction ParseFloat fuel (mkParser toks file O []) with
  | (Return d, p') => errors p' = [] -> ast.Decl_hasBad d = false
  | (Panicked v, p') => v = ErrBailout /\ errors p' <> []
  | (OutOfFuel, _) => False
  end.
Proof.
  intros Hlen.
  pose proof (parseFunction_runs (T := False) ParseFloat fuel
                (mkParser toks file O [])) as H.
  unfold runs in H.
  destruct (parseFunction ParseFloat fuel (mkParser toks file O []))
    as [[d|v|] p'].
  - destruct H as [_ [Hbad _]]; [|exact Hbad].
    right. unfold remaining. simpl. lia.
  - apply H. right. unfold remaining. simpl. lia.
  - apply H. right. unfold remaining. simpl. lia.
Qed.

Lemma errorOrNil_None (errs : token.ErrorList) :
  errorOrNil errs = None <-> errs = [].
Proof. destruct errs; simpl; split; intros H; congruence. Qed.

(** C4, as amended. A parse that returns no error returns a tree without
    bad nodes. For a function: with more fuel than tokens, [parseFunction]
    from a fresh parser returns a declaration, free of bad nodes if no error
    was recorded, or bails out with some error recorded; the entry point
    always returns, and what it returns with a [nil] error has no bad node.
    For a module: a module returned with a [nil] error has no bad node. *)
Theorem no_errors_no_bad_nodes (fuel : nat) (file : token.File)
    (toks : list lexer.Token) :
  ((length toks < fuel)%nat ->
   match parseFunction ParseFloat fuel (mkParser toks file O []) with
   | (Return d, p') => errors p' = [] -> ast.Decl_hasBad d = false
   | (Panicked v, p') => v = ErrBailout /\ errors p' <> []
   | (OutOfFuel, _) => False
   end)
  /\ ((length toks < fuel)%nat ->
      exists d err,
        Function_ ParseFloat fuel file toks = Return (d, err)
        /\ (err = None -> ast.Decl_hasBad d = false))
  /\ (forall m,
         Module_ ParseFloat fuel file toks = Return (m, None) ->
         ast.Module_hasBad m = false).
Proof.
  split; [apply parseFunction_fresh|]. split.
  - intros Hlen. pose proof (parseFunction_fresh fuel file toks Hlen) as H.
    unfold Function_.
    destruct (parseFunction ParseFloat fuel (mkParser toks file O []))
      as [[d|v|] p'].
    + simpl. eexists _, _. split; [reflexivity|].
      intros Hnone. apply H. apply errorOrNil_None. exact Hnone.
    + destruct H as [-> Hne]. simpl. eexists _, _. split; [reflexivity|].
      intros _. reflexivity.
    + contradiction.
  - intros m Hret. unfold Module_ in Hret.
    pose proof (parseModule_runs ParseFloat fuel
                  (ast.mkModule None [] [], mkParser toks file O [])) as H.
    unfold runsM in H.
    destruct (parseModule ParseFloat fuel
                (ast.mkModule None [] [], mkParser toks file O []))
      as [[e|v|] [m' p']].
    + destruct H as [_ Hclean]; [intros _; reflexivity|].
      simpl in Hret. injection Hret as <- Hnone.
      apply Hclean. simpl. apply errorOrNil_None. exact Hnone.
    + destruct H as [-> Hne]; [intros _; reflexivity|].
      simpl in Hret. injection Hret as <- Hnone.
      apply errorOrNil_None in Hnone. contradiction.
    + discriminate.
Qed.

End Consistency.

(** [module m; func f() { return 1 }] parses without error, and without a
    bad node. *)
Lemma no_errors_no_bad_nodes_witness :
  exists m,
    parser.Module_ sample.noFloat 12 sample.file sample.smallModule
    = Return (m, None)
    /\ ast.Module_hasBad m = false.
Proof.
  eexists. split; [vm_compute; reflexivity|].
  refine (proj2 (proj2 (no_errors_no_bad_nodes sample.noFloat 12 sample.file
                          sample.smallModule)) _ _).
  vm_compute. reflexivity.
Defined.

(** C4, as stated, fails on [func foo() {] and on [module abc; func foo() {]:
    the missing brace is recorded as an error, the header of the module is
    accepted, and the tree has no bad node. *)
Lemma errors_without_bad_node :
  (let r := parser.parseFunction sample.noFloat 10
              (sample.start sample.unterminated) in
   let foo :=
     ast.FuncDecl_
       (ast.mkFuncDecl (ast.mkIdentifier 5 "foo") 0 [] [] 11 0) in
   fst r = Return foo
   /\ map token.Msg (parser.errors (snd r))
      = ["expected '}' to end function body, got EOF"]
   /\ ast.Decl_hasBad foo = false)
  /\ (let foo :=
        ast.FuncDecl_
          (ast.mkFuncDecl (ast.mkIdentifier 17 "foo") 12 [] [] 23 0) in
      let m := ast.mkModule (Some (ast.mkIdentifier 7 "abc")) [] [foo] in
      parser.Module_ sample.noFloat 10 sample.file sample.unterminatedModule
      = Return
          (m,
           Some
             (ErrorListError
                [token.mkError (token.mkPosition "sample" 0 1 0)
                   "expected '}' to end function body, got EOF"]))
      /\ ast.Module_hasBad m = false).
Proof.
  split; [repeat split; vm_compute; reflexivity|].
  split; vm_compute; reflexivity.
Qed.

(** ** Assignments, argument lists and calls *)

Section ExpressionFacts.

Import parser.

Variable ParseFloat : string -> float64 * option string.

Lemma eat_spec (p : Parser) :
  exists p',
    eat p = (Return (peekToken p), p')
    /\ errors p' = errors p
    /\ (~ atEOF p -> (remaining p' < remaining p)%nat).
Proof.
  pose proof (eat_runs (T := True) p) as H. unfold runs in H.
  unfold eat in *. simpl in H. destruct H as [_ (Htok & He & Hprog)].
  eexists. rewrite Htok at 1. split; [reflexivity|]. split; assumption.
Qed.

(** When the collector takes the error, [error] records it and returns. *)
Lemma error_recorded (p : Parser) (pos : token.Pos) (err : GoError) :
  newLine p pos -> (length (errors p) <= maxErrors)%nat ->
  error pos err p = (Return tt, recorded p pos err).
Proof.
  intros Hnew Hfew. rewrite error_newLine by assumption.
  destruct (Nat.ltb_spec maxErrors (length (errors p))); [lia | reflexivity].
Qed.

(** An error on the line of the last one recorded is discarded. *)
Lemma error_sameLine (p : Parser) (pos : token.Pos) (err : GoError) :
  sameLine p pos -> error pos err p = (Return tt, p).
Proof.
  intros (e & Hlast & Hline). unfold error. rewrite Hlast, Hline.
  rewrite Z.eqb_refl. reflexivity.
Qed.

(** With more than [maxErrors] recorded, an error on a new line is not
    recorded: the parser bails out. *)
Lemma error_bailout (p : Parser) (pos : token.Pos) (err : GoError) :
  newLine p pos -> (maxErrors < length (errors p))%nat ->
  error pos err p = (Panicked ErrBailout, p).
Proof.
  intros Hnew Hmany. rewrite error_newLine by assumption.
  destruct (Nat.ltb_spec maxErrors (length (errors p))); [reflexivity | lia].
Qed.

(** The error is on a new line or on the line of the last one. *)
Lemma newLine_or_sameLine (p : Parser) (pos : token.Pos) :
  newLine p pos \/ sameLine p pos.
Proof.
  unfold newLine, sameLine.
  destruct (last (errors p)) as [e|]; [|left; intros e [=]].
  destruct (Z.eq_dec (token.Line (token.ErrPos e))
              (token.Line (token.Position_ (file p) pos))) as [Heq|Hne].
  - right. eauto.
  - left. intros e' [= <-]. exact Hne.
Qed.

(** C5, as amended. After [left = ...] the right operand is parsed by
    [parseMatch] itself, so a chain of [=] nests to the right, one
    [AssignExpr] within the other; only the right operand of [:=] is parsed
    as an equality. *)
Theorem parseMatch_assign_nests (knot : P ast.Expression) (fuel : nat)
    (p p1 p2 : Parser) (left : ast.Expression) (equals : lexer.Token) :
  parseEquality ParseFloat knot (S fuel) p = (Return left, p1) ->
  eat p1 = (Return equals, p2) ->
  (forall leftId,
      matchesToken [token.Equal] p1 = true ->
      left = ast.Ident leftId ->
      parseMatch ParseFloat knot (S fuel) p
      = (right <- parseMatch ParseFloat knot fuel ;;
         ret (ast.AssignExpr leftId (lexer.Pos equals) right)) p2)
  /\ (matchesToken [token.Equal] p1 = false ->
      matchesToken [token.ColonEqual] p1 = true ->
      parseMatch ParseFloat knot (S fuel) p
      = (right <- parseEquality ParseFloat knot (S fuel) ;;
         ret (ast.MatchAssignExpr left (lexer.Pos equals) right)) p2).
Proof.
  intros Hleft Heat. split.
  - intros leftId Hassign ->.
    cbn [parseMatch]. unfold bind at 1. rewrite Hleft.
    unfold bind at 1, matches at 1. rewrite Hassign.
    unfold bind at 1. rewrite Heat.
    unfold bind. destruct (parseMatch ParseFloat knot fuel p2) as [[r|v|] p3];
      reflexivity.
  - intros Hassign Hmatch.
    cbn [parseMatch]. unfold bind at 1. rewrite Hleft.
    unfold bind at 1, matches at 1. rewrite Hassign.
    unfold bind at 1, matches at 1. rewrite Hmatch.
    unfold bind at 1. rewrite Heat. reflexivity.
Qed.

(** The left operand that [parseEquality] returns has a start position. *)
Lemma parseEquality_hasPos (n fuel : nat) (p p1 : Parser)
    (left : ast.Expression) :
  parseEquality ParseFloat (parseExpression ParseFloat n) fuel p
  = (Return left, p1) ->
  hasPos left.
Proof.
  intros Hleft.
  pose proof (parseEquality_runs (T := True) ParseFloat
                (parseExpression ParseFloat n) n
                (fun q _ => parseExpression_runs ParseFloat True n q
                              (or_introl I))
                fuel p (or_introl I) (or_introl I)) as H.
  unfold runs in H. rewrite Hleft in H. destruct H as [_ [_ Hpos]].
  exact Hpos.
Qed.

(** C7, as amended. When the operand to the left of [=] is not an
    identifier, [parseMatch], having parsed the right operand, passes the
    error "left hand side of assignment must be an identifier" to the
    collector and has [nil] for its result, if it returns. The error is for
    the position of the left operand, which is never [nil]: the position of
    the operator is not used. What becomes of the error is the collector's
    doing: on a new line, with no more than ten errors recorded, the error
    list grows by that one error; on the line of the last error recorded
    nothing is recorded, and the result is [nil] all the same; on a new line
    with more than ten errors recorded the parser bails out. *)
Theorem parseMatch_assign_needs_identifier (n fuel : nat)
    (p p1 p2 p3 : Parser) (left right : ast.Expression)
    (equals : lexer.Token) :
  let knot := parseExpression ParseFloat n in
  parseEquality ParseFloat knot (S fuel) p = (Return left, p1) ->
  matchesToken [token.Equal] p1 = true ->
  eat p1 = (Return equals, p2) ->
  parseMatch ParseFloat knot fuel p2 = (Return right, p3) ->
  (forall leftId, left <> ast.Ident leftId) ->
  exists pos,
    left <> ast.NilExpression
    /\ ast.Expression_Pos left = Some pos
    /\ assignErrPos equals left = Some pos
    /\ parseMatch ParseFloat knot (S fuel) p
       = (error pos assignErr ;;; ret ast.NilExpression) p3
    /\ (newLine p3 pos -> (length (errors p3) <= 10)%nat ->
        parseMatch ParseFloat knot (S fuel) p
        = (Return ast.NilExpression, recorded p3 pos assignErr))
    /\ (sameLine p3 pos ->
        parseMatch ParseFloat knot (S fuel) p = (Return ast.NilExpression, p3))
    /\ (newLine p3 pos -> (10 < length (errors p3))%nat ->
        parseMatch ParseFloat knot (S fuel) p = (Panicked ErrBailout, p3))
    /\ (newLine p3 pos \/ sameLine p3 pos).
Proof.
  intros knot Hleft Hassign Heat Hright Hnotid.
  pose proof (parseEquality_hasPos n (S fuel) p p1 left Hleft)
    as Hpos.
  unfold hasPos in Hpos.
  destruct (ast.Expression_Pos left) as [pos|] eqn:Hp; [|contradiction].
  exists pos.
  assert (Hnil : left <> ast.NilExpression).
  { intros ->. discriminate. }
  assert (Herrpos : assignErrPos equals left = Some pos).
  { destruct left; try exact Hp. discriminate. }
  assert (Hrun : parseMatch ParseFloat knot (S fuel) p
                 = (error pos assignErr ;;; ret ast.NilExpression) p3).
  { cbn [parseMatch]. unfold bind at 1. fold knot. rewrite Hleft.
    unfold bind at 1, matches at 1. rewrite Hassign.
    unfold bind at 1. rewrite Heat.
    unfold bind at 1. rewrite Hright.
    destruct left; try (rewrite Hp; reflexivity).
    - discriminate.
    - exfalso. eapply Hnotid. reflexivity. }
  split; [exact Hnil|]. split; [reflexivity|]. split; [exact Herrpos|].
  split; [exact Hrun|]. split; [|split; [|split]].
  - intros Hnew Hfew. rewrite Hrun. unfold bind.
    rewrite error_recorded by assumption. reflexivity.
  - intros Hsame. rewrite Hrun. unfold bind.
    rewrite error_sameLine by assumption. reflexivity.
  - intros Hnew Hmany. rewrite Hrun. unfold bind.
    rewrite error_bailout by assumption. reflexivity.
  - apply newLine_or_sameLine.
Qed.

(** C6, as amended. With 255 arguments parsed and a comma ahead, the loop of
    [parseArguments] consumes the comma, passes the error "cannot have more
    than 255 arguments" to the collector at the position of the comma, and
    returns the 255 arguments without parsing another, if it returns. What
    becomes of the error is the collector's doing: on a new line, with no
    more than ten errors recorded, the error list grows by exactly that one
    error; on the line of the last error recorded nothing is recorded, and
    the 255 arguments are returned all the same; on a new line with more
    than ten errors recorded the parser bails out, and no list is
    returned. *)
Theorem parseArguments_limit (knot : P ast.Expression) (fuel : nat)
    (args : list ast.Expression) (p : Parser) :
  length args = 255%nat ->
  matchesToken [token.Comma] p = true ->
  let comma := peekToken p in
  let tooMany := Errorf "cannot have more than 255 arguments" in
  exists p1,
    eat p = (Return comma, p1)
    /\ errors p1 = errors p
    /\ parseArguments_loop knot (S fuel) args p
       = (error (lexer.Pos comma) tooMany ;;; ret args) p1
    /\ (newLine p1 (lexer.Pos comma) -> (length (errors p1) <= 10)%nat ->
        parseArguments_loop knot (S fuel) args p
        = (Return args, recorded p1 (lexer.Pos comma) tooMany)
        /\ length (errors (recorded p1 (lexer.Pos comma) tooMany))
           = S (length (errors p)))
    /\ (sameLine p1 (lexer.Pos comma) ->
        parseArguments_loop knot (S fuel) args p = (Return args, p1))
    /\ (newLine p1 (lexer.Pos comma) -> (10 < length (errors p1))%nat ->
        parseArguments_loop knot (S fuel) args p = (Panicked ErrBailout, p1))
    /\ (newLine p1 (lexer.Pos comma) \/ sameLine p1 (lexer.Pos comma)).
Proof.
  intros Hlen Hcomma comma tooMany.
  destruct (eat_spec p) as (p1 & Heat & He1 & _).
  exists p1. split; [exact Heat|]. split; [exact He1|].
  assert (Hrun : parseArguments_loop knot (S fuel) args p
                 = (error (lexer.Pos comma) tooMany ;;; ret args) p1).
  { cbn [parseArguments_loop]. unfold bind at 1, matches at 1.
    rewrite Hcomma. unfold bind at 1. rewrite Heat. rewrite Hlen.
    reflexivity. }
  split; [exact Hrun|]. split; [|split; [|split]].
  - intros Hnew Hfew. split.
    + rewrite Hrun. unfold bind. rewrite error_recorded by assumption.
      reflexivity.
    + unfold recorded. simpl. rewrite length_app, He1. simpl. lia.
  - intros Hsame. rewrite Hrun. unfold bind.
    rewrite error_sameLine by assumption. reflexivity.
  - intros Hnew Hmany. rewrite Hrun. unfold bind.
    rewrite error_bailout by assumption. reflexivity.
  - apply newLine_or_sameLine.
Qed.


End ExpressionFacts.

(** C5, as stated, fails on [a = b = c]: it parses as [a = (b = c)], an
    [AssignExpr] within an [AssignExpr]. *)
Lemma chained_assignment_nests :
  fst (parser.parseExpression sample.noFloat 10 (sample.start sample.chain))
  = Return
      (ast.AssignExpr (ast.mkIdentifier 0 "a") 2
         (ast.AssignExpr (ast.mkIdentifier 4 "b") 6
            (ast.Ident (ast.mkIdentifier 8 "c")))).
Proof. vm_compute. reflexivity. Qed.

(** In [a = b = c], what follows the first [=] is parsed by [parseMatch]. *)
Lemma parseMatch_assign_nests_witness :
  let knot := parser.parseExpression sample.noFloat 9 in
  parser.parseMatch sample.noFloat knot 10 (sample.start sample.chain)
  = parser.bind (parser.parseMatch sample.noFloat knot 9)
      (fun right =>
         parser.ret (ast.AssignExpr (ast.mkIdentifier 0 "a") 2 right))
      (sample.at_ sample.chain 2).
Proof.
  intros knot.
  refine (proj1 (parseMatch_assign_nests sample.noFloat knot 9
                   (sample.start sample.chain) (sample.at_ sample.chain 1)
                   (sample.at_ sample.chain 2)
                   (ast.Ident (ast.mkIdentifier 0 "a"))
                   (sample.tok token.Equal 2 "=") _ _)
            (ast.mkIdentifier 0 "a") _ eq_refl);
    vm_compute; reflexivity.
Defined.

(** [1 = 2]: the error is recorded at the [1], and the result is [nil]. *)
Lemma parseMatch_assign_needs_identifier_witness :
  let knot := parser.parseExpression sample.noFloat 9 in
  parser.parseMatch sample.noFloat knot 10
    (sample.start sample.assignToLiteral)
  = (Return ast.NilExpression,
     parser.mkParser sample.assignToLiteral sample.file 3
       [token.mkError (token.mkPosition "sample" 0 1 0)
          "left hand side of assignment must be an identifier"]).
Proof.
  intros knot.
  destruct (parseMatch_assign_needs_identifier sample.noFloat 9 9
              (sample.start sample.assignToLiteral)
              (sample.at_ sample.assignToLiteral 1)
              (sample.at_ sample.assignToLiteral 2)
              (sample.at_ sample.assignToLiteral 3)
              (ast.IntLiteral 0 "1" 1) (ast.IntLiteral 4 "2" 2)
              (sample.tok token.Equal 2 "="))
    as (pos & _ & Hpos & _ & _ & Hrec & _).
  - vm_compute. reflexivity.
  - vm_compute. reflexivity.
  - vm_compute. reflexivity.
  - vm_compute. reflexivity.
  - intros leftId. discriminate.
  - injection Hpos as <-. fold knot in Hrec. rewrite Hrec.
    + vm_compute. reflexivity.
    + intros e He. vm_compute in He. discriminate.
    + vm_compute. lia.
Defined.

(** In [f(1, ..., 1)] with 256 arguments, the comma after the 255th. *)
Lemma parseArguments_limit_witness :
  let knot := parser.parseExpression sample.noFloat 9 in
  parser.parseArguments_loop knot 1 sample.args255
    (sample.at_ (sample.callWith 255) 511)
  = (Return sample.args255,
     parser.mkParser (sample.callWith 255) sample.file 512
       [token.mkError (token.mkPosition "sample" 511 6 11)
          "cannot have more than 255 arguments"])
  /\ length sample.args255 = 255%nat.
Proof.
  intros knot.
  destruct (parseArguments_limit knot 0 sample.args255
              (sample.at_ (sample.callWith 255) 511))
    as (p1 & Heat & _ & _ & Hrec & _).
  - vm_compute. reflexivity.
  - vm_compute. reflexivity.
  - assert (Hp1 : p1 = sample.at_ (sample.callWith 255) 512).
    { vm_compute in Heat. injection Heat as <-. vm_compute. reflexivity. }
    subst p1. destruct Hrec as [Hrec _].
    + intros e He. vm_compute in He. discriminate.
    + vm_compute. lia.
    + split; [|vm_compute; reflexivity].
      rewrite Hrec. vm_compute. reflexivity.
Defined.


(** [f(1, ..., 1)] with 256 arguments: the call keeps 255 of them, one error
    is recorded, at the comma, and the 256th argument is taken for the
    closing parenthesis. *)
Example call_with_256_arguments :
  let r := parser.parseExpression sample.noFloat 600
             (sample.start (sample.callWith 255)) in
  fst r
  = Return
      (ast.CallExpr (ast.Ident (ast.mkIdentifier 0 "f")) sample.args255 1 512)
  /\ parser.errors (snd r)
     = [token.mkError (token.mkPosition "sample" 511 6 11)
          "cannot have more than 255 arguments"].
Proof. split; vm_compute; reflexivity. Qed.

(** C6, as stated, fails on [f(1, ..., }, 1, 1)], where the 254th of 256
    arguments is a [}] on the line of the comma after the 255th: with the
    255 arguments parsed and that comma ahead, the loop returns the 255
    arguments and records nothing, the collector discarding an error on the
    line of the last one recorded; the call keeps 255 arguments and the one
    error of the parse is the one of the [}]. *)
Lemma call_with_256_arguments_after_error :
  let bad := token.mkError (token.mkPosition "sample" 508 6 8)
               "expected expression, got RCurlyBracket" in
  let p := parser.mkParser sample.callWithBadArg sample.file 511 [bad] in
  let r := parser.parseExpression sample.noFloat 600
             (sample.start sample.callWithBadArg) in
  length sample.args255Bad = 255%nat
  /\ parser.matchesToken [token.Comma] p = true
  /\ parser.parseArguments_loop (parser.parseExpression sample.noFloat 9) 1
       sample.args255Bad p
     = (Return sample.args255Bad, parser.set_pos p 512)
  /\ fst r
     = Return
         (ast.CallExpr (ast.Ident (ast.mkIdentifier 0 "f")) sample.args255Bad
            1 512)
  /\ parser.errors (snd r) = [bad].
Proof. repeat split; vm_compute; reflexivity. Qed.

(** C7, as stated, fails on [1 = )]: the left operand is not an identifier
    and the result is [nil], but the error of the assignment is not
    recorded, the one error of the parse being the one of the right operand,
    on the line of the left operand. *)
Lemma assignment_after_error :
  let r := parser.parseExpression sample.noFloat 10
             (sample.start sample.assignToParen) in
  fst r = Return ast.NilExpression
  /\ parser.errors (snd r)
     = [token.mkError (token.mkPosition "sample" 4 1 4)
          "expected expression, got RParen"].
Proof. split; vm_compute; reflexivity. Qed.

(** ** The functions every module is given *)

Section BaseFuncFacts.

Import compile.

Variable ParseFloat : string -> float64 * option string.
Variable NewFile : string -> string -> token.File.
Variable IsPublic : ast.FuncDecl -> bool.

(** The source handed to the parser is the template with the name of the
    module in the place of both occurrences of [{{mod}}]. *)
Lemma commonModFuncs_eq (name : string) :
  commonModFuncs name
  = LF ^^ "module common" ^^ LF ^^ LF
    ^^ "func module_info() {" ^^ LF
    ^^ TAB ^^ "return erlang.module_info('" ^^ name ^^ "')" ^^ LF
    ^^ "}" ^^ LF ^^ LF
    ^^ "func module_info(Value) {" ^^ LF
    ^^ TAB ^^ "return erlang.module_info('" ^^ name ^^ "', Value)" ^^ LF
    ^^ "}" ^^ LF.
Proof. vm_compute. reflexivity. Qed.

(** The tokens of the template parse, without error, to the two
    declarations, whether or not the tokenizer ends them with end-of-input
    tokens. *)
Lemma parse_commonModTokens (file : token.File) (pos : nat -> token.Pos)
    (name : string) (eof : list lexer.Token) :
  Forall (fun t => lexer.Type_ t = token.EOF) eof ->
  parser.Module_ ParseFloat (S (length (commonModTokens pos name ++ eof))) file
    (commonModTokens pos name ++ eof)
  = Return
      (ast.mkModule (Some (ast.mkIdentifier (pos 1%nat) "common")) []
         [ast.FuncDecl_ (module_info_0 pos name);
          ast.FuncDecl_ (module_info_1 pos name)],
       None).
Proof.
  intros Heof. destruct eof as [|[ty ps lit] rest].
  - vm_compute. reflexivity.
  - inversion Heof as [|? ? Hty _]; subst. simpl in Hty. subst ty.
    vm_compute. reflexivity.
Qed.

(** C8. The source that [addBaseFuncs] hands to the module parser is the
    template with the name of the module in the place of both occurrences of
    [{{mod}}]. When the tokens of that text are those of the template, the
    parse returns two declarations and no error, [module_info] without
    parameter and [module_info] with one, and [CompileModule] compiles the
    module it is given with these two put before its own declarations; both
    lower to a call of [erlang:module_info] on the atom of the module's
    name. Whatever the tokenizer, an error returned by the parse of the
    template is raised as a panic, not returned. *)
Theorem CompileModule_prepends_module_info
    (Lex : string -> list lexer.Token) (mod_ : ast.Module)
    (id : ast.Identifier) (pos : nat -> token.Pos)
    (eof : list lexer.Token) :
  let name := ast.Name id in
  let src :=
    LF ^^ "module common" ^^ LF ^^ LF
    ^^ "func module_info() {" ^^ LF
    ^^ TAB ^^ "return erlang.module_info('" ^^ name ^^ "')" ^^ LF
    ^^ "}" ^^ LF ^^ LF
    ^^ "func module_info(Value) {" ^^ LF
    ^^ TAB ^^ "return erlang.module_info('" ^^ name ^^ "', Value)" ^^ LF
    ^^ "}" ^^ LF in
  ast.Id mod_ = Some id ->
  Lex src = commonModTokens pos name ++ eof ->
  Forall (fun t => lexer.Type_ t = token.EOF) eof ->
  let commonMod :=
    ast.mkModule (Some (ast.mkIdentifier (pos 1%nat) "common")) []
      [ast.FuncDecl_ (module_info_0 pos name);
       ast.FuncDecl_ (module_info_1 pos name)] in
  let withBase :=
    ast.mkModule (ast.Id mod_) (ast.Imports mod_)
      (ast.Decls commonMod ++ ast.Decls mod_) in
  let call args :=
    Some (core.InterModuleCall (core.Atom "erlang") (core.Atom "module_info")
            args) in
  commonModFuncs name = src
  /\ parse_Module ParseFloat Lex NewFile "<builtin>" (commonModFuncs name)
     = Return (commonMod, None)
  /\ addBaseFuncs ParseFloat Lex NewFile mod_ = Return withBase
  /\ CompileModule ParseFloat Lex NewFile IsPublic mod_
     = compileModule IsPublic withBase
  /\ (exists coreFn,
         compileFunction (module_info_0 pos name) = Return (coreFn, None)
         /\ core.FName coreFn = core.mkFuncName "module_info" 0
         /\ core.Body coreFn = call [core.Atom name])
  /\ (exists coreFn,
         compileFunction (module_info_1 pos name) = Return (coreFn, None)
         /\ core.FName coreFn = core.mkFuncName "module_info" 1
         /\ core.Body coreFn = call [core.Atom name; core.Var "Value"])
  /\ (forall Lex' commonMod' err,
         parse_Module ParseFloat Lex' NewFile "<builtin>" (commonModFuncs name)
         = Return (commonMod', Some err) ->
         addBaseFuncs ParseFloat Lex' NewFile mod_ = Panicked err
         /\ CompileModule ParseFloat Lex' NewFile IsPublic mod_
            = Panicked err).
Proof.
  intros name src Hid Hlex Heof commonMod withBase call.
  assert (Hsrc : commonModFuncs name = src) by apply commonModFuncs_eq.
  assert (Hparse : parse_Module ParseFloat Lex NewFile "<builtin>"
                     (commonModFuncs name)
                   = Return (commonMod, None)).
  { unfold parse_Module. rewrite Hsrc, Hlex.
    apply parse_commonModTokens. exact Heof. }
  assert (Hadd : addBaseFuncs ParseFloat Lex NewFile mod_ = Return withBase).
  { unfold addBaseFuncs, withBase. rewrite Hid. fold name. rewrite Hparse.
    reflexivity. }
  split; [exact Hsrc|]. split; [exact Hparse|]. split; [exact Hadd|]. split.
  { unfold CompileModule. rewrite Hadd. reflexivity. }
  split; [eexists; repeat split; vm_compute; reflexivity|].
  split; [eexists; repeat split; vm_compute; reflexivity|].
  intros Lex' commonMod' err Hparse'.
  assert (Hpanic : addBaseFuncs ParseFloat Lex' NewFile mod_ = Panicked err).
  { unfold addBaseFuncs. rewrite Hid. fold name. rewrite Hparse'.
    reflexivity. }
  split; [exact Hpanic|].
  unfold CompileModule. rewrite Hpanic. reflexivity.
Qed.

End BaseFuncFacts.

(** A module named [m], with a tokenizer that reads the text: the tokens of
    the source of [addBaseFuncs] are those of the template with the atom
    ['m'], and [module_info/0] and [module_info/1] come first. *)
Lemma CompileModule_prepends_module_info_witness :
  let tokens := sample.lex (compile.commonModFuncs "m") in
  let pos := fun k => lexer.Pos (nth k tokens parser.zeroToken) in
  tokens
  = compile.commonModTokens pos "m" ++ [sample.tok token.EOF 139 ""]
  /\ map lexer.Pos tokens
     = [1; 8; 14; 16; 21; 32; 33; 35; 38; 45; 51; 52; 63; 64; 67; 68; 69;
        72; 77; 88; 89; 94; 96; 99; 106; 112; 113; 124; 125; 128; 130; 135;
        136; 137; 139]
  /\ compile.addBaseFuncs sample.noFloat sample.lex
       (fun _ _ => sample.file) sample.funcThenImport
     = Return
         (ast.mkModule (ast.Id sample.funcThenImport)
            (ast.Imports sample.funcThenImport)
            ([ast.FuncDecl_ (compile.module_info_0 pos "m");
              ast.FuncDecl_ (compile.module_info_1 pos "m")]
             ++ ast.Decls sample.funcThenImport)).
Proof.
  intros tokens pos.
  assert (Htokens : tokens
                    = compile.commonModTokens pos "m"
                      ++ [sample.tok token.EOF 139 ""])
    by (vm_compute; reflexivity).
  split; [exact Htokens|]. split; [vm_compute; reflexivity|].
  refine (proj1 (proj2 (proj2
            (CompileModule_prepends_module_info sample.noFloat
               (fun _ _ => sample.file) (fun _ => true) sample.lex
               sample.funcThenImport (ast.mkIdentifier 7 "m") pos
               [sample.tok token.EOF 139 ""] eq_refl _ _)))).
  - vm_compute. reflexivity.
  - repeat constructor.
Defined.

Section TokenizerFacts.

Import sample.

Lemma append_cons (c : ascii) (s t : string) :
  String c s ^^ t = String c (s ^^ t).
Proof. reflexivity. Qed.

Lemma append_snoc (acc : string) (c : ascii) (s : string) :
  snoc acc c ^^ s = acc ^^ String c s.
Proof.
  unfold snoc. induction acc as [|a acc IH].
  - reflexivity.
  - rewrite !append_cons, IH. reflexivity.
Qed.

Lemma append_nil_r (s : string) : s ^^ "" = s.
Proof.
  induction s as [|c s IH]; [reflexivity|]. rewrite append_cons, IH.
  reflexivity.
Qed.

(** The tokens of a text in two parts are those the first part completes,
    then those of the second part from where the scan is then. *)
Lemma lex_from_app (s rest : string) :
  forall st last i,
    lex_from st last i (s ^^ rest)
    = fst (scanAll st last i s)
      ++ lex_from (fst (fst (snd (scanAll st last i s))))
           (snd (fst (snd (scanAll st last i s))))
           (snd (snd (scanAll st last i s))) rest.
Proof.
  induction s as [|c s IH]; intros st last i.
  - reflexivity.
  - rewrite append_cons. cbn [lex_from scanAll fst snd].
    rewrite IH, app_assoc. reflexivity.
Qed.

(** Within the quotes of an atom, a name without a quote is read as it
    is. *)
Lemma lex_from_atom (name rest : string) :
  quoteFree name = true ->
  forall start acc last i,
    lex_from (InAtom start acc) last i (name ^^ rest)
    = lex_from (InAtom start (acc ^^ name)) last (i + String.length name) rest.
Proof.
  induction name as [|c name IH]; intros Hq start acc last i.
  - rewrite append_nil_r, Nat.add_0_r. reflexivity.
  - simpl in Hq. apply andb_true_iff in Hq as [Hc Hq].
    apply negb_true_iff in Hc.
    rewrite append_cons. cbn [lex_from scan]. rewrite Hc. cbn [fst snd app].
    rewrite (IH Hq), append_snoc. f_equal. simpl. lia.
Qed.

(** The source of [addBaseFuncs], around the two places of the name. *)
Lemma commonModFuncs_parts (name : string) :
  compile.commonModFuncs name
  = (compile.LF ^^ "module common" ^^ compile.LF ^^ compile.LF
     ^^ "func module_info() {" ^^ compile.LF
     ^^ compile.TAB ^^ "return erlang.module_info('")
    ^^ name
    ^^ ("')" ^^ compile.LF ^^ "}" ^^ compile.LF ^^ compile.LF
        ^^ "func module_info(Value) {" ^^ compile.LF
        ^^ compile.TAB ^^ "return erlang.module_info('")
    ^^ name
    ^^ ("', Value)" ^^ compile.LF ^^ "}" ^^ compile.LF).
Proof. vm_compute. reflexivity. Qed.

(** For every name without a quote, the tokenizer of the samples gives the
    source of [addBaseFuncs] the tokens of the template, then the
    end-of-input token. *)
Lemma lex_commonModFuncs (name : string) :
  quoteFree name = true ->
  exists pos eof,
    lex (compile.commonModFuncs name)
    = compile.commonModTokens pos name ++ [eof]
    /\ lexer.Type_ eof = token.EOF.
Proof.
  intros Hq.
  assert (Hlex : exists L, lex (compile.commonModFuncs name) = L
                 /\ L = compile.commonModTokens
                          (fun k => lexer.Pos (nth k L parser.zeroToken)) name
                        ++ [nth 34 L parser.zeroToken]
                 /\ lexer.Type_ (nth 34 L parser.zeroToken) = token.EOF).
  { eexists. split.
    - rewrite commonModFuncs_parts. unfold lex.
      rewrite lex_from_app.
      match goal with
      | |- context [scanAll ?st ?l ?i ?s] =>
          let r := eval vm_compute in (scanAll st l i s) in
          change (scanAll st l i s) with r
      end.
      cbn [fst snd].
      rewrite (lex_from_atom name _ Hq).
      rewrite lex_from_app.
      match goal with
      | |- context [scanAll ?st ?l ?i ?s] =>
          let r := eval vm_compute in (scanAll st l i s) in
          change (scanAll st l i s) with r
      end.
      cbn [fst snd].
      rewrite (lex_from_atom name _ Hq).
      match goal with
      | |- context [lex_from ?st ?l ?i ?s] =>
          let r := eval vm_compute in (lex_from st l i s) in
          change (lex_from st l i s) with r
      end.
      reflexivity.
    - split; vm_compute; reflexivity. }
  destruct Hlex as (L & HL & Hshape & Heof).
  eexists _, _. rewrite HL. split; [exact Hshape | exact Heof].
Qed.

(** With that tokenizer, whatever the name of the module (without a quote):
    the source is tokenized, the tokens parse to the two declarations, and
    [addBaseFuncs] puts them before the declarations of the module. *)
Lemma addBaseFuncs_reads_the_name
    (ParseFloat : string -> float64 * option string)
    (NewFile : string -> string -> token.File) (mod_ : ast.Module)
    (id : ast.Identifier) :
  ast.Id mod_ = Some id ->
  quoteFree (ast.Name id) = true ->
  exists pos,
    compile.addBaseFuncs ParseFloat lex NewFile mod_
    = Return
        (ast.mkModule (ast.Id mod_) (ast.Imports mod_)
           ([ast.FuncDecl_ (compile.module_info_0 pos (ast.Name id));
             ast.FuncDecl_ (compile.module_info_1 pos (ast.Name id))]
            ++ ast.Decls mod_)).
Proof.
  intros Hid Hq.
  destruct (lex_commonModFuncs (ast.Name id) Hq) as (pos & eof & Hlex & Heof).
  exists pos. unfold compile.addBaseFuncs, compile.parse_Module.
  rewrite Hid, Hlex, parse_commonModTokens by (repeat constructor; exact Heof).
  reflexivity.
Qed.

End TokenizerFacts.

(** Without a semicolon after [module common] the header of the template
    is in error, and [addBaseFuncs] panics with the error list of the parse:
    with the same tokenizer, its semicolons taken out. *)
Example addBaseFuncs_needs_semicolons :
  let Lex := fun s =>
    List.filter
      (fun t => negb (token.Type_eqb (lexer.Type_ t) token.Semicolon))
      (sample.lex s) in
  compile.addBaseFuncs sample.noFloat Lex (fun _ _ => sample.file)
    sample.funcThenImport
  = Panicked
      (ErrorListError
         [token.mkError (token.mkPosition "sample" 16 1 16)
            ("expected ';' after module name, got " ^^ dquote ^^ "func"
             ^^ dquote ^^ " (Func)")]).
Proof. vm_compute. reflexivity. Qed.

(** ** Termination *)

Section Termination.

Import parser.

Variable ParseFloat : string -> float64 * option string.

(** With no token left the input is at its end. *)
Lemma remaining_0_atEOF (p : Parser) : remaining p = O -> atEOF p.
Proof.
  unfold remaining, atEOF, peekToken. intros H.
  rewrite drop_ge by lia. reflexivity.
Qed.

(** The bound on the loop of [advance] never cuts it short: where it
    stops, the next token is the end of input or one of [to]. *)
Lemma advance_loop_stops (to : gmap token.Type_ bool) (n : nat) :
  forall tok p,
    (remaining p <= n)%nat ->
    let p' := snd (advance_loop n to tok p) in
    atEOF p' \/ index to (lexer.Type_ (peekToken p')) = true.
Proof.
  induction n as [|n IH]; intros tok p Hrem; simpl.
  - left. apply remaining_0_atEOF. lia.
  - destruct (token.Type_eqb (lexer.Type_ (peekToken p)) token.EOF) eqn:Heof;
      simpl.
    + left. apply bool_decide_eq_true in Heof. exact Heof.
    + destruct (index to (lexer.Type_ (peekToken p))) eqn:Hto; simpl.
      * right. exact Hto.
      * apply bool_decide_eq_false in Heof.
        destruct (eat_spec p) as (p1 & Heat & _ & Hprog).
        specialize (Hprog Heof). unfold eat in Heat.
        injection Heat as _ Hp1. rewrite Hp1.
        apply IH. lia.
Qed.

(** X2. [parseExpression] terminates, and in one of two ways: as soon as its
    fuel exceeds the number of tokens left, it returns an expression, or it
    panics with [ErrBailout], some error having been recorded. It does not
    run out of fuel, and it raises no other panic. *)
Theorem parseExpression_total (fuel : nat) (p : Parser) :
  (remaining p < fuel)%nat ->
  (exists e p', parseExpression ParseFloat fuel p = (Return e, p'))
  \/ (exists p',
         parseExpression ParseFloat fuel p = (Panicked ErrBailout, p')
         /\ errors p' <> []).
Proof.
  intros Hfuel.
  pose proof (parseExpression_runs ParseFloat False fuel p
                (or_intror Hfuel)) as H.
  unfold runs in H.
  destruct (parseExpression ParseFloat fuel p) as [[e|v|] p'].
  - left. eauto.
  - right. destruct H as [-> He]. eauto.
  - contradiction.
Qed.

(** X4. [parseFunction] terminates, and in one of two ways: as soon as its
    fuel exceeds the number of tokens left, it returns a declaration, or it
    panics with [ErrBailout], some error having been recorded. It does not
    run out of fuel, and it raises no other panic. *)
Theorem parseFunction_total (fuel : nat) (p : Parser) :
  (remaining p < fuel)%nat ->
  (exists d p', parseFunction ParseFloat fuel p = (Return d, p'))
  \/ (exists p',
         parseFunction ParseFloat fuel p = (Panicked ErrBailout, p')
         /\ errors p' <> []).
Proof.
  intros Hfuel.
  pose proof (parseFunction_runs (T := False) ParseFloat fuel p
                (or_intror Hfuel)) as H.
  unfold runs in H.
  destruct (parseFunction ParseFloat fuel p) as [[d|v|] p'].
  - left. eauto.
  - right. destruct H as [-> He]. eauto.
  - contradiction.
Qed.

End Termination.

(** Thirteen lines with an error each: parsing bails out at the twelfth, and
    the entry point returns the eleven errors recorded until then. *)
Example bailout_returns_errors :
  fst (parser.parseFunction sample.noFloat 50
         (sample.start (sample.manyErrors 13)))
  = Panicked ErrBailout
  /\ exists errs,
       parser.Function_ sample.noFloat 50 sample.file (sample.manyErrors 13)
       = Return (ast.NilDecl, Some (ErrorListError errs))
       /\ map (fun e => token.Line (token.ErrPos e)) errs
          = [2; 3; 4; 5; 6; 7; 8; 9; 10; 11; 12].
Proof.
  split; [vm_compute; reflexivity|].
  eexists. split; vm_compute; reflexivity.
Qed.

(** ** A tuple type that the input ends in *)

Section OpenTuple.

Import parser.

Lemma stuck_eat (p : Parser) : stuck p -> eat p = (Return EOFToken, p).
Proof.
  intros [Hpos _]. unfold eat. rewrite drop_ge by lia. simpl.
  destruct p; reflexivity.
Qed.

Lemma stuck_matches (types : list token.Type_) (p : Parser) :
  stuck p -> ~ In token.EOF types -> matchesToken types p = false.
Proof.
  intros [Hpos _] Hnot. unfold matchesToken, peekToken.
  rewrite drop_ge by lia. simpl.
  apply not_true_is_false. intros H. apply existsb_exists in H.
  destruct H as (t & Hin & Heq). apply bool_decide_eq_true in Heq.
  subst t. contradiction.
Qed.

Lemma stuck_error (p : Parser) (err : GoError) :
  stuck p -> exists p', error 0 err p = (Return tt, p') /\ stuck p'.
Proof.
  intros [Hpos Herrs]. unfold error.
  destruct Herrs as [Hnil | (e & Hlast & Hline)].
  - rewrite Hnil. simpl. eexists. split; [reflexivity|].
    split; [exact Hpos|]. right. simpl. eexists. split; [reflexivity|].
    reflexivity.
  - rewrite Hlast, Hline, Z.eqb_refl. exists p. split; [reflexivity|].
    split; [exact Hpos|]. right. eauto.
Qed.

(** At the end of the input [parseType] returns a bad expression, or needs
    more fuel, and the parser stays where it is. *)
Lemma stuck_parseType (fuel : nat) (p : Parser) :
  stuck p ->
  fst (parseType fuel p) = OutOfFuel
  \/ exists e p', parseType fuel p = (Return e, p') /\ stuck p'.
Proof.
  intros Hstuck. destruct fuel as [|fuel]; [left; reflexivity|].
  right. cbn [parseType]. unfold parseType_body.
  unfold bind at 1. rewrite (stuck_eat p Hstuck). simpl.
  destruct (stuck_error p
              (Errorf ("expected type, got "
                       ^^ token.Type_String token.EOF)) Hstuck)
    as (p' & Herr & Hstuck').
  unfold bind. simpl in Herr. rewrite Herr. eauto.
Qed.

Lemma stuck_parseTupleType_loop (knotFuel fuel : nat) :
  forall fields p,
    stuck p ->
    fst (parseTupleType_loop (parseType knotFuel) fuel fields p) = OutOfFuel.
Proof.
  induction fuel as [|fuel IH]; intros fields p Hstuck; [reflexivity|].
  cbn [parseTupleType_loop].
  assert (Hno : matchesToken [token.RSquareBracket] p = false).
  { apply stuck_matches; [exact Hstuck|]. simpl. intuition discriminate. }
  unfold bind at 1, matches at 1. rewrite Hno.
  unfold bind at 1.
  destruct (stuck_parseType knotFuel p Hstuck)
    as [Hout | (e & p1 & Hret & Hstuck1)].
  - destruct (parseType knotFuel p) as [[x|v|] q]; simpl in Hout;
      try discriminate. reflexivity.
  - rewrite Hret.
    assert (Hno1 : matchesToken [token.RSquareBracket] p1 = false).
    { apply stuck_matches; [exact Hstuck1|]. simpl. intuition discriminate. }
    unfold bind at 1, matches at 1. rewrite Hno1.
    unfold eatOnly. unfold bind at 1. unfold bind at 1.
    rewrite (stuck_eat p1 Hstuck1).
    unfold bind at 1. simpl.
    destruct (stuck_error p1
                (Errorf ("missing ',' in tuple type list" ^^ ", got "
                         ^^ lexer.Token_String EOFToken)) Hstuck1)
      as (p2 & Herr & Hstuck2).
    rewrite Herr. simpl.
    apply IH. exact Hstuck2.
Qed.

#[local] Arguments parser.parseTupleType_loop : simpl never.
#[local] Arguments parser.parseType : simpl never.

(** X1. [parseTypeDecl] does not terminate on [type T tuple\[] followed by the
    end of the input: whatever the fuel, the model asks for more. In the
    source the loop of [parseTupleType] goes round for ever, [eat] returning
    the end of input each time and the errors after the first being
    discarded as on the same line. *)
Theorem parseTupleType_open_diverges (file : token.File)
    (pos : nat -> token.Pos) (fuel : nat) :
  fst (parseTypeDecl fuel (mkParser (sample.openTuple pos) file O []))
  = OutOfFuel.
Proof.
  unfold parseTypeDecl.
  set (p2 := mkParser (sample.openTuple pos) file 2 []).
  assert (Htype : fst (parseType fuel p2) = OutOfFuel).
  { destruct fuel as [|fuel]; [reflexivity|].
    change (parseType (S fuel))
      with (parseType_body (parseType fuel) (S fuel)).
    unfold parseType_body, parseTupleType.
    set (p4 := mkParser (sample.openTuple pos) file 4 []).
    assert (Hs4 : stuck p4) by (split; [simpl; lia | left; reflexivity]).
    pose proof (stuck_parseTupleType_loop fuel (S fuel) [] p4 Hs4) as Hloop.
    unfold bind, eat, eatOnly, bind, eat. simpl.
    change (set_pos (set_pos p2 3) 4) with p4.
    destruct (parseTupleType_loop (parseType fuel) (S fuel) [] p4)
      as [[x|v|] q]; simpl in Hloop |- *; try discriminate Hloop.
    reflexivity. }
  unfold bind, eatOnly, bind, eat. simpl.
  change (parseType fuel _) with (parseType fuel p2).
  destruct (parseType fuel p2) as [[x|v|] q]; simpl in Htype |- *;
    try discriminate. reflexivity.
Qed.

End OpenTuple.

(** [a = b = c] has five tokens: six units of fuel are enough. *)
Lemma parseExpression_total_witness :
  (parser.remaining (sample.start sample.chain) < 6)%nat
  /\ ((exists e p',
          parser.parseExpression sample.noFloat 6 (sample.start sample.chain)
          = (Return e, p'))
      \/ (exists p',
             parser.parseExpression sample.noFloat 6
               (sample.start sample.chain)
             = (Panicked ErrBailout, p')
             /\ parser.errors p' <> [])).
Proof.
  assert (H : (parser.remaining (sample.start sample.chain) < 6)%nat)
    by (vm_compute; lia).
  split; [exact H|].
  exact (parseExpression_total sample.noFloat 6
           (sample.start sample.chain) H).
Defined.

(** [func foo() {] has five tokens: six units of fuel are enough. *)
Lemma parseFunction_total_witness :
  (parser.remaining (sample.start sample.unterminated) < 6)%nat
  /\ ((exists d p',
          parser.parseFunction sample.noFloat 6
            (sample.start sample.unterminated)
          = (Return d, p'))
      \/ (exists p',
             parser.parseFunction sample.noFloat 6
               (sample.start sample.unterminated)
             = (Panicked ErrBailout, p')
             /\ parser.errors p' <> [])).
Proof.
  assert (H : (parser.remaining (sample.start sample.unterminated) < 6)%nat)
    by (vm_compute; lia).
  split; [exact H|].
  exact (parseFunction_total sample.noFloat 6
           (sample.start sample.unterminated) H).
Defined.

(* ================================================================= *)
(** * Further properties *)

(** ** Runs that returned *)

Section BindFacts.

Import parser.

Lemma bind_Return {S A B : Type} (m : M S A) (k : A -> M S B) (s s' : S)
    (b : B) :
  bind m k s = (Return b, s') ->
  exists a s1, m s = (Return a, s1) /\ k a s1 = (Return b, s').
Proof.
  unfold bind. destruct (m s) as [[a|v|] s1]; try discriminate. eauto.
Qed.

Lemma matches_Return (types : list token.Type_) (p p' : Parser) (b : bool) :
  matches types p = (Return b, p') -> b = matchesToken types p /\ p' = p.
Proof. intros [= <- <-]. auto. Qed.

Lemma peek_Return (p p' : Parser) (tok : lexer.Token) :
  peek p = (Return tok, p') -> tok = peekToken p /\ p' = p.
Proof. intros [= <- <-]. auto. Qed.

Lemma getModule_Return (s s' : ModState) (m : ast.Module) :
  getModule s = (Return m, s') -> m = fst s /\ s' = s.
Proof. intros [= <- <-]. auto. Qed.

Lemma setModule_Return (m : ast.Module) (s s' : ModState) (u : unit) :
  setModule m s = (Return u, s') -> s' = (m, snd s).
Proof. intros [= _ <-]. reflexivity. Qed.

End BindFacts.

(** Take the first call of a run that returned apart from what follows it. *)
Tactic Notation "unbind" hyp(H) :=
  let a := fresh "a" in
  let p := fresh "p" in
  let Ha := fresh "Hcall" in
  apply bind_Return in H; destruct H as (a & p & Ha & H).

Tactic Notation "unbind" hyp(H) "as" ident(a) ident(s) ident(Hc) :=
  apply bind_Return in H; destruct H as (a & s & Hc & H).

(** The run returned at a [ret]: what it returned, and where. *)
Tactic Notation "returned" hyp(H) "as" simple_intropattern(a)
    simple_intropattern(b) :=
  cbv beta iota delta [parser.ret] in H; injection H as a b.

(** ** The token cursor *)

Section CursorFacts.

Import parser.

Lemma eat_from_comments (l : list lexer.Token) :
  forall i,
    exists comments rest,
      l = comments ++ rest
      /\ Forall (fun tok => isComment tok = true) comments
      /\ match rest with
         | tok :: _ =>
             isComment tok = false /\ peek_from l = tok
             /\ eat_from l i = (tok, (i + length comments + 1)%nat)
         | [] =>
             peek_from l = EOFToken
             /\ eat_from l i = (EOFToken, (i + length comments)%nat)
         end.
Proof.
  induction l as [|tok l IH]; intros i.
  - exists [], []. simpl. repeat split; auto; f_equal; lia.
  - simpl. destruct (isComment tok) eqn:Hc.
    + destruct (IH (S i)) as (cs & rest & -> & Hcs & Hrest).
      exists (tok :: cs), rest. split; [reflexivity|].
      split; [constructor; assumption|].
      destruct rest as [|tok' rest'].
      * destruct Hrest as [Hp He]. split; [exact Hp|].
        rewrite He. simpl. f_equal. lia.
      * destruct Hrest as (Hn & Hp & He). repeat split; try assumption.
        rewrite He. simpl. f_equal. lia.
    + exists [], (tok :: l). simpl. repeat split; auto; f_equal; lia.
Qed.

(** X8. [eat] skips the comments at the cursor and returns the first token
    after them, with the cursor one past it; that is the token [peek] shows,
    and [peek] leaves the parser as it is. When only comments are left, or
    nothing, both return the end-of-input token, whose position is 0, and
    [eat] leaves the cursor after the comments. *)
Theorem eat_skips_comments (p : Parser) :
  exists comments rest,
    drop (pos p) (tokens p) = comments ++ rest
    /\ Forall (fun tok => lexer.Type_ tok = token.Comment) comments
    /\ peek p = (Return (peekToken p), p)
    /\ match rest with
       | tok :: _ =>
           lexer.Type_ tok <> token.Comment
           /\ peekToken p = tok
           /\ eat p
              = (Return tok, set_pos p (pos p + length comments + 1)%nat)
       | [] =>
           peekToken p = EOFToken
           /\ eat p = (Return EOFToken, set_pos p (pos p + length comments)%nat)
       end.
Proof.
  destruct (eat_from_comments (drop (pos p) (tokens p)) (pos p))
    as (cs & rest & Hl & Hcs & Hrest).
  exists cs, rest. split; [exact Hl|]. split.
  { eapply Forall_impl; [exact Hcs|]. intros tok H.
    apply bool_decide_eq_true in H. exact H. }
  split; [reflexivity|].
  unfold eat, peekToken.
  destruct rest as [|tok rest'].
  - destruct Hrest as [Hp He]. split; [exact Hp|]. rewrite He. reflexivity.
  - destruct Hrest as (Hn & Hp & He). split.
    { apply bool_decide_eq_false in Hn. exact Hn. }
    split; [exact Hp|]. rewrite He. reflexivity.
Qed.

Lemma eatAll_from_run (t : token.Type_) (l : list lexer.Token) :
  forall i,
    exists run rest,
      l = run ++ rest
      /\ Forall (fun tok => lexer.Type_ tok = t) run
      /\ match rest with
         | tok :: _ =>
             lexer.Type_ tok <> t
             /\ eatAll_from t l i = (t, (i + length run)%nat)
         | [] => eatAll_from t l i = (token.EOF, (i + length run)%nat)
         end.
Proof.
  induction l as [|tok l IH]; intros i.
  - exists [], []. simpl. repeat split; auto; f_equal; lia.
  - simpl. destruct (token.Type_eqb (lexer.Type_ tok) t) eqn:Ht.
    + apply bool_decide_eq_true in Ht.
      destruct (IH (S i)) as (run & rest & -> & Hrun & Hrest).
      exists (tok :: run), rest. split; [reflexivity|].
      split; [constructor; assumption|].
      destruct rest as [|tok' rest'].
      * rewrite Hrest. simpl. f_equal. lia.
      * destruct Hrest as [Hn He]. split; [exact Hn|].
        rewrite He. simpl. f_equal. lia.
    + apply bool_decide_eq_false in Ht.
      exists [], (tok :: l). simpl. repeat split; auto; f_equal; lia.
Qed.

(** X9. [eatAll] takes the longest run of tokens of the given type at the
    cursor, and nothing else: a comment ends the run. It returns [EOF] when
    the run reaches the end of the tokens, and otherwise the type it was
    given (not the type of the token it stopped at). *)
Theorem eatAll_takes_the_run (t : token.Type_) (p : Parser) :
  exists run rest,
    drop (pos p) (tokens p) = run ++ rest
    /\ Forall (fun tok => lexer.Type_ tok = t) run
    /\ match rest with
       | tok :: _ =>
           lexer.Type_ tok <> t
           /\ eatAll t p = (Return t, set_pos p (pos p + length run)%nat)
       | [] =>
           eatAll t p = (Return token.EOF, set_pos p (pos p + length run)%nat)
       end.
Proof.
  destruct (eatAll_from_run t (drop (pos p) (tokens p)) (pos p))
    as (run & rest & Hl & Hrun & Hrest).
  exists run, rest. split; [exact Hl|]. split; [exact Hrun|].
  unfold eatAll. destruct rest as [|tok rest'].
  - rewrite Hrest. reflexivity.
  - destruct Hrest as [Hn He]. split; [exact Hn|]. rewrite He. reflexivity.
Qed.

Lemma peek_from_In (l : list lexer.Token) :
  lexer.Type_ (peek_from l) <> token.EOF -> In (peek_from l) l.
Proof.
  induction l as [|tok l IH]; simpl.
  - intros H. contradiction H. reflexivity.
  - destruct (isComment tok); [right; auto | left; reflexivity].
Qed.

Lemma peekToken_In (p : Parser) :
  lexer.Type_ (peekToken p) <> token.EOF -> In (peekToken p) (tokens p).
Proof.
  intros H. apply peek_from_In in H. unfold peekToken.
  rewrite <- (take_drop (pos p) (tokens p)) at 2.
  apply in_or_app. right. exact H.
Qed.

(** The tokens that the loop of [advance] consumes: none of them, comments
    apart, is the end of input or one of [to]; the last of them is no
    comment, and it is the token returned; where the loop stops, the token
    ahead is the end of input or one of [to]. *)
Lemma advance_loop_skipped (to : gmap token.Type_ bool) (n : nat) :
  forall tok p,
    (remaining p <= n)%nat ->
    exists skipped,
      drop (pos p) (tokens p)
      = skipped ++ drop (pos p + length skipped) (tokens p)
      /\ advance_loop n to tok p
         = (default tok (last skipped), set_pos p (pos p + length skipped))
      /\ Forall (fun t =>
                   lexer.Type_ t = token.Comment
                   \/ (lexer.Type_ t <> token.EOF
                       /\ index to (lexer.Type_ t) = false)) skipped
      /\ (forall t, last skipped = Some t -> lexer.Type_ t <> token.Comment)
      /\ (skipped = []
          <-> atEOF p \/ index to (lexer.Type_ (peekToken p)) = true)
      /\ (let p' := set_pos p (pos p + length skipped) in
          atEOF p' \/ index to (lexer.Type_ (peekToken p')) = true).
Proof.
  assert (Hnil : forall p, set_pos p (pos p + length (@nil lexer.Token)) = p).
  { intros [ts f i es]. unfold set_pos. simpl. f_equal. lia. }
  assert (Hnone : forall tok p,
             atEOF p \/ index to (lexer.Type_ (peekToken p)) = true ->
             exists skipped,
               drop (pos p) (tokens p)
               = skipped ++ drop (pos p + length skipped) (tokens p)
               /\ (tok, p)
                  = (default tok (last skipped),
                     set_pos p (pos p + length skipped))
               /\ Forall (fun t =>
                            lexer.Type_ t = token.Comment
                            \/ (lexer.Type_ t <> token.EOF
                                /\ index to (lexer.Type_ t) = false)) skipped
               /\ (forall t, last skipped = Some t ->
                              lexer.Type_ t <> token.Comment)
               /\ (skipped = []
                   <-> atEOF p \/ index to (lexer.Type_ (peekToken p)) = true)
               /\ (let p' := set_pos p (pos p + length skipped) in
                   atEOF p' \/ index to (lexer.Type_ (peekToken p')) = true)).
  { intros tok p Hstop. exists []. rewrite Hnil. simpl. rewrite Nat.add_0_r.
    split; [reflexivity|]. split; [reflexivity|]. split; [constructor|].
    split; [intros t [=]|]. split; [|exact Hstop].
    split; [intros _; exact Hstop | reflexivity]. }
  induction n as [|n IH]; intros tok p Hrem.
  - apply Hnone. left. apply remaining_0_atEOF. lia.
  - assert (Hcases : (atEOF p \/ index to (lexer.Type_ (peekToken p)) = true)
                     \/ (lexer.Type_ (peekToken p) <> token.EOF
                         /\ index to (lexer.Type_ (peekToken p)) = false)).
    { destruct (token.Type_eqb (lexer.Type_ (peekToken p)) token.EOF)
        eqn:Heof.
      - left. left. apply bool_decide_eq_true in Heof. exact Heof.
      - apply bool_decide_eq_false in Heof.
        destruct (index to (lexer.Type_ (peekToken p)));
          [left; right; reflexivity | right; split; [exact Heof|reflexivity]]. }
    destruct Hcases as [Hstop | [Heof Hto]].
    { assert (Hrun : advance_loop (S n) to tok p = (tok, p)).
      { cbn [advance_loop]. destruct Hstop as [He|Ht].
        - unfold atEOF in He. rewrite He. reflexivity.
        - rewrite Ht, andb_false_r. reflexivity. }
      rewrite Hrun. apply Hnone. exact Hstop. }
    cbn [advance_loop].
    replace (token.Type_eqb (lexer.Type_ (peekToken p)) token.EOF) with false
      by (symmetry; apply bool_decide_eq_false; exact Heof).
    rewrite Hto. cbn [negb andb].
    destruct (eat_from_comments (drop (pos p) (tokens p)) (pos p))
      as (cs & rest & Hl & Hcs & Hrest).
    destruct rest as [|tok1 rest].
    { destruct Hrest as [Hp _]. exfalso. apply Heof.
      unfold peekToken. rewrite Hp. reflexivity. }
    destruct Hrest as (Hn1 & Hp1 & He1).
    rewrite He1. cbn [fst snd].
    assert (Htok1 : peekToken p = tok1) by exact Hp1.
    rewrite Htok1 in Heof, Hto.
    set (p1 := set_pos p (pos p + length cs + 1)).
    assert (Hdrop1 : drop (pos p1) (tokens p1) = rest).
    { unfold p1. simpl.
      replace (pos p + length cs + 1)%nat
        with (pos p + length (cs ++ [tok1]))%nat
        by (rewrite length_app; simpl; lia).
      rewrite <- drop_drop, Hl.
      replace (cs ++ tok1 :: rest) with ((cs ++ [tok1]) ++ rest)
        by (rewrite <- app_assoc; reflexivity).
      apply drop_app_length. }
    assert (Hlen : (length (cs ++ tok1 :: rest) <= remaining p)%nat).
    { rewrite <- Hl. unfold remaining. rewrite length_drop. lia. }
    assert (Hrem1 : (remaining p1 <= n)%nat).
    { rewrite length_app in Hlen. simpl in Hlen.
      unfold remaining, p1. simpl. unfold remaining in Hrem, Hlen. lia. }
    destruct (IH tok1 p1 Hrem1)
      as (sk & Hsk & Hrun & Hall & Hlast & _ & Hstop).
    exists (cs ++ tok1 :: sk).
    assert (Hp' : set_pos p1 (pos p1 + length sk)
                  = set_pos p (pos p + length (cs ++ tok1 :: sk))).
    { unfold p1, set_pos. simpl. f_equal. rewrite length_app. simpl. lia. }
    rewrite Hp' in Hrun, Hstop.
    assert (Hlast' : last (cs ++ tok1 :: sk) = Some (default tok1 (last sk))).
    { rewrite last_app. destruct sk as [|t sk]; [reflexivity|].
      rewrite last_cons. destruct (last (t :: sk)) as [t'|] eqn:Ht; simpl.
      - reflexivity.
      - apply last_None in Ht. discriminate. }
    split; [|split; [|split; [|split; [|split]]]].
    + rewrite Hl at 1. rewrite <- app_assoc. simpl. do 2 f_equal.
      rewrite Hdrop1 in Hsk. rewrite Hsk at 1. f_equal.
      unfold p1. simpl. f_equal. rewrite length_app. simpl. lia.
    + rewrite Hrun. f_equal. rewrite Hlast'. reflexivity.
    + apply Forall_app. split.
      * eapply Forall_impl; [exact Hcs|]. intros t Ht. left.
        apply bool_decide_eq_true in Ht. exact Ht.
      * constructor; [right; split; assumption | exact Hall].
    + intros t Ht. rewrite Hlast' in Ht. injection Ht as <-.
      destruct (last sk) as [t'|] eqn:Hsk'; simpl.
      * apply (Hlast t'). reflexivity.
      * apply bool_decide_eq_false in Hn1. exact Hn1.
    + split.
      * intros H. apply app_eq_nil in H as [_ H]. discriminate.
      * intros [H|H]; [|discriminate].
        unfold atEOF in H. rewrite Htok1 in H. contradiction.
    + exact Hstop.
Qed.

(** X3. [advance] stops at the first token that is the end of input or one
    of [to], and not before: the tokens it consumes are a prefix of the
    tokens ahead in which no token, comments apart, is the end of input or
    one of [to]; the cursor is left after the last of them, which is no
    comment, and there the token ahead is the end of input or one of [to].
    Nothing else of the parser changes. *)
Theorem advance_stops (to : gmap token.Type_ bool) (p : Parser) :
  exists tok skipped,
    let p' := set_pos p (pos p + length skipped) in
    advance to p = (Return tok, p')
    /\ drop (pos p) (tokens p) = skipped ++ drop (pos p') (tokens p)
    /\ Forall (fun t =>
                 lexer.Type_ t = token.Comment
                 \/ (lexer.Type_ t <> token.EOF
                     /\ index to (lexer.Type_ t) = false)) skipped
    /\ (forall t, last skipped = Some t -> lexer.Type_ t <> token.Comment)
    /\ (atEOF p' \/ index to (lexer.Type_ (peekToken p')) = true).
Proof.
  destruct (advance_loop_skipped to (remaining p) zeroToken p (Nat.le_refl _))
    as (sk & Hsk & Hrun & Hall & Hlast & _ & Hstop).
  exists (default zeroToken (last sk)), sk. cbv zeta.
  unfold advance. rewrite Hrun. cbn [fst snd].
  repeat split; try assumption.
Qed.

(** X10. What [advance] returns is the last token it has consumed, the one
    before the cursor as it leaves it, which is neither a comment, nor the
    end of input, nor one of [to]; when the token ahead is the end of input
    or one of [to], it consumes nothing and returns the zero token, whose
    position is 0 (the [To] of the bad node built from it). *)
Theorem advance_returns_last_skipped (to : gmap token.Type_ bool)
    (p : Parser) :
  let stop := atEOF p \/ index to (lexer.Type_ (peekToken p)) = true in
  exists tok p',
    advance to p = (Return tok, p')
    /\ (stop -> tok = zeroToken /\ p' = p)
    /\ (~ stop ->
        (pos p < pos p' <= length (tokens p))%nat
        /\ last (take (pos p') (tokens p)) = Some tok
        /\ lexer.Type_ tok <> token.Comment
        /\ lexer.Type_ tok <> token.EOF
        /\ index to (lexer.Type_ tok) = false).
Proof.
  intros stop.
  destruct (advance_loop_skipped to (remaining p) zeroToken p (Nat.le_refl _))
    as (sk & Hsk & Hrun & Hall & Hlast & Hnone & _).
  exists (default zeroToken (last sk)), (set_pos p (pos p + length sk)).
  unfold advance. rewrite Hrun. cbn [fst snd].
  split; [reflexivity|]. split.
  - intros Hstop. apply Hnone in Hstop. subst sk. split; [reflexivity|].
    destruct p. unfold set_pos. simpl. f_equal. lia.
  - intros Hgo.
    assert (Hsk0 : sk <> []) by (intros H; apply Hgo, Hnone, H).
    assert (Hpos : (pos p + length sk <= length (tokens p))%nat).
    { destruct (Nat.le_gt_cases (pos p) (length (tokens p))) as [Hle|Hgt].
      - assert (H : length (drop (pos p) (tokens p))
                    = length (sk ++ drop (pos p + length sk) (tokens p)))
          by (rewrite <- Hsk; reflexivity).
        rewrite length_app, !length_drop in H. lia.
      - rewrite drop_ge in Hsk by lia. symmetry in Hsk.
        apply app_eq_nil in Hsk as [Hsk _]. contradiction. }
    assert (Htake : take (pos p + length sk) (tokens p)
                    = take (pos p) (tokens p) ++ sk).
    { rewrite <- (take_drop (pos p) (tokens p)) at 1.
      rewrite Hsk.
      rewrite take_app_add' by (rewrite length_take; lia).
      f_equal. rewrite take_app_length. reflexivity. }
    destruct (last sk) as [t|] eqn:Ht;
      [|apply last_None in Ht; contradiction].
    change (default zeroToken (Some t)) with t.
    cbn [pos set_pos].
    split; [destruct sk; [contradiction | cbn [length] in *; lia]|].
    split; [rewrite Htake, last_app, Ht; reflexivity|].
    split; [apply Hlast; reflexivity|].
    assert (Hin : t ∈ sk).
    { apply last_Some in Ht as [l' ->]. apply elem_of_app. right.
      apply list_elem_of_singleton. reflexivity. }
    rewrite Forall_forall in Hall. destruct (Hall t Hin) as [Hc|[H1 H2]].
    + exfalso. apply (Hlast t); [reflexivity | exact Hc].
    + split; assumption.
Qed.

End CursorFacts.

(** ** What every step of the parser keeps *)

Section StepFacts.

Import parser.

Lemma extends_refl (p : Parser) : extends p p.
Proof. unfold extends. repeat split; auto. Qed.

Lemma extends_trans (p1 p2 p3 : Parser) :
  extends p1 p2 -> extends p2 p3 -> extends p1 p3.
Proof.
  unfold extends.
  intros (Ht1 & Hf1 & Hp1 & Hb1 & He1 & Hc1 & Hs1)
         (Ht2 & Hf2 & Hp2 & Hb2 & He2 & Hc2 & Hs2).
  rewrite Ht1 in Hb2.
  repeat split; try congruence; try lia; auto.
  etrans; eassumption.
Qed.

(** A function that always returns steps as soon as it keeps [extends]. *)
Lemma steps_returns {A : Type} (m : P A) :
  (forall p, extends p (snd (m p)) /\ exists a, fst (m p) = Return a) ->
  steps m.
Proof.
  intros H p. destruct (H p) as [He [a Ha]]. split; [exact He|].
  rewrite Ha. discriminate.
Qed.

Lemma steps_ret {A : Type} (a : A) : steps (ret (S := Parser) a).
Proof.
  apply steps_returns. intros p. split; [apply extends_refl | eauto].
Qed.

Lemma steps_outOfFuel {A : Type} : steps (outOfFuel (S := Parser) (A := A)).
Proof. intros p. split; [apply extends_refl | discriminate]. Qed.

(** The one panic of the parser that is not a bailout. *)
Lemma steps_panic {A : Type} (msg : string) :
  steps (panic (S := Parser) (A := A) (RuntimeError msg)).
Proof. intros p. split; [apply extends_refl | discriminate]. Qed.

Lemma steps_bind {A B : Type} (m : P A) (k : A -> P B) :
  steps m -> (forall a, steps (k a)) -> steps (bind m k).
Proof.
  intros Hm Hk p. destruct (Hm p) as [He Hb]. unfold bind.
  destruct (m p) as [[a|v|] p1]; simpl in *;
    [|split; [assumption | intros [= ->]; apply Hb; reflexivity]
     |split; [assumption | discriminate]].
  destruct (Hk a p1) as [He' Hb']. split; [|exact Hb'].
  eapply extends_trans; eassumption.
Qed.

Lemma extends_set_pos (p : Parser) (i : nat) :
  (pos p <= i)%nat ->
  ((pos p <= length (tokens p))%nat -> (i <= length (tokens p))%nat) ->
  extends p (set_pos p i).
Proof. intros H1 H2. unfold extends. simpl. repeat split; auto. Qed.

Lemma steps_eat : steps eat.
Proof.
  apply steps_returns. intros p. unfold eat. simpl. split; [|eauto].
  destruct (eat_from_spec (drop (pos p) (tokens p)) (pos p)) as (_ & H2 & _).
  rewrite length_drop in H2. apply extends_set_pos; lia.
Qed.

Lemma steps_peek : steps peek.
Proof.
  apply steps_returns. intros p. split; [apply extends_refl | eexists; reflexivity].
Qed.

Lemma steps_matches (types : list token.Type_) : steps (matches types).
Proof.
  apply steps_returns. intros p. split; [apply extends_refl | eexists; reflexivity].
Qed.

Lemma steps_eatAll (t : token.Type_) : steps (eatAll t).
Proof.
  apply steps_returns. intros p. unfold eatAll. simpl. split; [|eauto].
  pose proof (eatAll_from_spec t (drop (pos p) (tokens p)) (pos p)) as H2.
  rewrite length_drop in H2. apply extends_set_pos; lia.
Qed.

Lemma spaced_snoc (l : token.ErrorList) (e : token.Error) :
  spaced (l ++ [e])
  = spaced l
    && match last l with
       | Some e0 =>
           negb (token.Line (token.ErrPos e0) =? token.Line (token.ErrPos e))
       | None => true
       end.
Proof.
  induction l as [|e1 [|e2 rest] IH].
  - reflexivity.
  - simpl. rewrite andb_true_r. reflexivity.
  - change (spaced ((e1 :: e2 :: rest) ++ [e]))
      with (negb (token.Line (token.ErrPos e1) =? token.Line (token.ErrPos e2))
            && spaced ((e2 :: rest) ++ [e])).
    rewrite IH.
    change (spaced (e1 :: e2 :: rest))
      with (negb (token.Line (token.ErrPos e1) =? token.Line (token.ErrPos e2))
            && spaced (e2 :: rest)).
    change (last (e1 :: e2 :: rest)) with (last (e2 :: rest)).
    rewrite andb_assoc. reflexivity.
Qed.

Lemma extends_recorded (p : Parser) (e : token.Error) :
  (length (errors p) <= maxErrors)%nat ->
  match last (errors p) with
  | Some e0 => token.Line (token.ErrPos e0) <> token.Line (token.ErrPos e)
  | None => True
  end ->
  extends p (set_errors p (errors p ++ [e])).
Proof.
  intros Hfew Hline. unfold extends. simpl. repeat split; auto.
  - apply prefix_app_r. reflexivity.
  - rewrite length_app. simpl. lia.
  - intros Hs. rewrite spaced_snoc, Hs. simpl.
    destruct (last (errors p)) as [e0|]; [|reflexivity].
    apply negb_true_iff. apply Z.eqb_neq. exact Hline.
Qed.

Lemma steps_error (pos : token.Pos) (err : GoError) : steps (error pos err).
Proof.
  intros p. unfold error.
  destruct (last (errors p)) as [e|] eqn:Hlast.
  - destruct (Z.eqb_spec (token.Line (token.ErrPos e))
                (token.Line (token.Position_ (file p) pos))) as [Heq|Hne];
      [split; [apply extends_refl | discriminate]|].
    destruct (Nat.ltb_spec maxErrors (length (errors p)));
      [split; [apply extends_refl | intros _; assumption]|].
    split; [|discriminate]. simpl.
    apply extends_recorded; [assumption|]. rewrite Hlast. exact Hne.
  - destruct (Nat.ltb_spec maxErrors (length (errors p)));
      [split; [apply extends_refl | intros _; assumption]|].
    split; [|discriminate]. simpl.
    apply extends_recorded; [assumption|]. rewrite Hlast. exact I.
Qed.

Lemma extends_advance_loop (to : gmap token.Type_ bool) (n : nat) :
  forall tok p, extends p (snd (advance_loop n to tok p)).
Proof.
  induction n as [|n IH]; intros tok p; simpl; [apply extends_refl|].
  destruct (negb (token.Type_eqb (lexer.Type_ (peekToken p)) token.EOF)
            && negb (index to (lexer.Type_ (peekToken p))));
    [|apply extends_refl].
  eapply extends_trans; [|apply IH].
  apply (proj1 (steps_eat p)).
Qed.

Lemma steps_advance (to : gmap token.Type_ bool) : steps (advance to).
Proof.
  apply steps_returns. intros p. unfold advance. simpl.
  split; [apply extends_advance_loop | eauto].
Qed.

End StepFacts.

Create HintDb steps.

#[local] Hint Resolve steps_ret steps_panic steps_outOfFuel steps_eat
  steps_peek steps_matches steps_eatAll steps_error steps_advance : steps.

(** One step through a function body: binds are split, conditionals and
    matches taken by cases, calls closed by the lemmas of the database. *)
Ltac step :=
  repeat first
    [ solve [eauto with steps]
    | apply steps_bind; [|intros ?]
    | match goal with
      | |- parser.steps (if ?b then _ else _) => destruct b
      | |- parser.steps (match ?x with _ => _ end) => destruct x
      | |- parser.steps (let _ := _ in _) => cbv zeta
      end ].

Section ExprSteps.

Import parser.

Variable ParseFloat : string -> float64 * option string.

Lemma steps_eatOnly (t : token.Type_) (msg : string) : steps (eatOnly t msg).
Proof. unfold eatOnly. step. Qed.

Lemma steps_parseInt (tok : lexer.Token) : steps (parseInt tok).
Proof. unfold parseInt. step. Qed.

Lemma steps_parseFloat (tok : lexer.Token) : steps (parseFloat ParseFloat tok).
Proof. unfold parseFloat. step. Qed.

Hint Resolve steps_eatOnly steps_parseInt steps_parseFloat : steps.

Section Knot.

Variable knot : P ast.Expression.
Hypothesis steps_knot : steps knot.

Lemma steps_parsePrimary : steps (parsePrimary ParseFloat knot).
Proof. unfold parsePrimary. step. Qed.

Lemma steps_parseArguments_loop (fuel : nat) :
  forall args, steps (parseArguments_loop knot fuel args).
Proof. induction fuel as [|fuel IH]; intros args; cbn [parseArguments_loop]; step. Qed.

Lemma steps_parseArguments (fuel : nat) : steps (parseArguments knot fuel).
Proof. unfold parseArguments. pose proof (steps_parseArguments_loop fuel). step. Qed.

Lemma steps_parseCall_loop (fuel : nat) :
  forall callee, steps (parseCall_loop knot fuel callee).
Proof.
  induction fuel as [|fuel IH]; intros callee; cbn [parseCall_loop].
  - step.
  - pose proof (steps_parseArguments fuel). step.
Qed.

Lemma steps_parseCall (fuel : nat) : steps (parseCall ParseFloat knot fuel).
Proof.
  unfold parseCall. pose proof steps_parsePrimary.
  pose proof (steps_parseCall_loop fuel). step.
Qed.

Lemma steps_parseUnary (fuel : nat) : steps (parseUnary ParseFloat knot fuel).
Proof.
  induction fuel as [|fuel IH]; cbn [parseUnary]; [step|].
  pose proof (steps_parseCall (S fuel)). step.
Qed.

Lemma steps_parseFactor_loop (fuel : nat) :
  forall left, steps (parseFactor_loop ParseFloat knot fuel left).
Proof.
  induction fuel as [|fuel IH]; intros left; cbn [parseFactor_loop]; [step|].
  pose proof (steps_parseUnary fuel). step.
Qed.

Lemma steps_parseFactor (fuel : nat) : steps (parseFactor ParseFloat knot fuel).
Proof.
  unfold parseFactor. pose proof (steps_parseUnary fuel).
  pose proof (steps_parseFactor_loop fuel). step.
Qed.

Lemma steps_parseTerm_loop (fuel : nat) :
  forall left, steps (parseTerm_loop ParseFloat knot fuel left).
Proof.
  induction fuel as [|fuel IH]; intros left; cbn [parseTerm_loop]; [step|].
  pose proof (steps_parseFactor fuel). step.
Qed.

Lemma steps_parseTerm (fuel : nat) : steps (parseTerm ParseFloat knot fuel).
Proof.
  unfold parseTerm. pose proof (steps_parseFactor fuel).
  pose proof (steps_parseTerm_loop fuel). step.
Qed.

Lemma steps_parseComparison_loop (fuel : nat) :
  forall left, steps (parseComparison_loop ParseFloat knot fuel left).
Proof.
  induction fuel as [|fuel IH]; intros left; cbn [parseComparison_loop]; [step|].
  pose proof (steps_parseTerm fuel). step.
Qed.

Lemma steps_parseComparison (fuel : nat) :
  steps (parseComparison ParseFloat knot fuel).
Proof.
  unfold parseComparison. pose proof (steps_parseTerm fuel).
  pose proof (steps_parseComparison_loop fuel). step.
Qed.

Lemma steps_parseEquality_loop (fuel : nat) :
  forall left, steps (parseEquality_loop ParseFloat knot fuel left).
Proof.
  induction fuel as [|fuel IH]; intros left; cbn [parseEquality_loop]; [step|].
  pose proof (steps_parseComparison fuel). step.
Qed.

Lemma steps_parseEquality (fuel : nat) :
  steps (parseEquality ParseFloat knot fuel).
Proof.
  unfold parseEquality. pose proof (steps_parseComparison fuel).
  pose proof (steps_parseEquality_loop fuel). step.
Qed.

Lemma steps_parseMatch (fuel : nat) : steps (parseMatch ParseFloat knot fuel).
Proof.
  induction fuel as [|fuel IH]; cbn [parseMatch]; [step|].
  pose proof (steps_parseEquality (S fuel)). step.
Qed.

End Knot.

Lemma steps_parseExpression (fuel : nat) :
  steps (parseExpression ParseFloat fuel).
Proof.
  induction fuel as [|fuel IH]; cbn [parseExpression]; [step|].
  apply steps_parseMatch. exact IH.
Qed.

End ExprSteps.

Section DeclSteps.

Import parser.

Variable ParseFloat : string -> float64 * option string.

Hint Resolve steps_eatOnly steps_parseInt steps_parseExpression : steps.

Lemma steps_parseStatement (fuel : nat) (tok : lexer.Token) :
  steps (parseStatement ParseFloat fuel tok).
Proof.
  unfold parseStatement, parseReturnStatement, parseExpressionStatement. step.
Qed.

Lemma steps_parseBody_loop (fuel : nat) :
  forall body, steps (parseBody_loop ParseFloat fuel body).
Proof.
  induction fuel as [|fuel IH]; intros body; cbn [parseBody_loop]; [step|].
  pose proof (steps_parseStatement (S fuel)). step.
Qed.

Lemma steps_parseParams_loop (fuel : nat) :
  forall i params, steps (parseParams_loop fuel i params).
Proof.
  induction fuel as [|fuel IH]; intros i params; cbn [parseParams_loop]; step.
Qed.

Lemma steps_parseFunction (fuel : nat) : steps (parseFunction ParseFloat fuel).
Proof.
  unfold parseFunction, parseParams, parseBody.
  pose proof (steps_parseBody_loop fuel).
  pose proof (steps_parseParams_loop fuel). step.
Qed.

Lemma steps_parseTupleType_loop (knot : P ast.Expression) (fuel : nat) :
  steps knot -> forall fields, steps (parseTupleType_loop knot fuel fields).
Proof.
  intros Hknot.
  induction fuel as [|fuel IH]; intros fields; cbn [parseTupleType_loop]; step.
Qed.

Lemma steps_parseType (fuel : nat) : steps (parseType fuel).
Proof.
  induction fuel as [|fuel IH]; cbn [parseType]; [step|].
  unfold parseType_body, parseTupleType.
  pose proof (steps_parseTupleType_loop (parseType fuel) (S fuel) IH). step.
Qed.

Lemma steps_parseTypeDecl (fuel : nat) : steps (parseTypeDecl fuel).
Proof. unfold parseTypeDecl. pose proof (steps_parseType fuel). step. Qed.

Lemma steps_parseImport : steps parseImport.
Proof. unfold parseImport. step. Qed.

(** The functions that fill in a module. *)
Lemma stepsM_ret {A : Type} (a : A) : stepsM (ret (S := ModState) a).
Proof. intros s. split; [apply extends_refl | discriminate]. Qed.

Lemma stepsM_outOfFuel {A : Type} : stepsM (outOfFuel (S := ModState) (A := A)).
Proof. intros s. split; [apply extends_refl | discriminate]. Qed.

Lemma stepsM_bind {A B : Type} (m : PM A) (k : A -> PM B) :
  stepsM m -> (forall a, stepsM (k a)) -> stepsM (bind m k).
Proof.
  intros Hm Hk s. destruct (Hm s) as [He Hb]. unfold bind.
  destruct (m s) as [[a|v|] s1]; simpl in *;
    [|split; [assumption | intros [= ->]; apply Hb; reflexivity]
     |split; [assumption | discriminate]].
  destruct (Hk a s1) as [He' Hb']. split; [|exact Hb'].
  eapply extends_trans; eassumption.
Qed.

Lemma stepsM_liftP {A : Type} (m : P A) : steps m -> stepsM (liftP m).
Proof. intros Hm s. unfold liftP. simpl. apply Hm. Qed.

Lemma stepsM_getModule : stepsM getModule.
Proof. intros s. split; [apply extends_refl | discriminate]. Qed.

Lemma stepsM_setModule (m : ast.Module) : stepsM (setModule m).
Proof. intros s. split; [apply extends_refl | discriminate]. Qed.

Lemma stepsM_appendDecl (d : ast.Decl) : stepsM (appendDecl d).
Proof.
  unfold appendDecl. apply stepsM_bind; [apply stepsM_getModule|].
  intros m. apply stepsM_setModule.
Qed.

Hint Resolve stepsM_ret stepsM_outOfFuel stepsM_getModule stepsM_setModule
  stepsM_appendDecl steps_parseImport : steps.

Ltac stepM :=
  repeat first
    [ solve [eauto with steps]
    | apply stepsM_liftP; solve [eauto with steps]
    | apply stepsM_bind; [|intros ?]
    | match goal with
      | |- stepsM (if ?b then _ else _) => destruct b
      | |- stepsM (match ?x with _ => _ end) => destruct x
      end ].

Lemma stepsM_parseImports_loop (fuel : nat) :
  forall imports, stepsM (parseImports_loop fuel imports).
Proof.
  induction fuel as [|fuel IH]; intros imports; cbn [parseImports_loop];
    stepM.
Qed.

Lemma stepsM_parseModuleHeader (fuel : nat) : stepsM (parseModuleHeader fuel).
Proof.
  unfold parseModuleHeader, parseImports.
  pose proof (stepsM_parseImports_loop fuel). stepM.
Qed.

End DeclSteps.

Section Invariants.

Import parser.

Variable ParseFloat : string -> float64 * option string.

(** X5. The parser never holds more than eleven errors. From a parser with
    at most eleven errors recorded, [parseExpression], [parseFunction],
    [parseTypeDecl] and [parseModuleHeader] leave at most eleven, whatever the
    outcome and the fuel; and where they bail out, exactly eleven are
    recorded: the error that would have been the twelfth is the one that
    raises [ErrBailout]. *)
Theorem errors_never_exceed_cap (fuel : nat) (p : Parser) (m : ast.Module) :
  (length (errors p) <= 11)%nat ->
  let capped (A : Type) (o : Outcome A) (p' : Parser) : Prop :=
    (length (errors p') <= 11)%nat
    /\ (o = Panicked ErrBailout -> length (errors p') = 11%nat) in
  let e := parseExpression ParseFloat fuel p in
  let f := parseFunction ParseFloat fuel p in
  let t := parseTypeDecl fuel p in
  let h := parseModuleHeader fuel (m, p) in
  capped _ (fst e) (snd e) /\ capped _ (fst f) (snd f)
  /\ capped _ (fst t) (snd t) /\ capped _ (fst h) (snd (snd h)).
Proof.
  intros Hcap capped e f t h.
  assert (Hok : forall (A : Type) (o : Outcome A) (p' : Parser),
             extends p p' ->
             (o = Panicked ErrBailout -> (maxErrors < length (errors p'))%nat) ->
             capped A o p').
  { intros A o p' (_ & _ & _ & _ & _ & Hc & _) Hb. unfold maxErrors in *.
    split; [auto|]. intros Ho. specialize (Hb Ho). specialize (Hc Hcap). lia. }
  split; [|split; [|split]]; apply Hok.
  - apply (steps_parseExpression ParseFloat fuel p).
  - apply (steps_parseExpression ParseFloat fuel p).
  - apply (steps_parseFunction ParseFloat fuel p).
  - apply (steps_parseFunction ParseFloat fuel p).
  - apply (steps_parseTypeDecl fuel p).
  - apply (steps_parseTypeDecl fuel p).
  - apply (stepsM_parseModuleHeader fuel (m, p)).
  - apply (stepsM_parseModuleHeader fuel (m, p)).
Qed.

(** X6. No two errors next to each other in the list are on the same line:
    the parsing functions keep the list so ([spaced]), whatever the
    outcome. *)
Theorem errors_on_distinct_lines (fuel : nat) (p : Parser) (m : ast.Module) :
  spaced (errors p) = true ->
  spaced (errors (snd (parseExpression ParseFloat fuel p))) = true
  /\ spaced (errors (snd (parseFunction ParseFloat fuel p))) = true
  /\ spaced (errors (snd (parseTypeDecl fuel p))) = true
  /\ spaced (errors (snd (snd (parseModuleHeader fuel (m, p))))) = true.
Proof.
  intros Hs.
  assert (Hok : forall p', extends p p' -> spaced (errors p') = true).
  { intros p' (_ & _ & _ & _ & _ & _ & H). auto. }
  split; [|split; [|split]]; apply Hok.
  - apply (steps_parseExpression ParseFloat fuel p).
  - apply (steps_parseFunction ParseFloat fuel p).
  - apply (steps_parseTypeDecl fuel p).
  - apply (stepsM_parseModuleHeader fuel (m, p)).
Qed.

(** X7. The parsing functions do not backtrack and take nothing back: the
    tokens and the file are those they were given, the cursor has not moved
    back and stays within the tokens, and the errors recorded before are the
    first of those recorded after, whatever the outcome. *)
Theorem parser_never_rewinds (fuel : nat) (p : Parser) (m : ast.Module) :
  let kept (p' : Parser) : Prop :=
    tokens p' = tokens p
    /\ file p' = file p
    /\ (pos p <= pos p')%nat
    /\ ((pos p <= length (tokens p))%nat -> (pos p' <= length (tokens p))%nat)
    /\ exists more, errors p' = errors p ++ more in
  kept (snd (parseExpression ParseFloat fuel p))
  /\ kept (snd (parseFunction ParseFloat fuel p))
  /\ kept (snd (parseTypeDecl fuel p))
  /\ kept (snd (snd (parseModuleHeader fuel (m, p)))).
Proof.
  intros kept.
  assert (Hok : forall p', extends p p' -> kept p').
  { intros p' (Ht & Hf & Hp & Hb & He & _). unfold kept. auto. }
  split; [|split; [|split]]; apply Hok.
  - apply (steps_parseExpression ParseFloat fuel p).
  - apply (steps_parseFunction ParseFloat fuel p).
  - apply (steps_parseTypeDecl fuel p).
  - apply (stepsM_parseModuleHeader fuel (m, p)).
Qed.

End Invariants.

Section InvariantWitnesses.

Import parser.

Lemma errors_never_exceed_cap_witness :
  let f := parseFunction sample.noFloat 50 (sample.start (sample.manyErrors 13)) in
  fst f = Panicked ErrBailout /\ length (errors (snd f)) = 11%nat.
Proof.
  intros f.
  assert (Hcap : (length (errors (sample.start (sample.manyErrors 13)))
                  <= 11)%nat) by (vm_compute; lia).
  pose proof (errors_never_exceed_cap sample.noFloat 50
                (sample.start (sample.manyErrors 13))
                (ast.mkModule None [] []) Hcap) as H.
  cbv zeta in H. destruct H as (_ & [_ Hf] & _).
  assert (Hb : fst f = Panicked ErrBailout) by (vm_compute; reflexivity).
  split; [exact Hb | exact (Hf Hb)].
Defined.

Lemma errors_on_distinct_lines_witness :
  spaced
    (errors
       (snd (parseFunction sample.noFloat 50
               (sample.start (sample.manyErrors 3))))) = true.
Proof.
  refine (proj1 (proj2 (errors_on_distinct_lines sample.noFloat 50
                   (sample.start (sample.manyErrors 3))
                   (ast.mkModule None [] []) _))).
  vm_compute. reflexivity.
Defined.

End InvariantWitnesses.

(** ** Bodies, argument lists and progress *)

Section BodyFacts.

Import parser.

Variable ParseFloat : string -> float64 * option string.

Lemma matchesToken_weaken (t : token.Type_) (types : list token.Type_)
    (p : Parser) :
  lexer.Type_ (peekToken p) = t -> In t types -> matchesToken types p = true.
Proof.
  intros Ht Hin. unfold matchesToken. apply existsb_exists.
  exists t. split; [exact Hin|]. apply bool_decide_eq_true. exact Ht.
Qed.

Lemma parseBody_loop_stops (fuel : nat) :
  forall body0 p body p',
    parseBody_loop ParseFloat fuel body0 p = (Return body, p') ->
    matchesToken [token.RCurlyBracket; token.EOF] p' = true.
Proof.
  induction fuel as [|fuel IH]; intros body0 p body p' H; [discriminate|].
  cbn [parseBody_loop] in H.
  unbind H. apply matches_Return in Hcall as [-> ->].
  destruct (matchesToken [token.EOF] p) eqn:Heof.
  { returned H as _ <-. unfold matchesToken in *. simpl in *.
    rewrite orb_false_r in Heof. rewrite Heof. apply orb_true_r. }
  unbind H. unbind H. apply peek_Return in Hcall0 as [-> ->].
  destruct (token.Type_eqb (lexer.Type_ (peekToken p0)) token.RCurlyBracket)
    eqn:Hbrace.
  { returned H as _ <-. apply bool_decide_eq_true in Hbrace.
    eapply matchesToken_weaken; [exact Hbrace | left; reflexivity]. }
  cbv beta iota in H.
  unbind H. unbind H. apply matches_Return in Hcall1 as [-> ->].
  destruct (matchesToken [token.Semicolon; token.RCurlyBracket; token.EOF] p1).
  { eapply IH. exact H. }
  do 4 unbind H. eapply IH. exact H.
Qed.

(** X11. When [parseBody] returns, the token ahead is the closing brace of
    the body, not consumed, or the input is at its end. *)
Theorem parseBody_stops_before_brace (fuel : nat) (p p' : Parser)
    (body : list ast.Statement) :
  parseBody ParseFloat fuel p = (Return body, p') ->
  lexer.Type_ (peekToken p') = token.RCurlyBracket \/ atEOF p'.
Proof.
  intros H. apply parseBody_loop_stops in H.
  unfold matchesToken in H. simpl in H. rewrite orb_false_r in H.
  apply orb_true_iff in H. unfold atEOF.
  destruct H as [H|H]; apply bool_decide_eq_true in H; auto.
Qed.

Lemma parseArguments_loop_bound (knot : P ast.Expression) (fuel : nat) :
  forall args0 p args p',
    (length args0 <= 255)%nat ->
    parseArguments_loop knot fuel args0 p = (Return args, p') ->
    (length args0 <= length args <= 255)%nat.
Proof.
  induction fuel as [|fuel IH]; intros args0 p args p' Hlen H; [discriminate|].
  cbn [parseArguments_loop] in H.
  unbind H. apply matches_Return in Hcall as [-> ->].
  destruct (matchesToken [token.Comma] p).
  2:{ returned H as <- _. lia. }
  unbind H.
  destruct (Nat.leb_spec 255 (length args0)).
  - unbind H. returned H as <- _. lia.
  - unbind H. apply IH in H; rewrite length_app in *; simpl in *; lia.
Qed.

(** X12. An argument list that [parseArguments] returns has at most 255
    elements; it is empty exactly when the token ahead was [)]. *)
Theorem parseArguments_at_most_255 (knot : P ast.Expression) (fuel : nat)
    (p p' : Parser) (args : list ast.Expression) :
  parseArguments knot fuel p = (Return args, p') ->
  (length args <= 255)%nat
  /\ (args = [] <-> matchesToken [token.RParen] p = true).
Proof.
  intros H. unfold parseArguments in H.
  unbind H. apply matches_Return in Hcall as [-> ->].
  destruct (matchesToken [token.RParen] p).
  - returned H as <- _. simpl. split; [lia | tauto].
  - unbind H. apply parseArguments_loop_bound in H; simpl in *; [|lia].
    split; [lia|]. split; [|discriminate].
    intros ->. simpl in H. lia.
Qed.

End BodyFacts.

Section Progress.

Import parser.

Variable ParseFloat : string -> float64 * option string.

Lemma remaining_pos (p p' : Parser) :
  tokens p' = tokens p ->
  (remaining p' < remaining p)%nat -> (pos p < pos p')%nat.
Proof. unfold remaining. intros ->. lia. Qed.

(** X13. Unless the input is at its end, an expression and a function
    declaration have consumed at least one token when their parser returns,
    whatever the token ahead: on an error too the cursor moves on. *)
Theorem parsing_makes_progress (fuel : nat) (p : Parser) :
  ~ atEOF p ->
  (forall e p',
      parseExpression ParseFloat fuel p = (Return e, p') ->
      (pos p < pos p')%nat)
  /\ (forall d p',
         parseFunction ParseFloat fuel p = (Return d, p') ->
         (pos p < pos p')%nat).
Proof.
  intros Hnot. split.
  - intros e p' H.
    pose proof (parseExpression_runs ParseFloat True fuel p (or_introl I))
      as Hrun.
    unfold runs in Hrun. rewrite H in Hrun.
    destruct Hrun as [(Ht & _) [_ Hprog]].
    apply remaining_pos; auto.
  - intros d p' H.
    pose proof (parseFunction_runs (T := True) ParseFloat fuel p
                  (or_introl I)) as Hrun.
    unfold runs in Hrun. rewrite H in Hrun.
    destruct Hrun as [(Ht & _) [_ Hprog]].
    apply remaining_pos; auto.
Qed.

End Progress.

Lemma parsing_makes_progress_witness :
  let p := sample.start sample.chain in
  let r := parser.parseExpression sample.noFloat 6 p in
  ~ parser.atEOF p
  /\ (parser.pos p < parser.pos (snd r))%nat.
Proof.
  intros p r.
  assert (Hnot : ~ parser.atEOF p) by (vm_compute; discriminate).
  split; [exact Hnot|].
  refine (proj1 (parsing_makes_progress sample.noFloat 6 p Hnot)
            (ast.AssignExpr (ast.mkIdentifier 0 "a") 2
               (ast.AssignExpr (ast.mkIdentifier 4 "b") 6
                  (ast.Ident (ast.mkIdentifier 8 "c"))))
            (snd r) _).
  vm_compute. reflexivity.
Defined.

(** ** The module header and the imports *)

Section HeaderFacts.

Import parser.

Lemma error_same_cursor (at_ : token.Pos) (err : GoError) (p : Parser) :
  pos (snd (error at_ err p)) = pos p.
Proof.
  unfold error.
  destruct (last (errors p)) as [e|];
    [destruct (_ =? _); [reflexivity|]|];
    destruct (Nat.ltb _ _); reflexivity.
Qed.

(** With no more than [maxErrors] errors recorded, [eatOnly] returns. *)
Lemma eatOnly_few (t : token.Type_) (msg : string) (p : Parser) :
  (length (errors p) <= maxErrors)%nat ->
  exists p1,
    eatOnly t msg p = (Return (peekToken p), p1)
    /\ tokens p1 = tokens p /\ file p1 = file p
    /\ pos p1 = pos (snd (eat p))
    /\ (lexer.Type_ (peekToken p) = t -> p1 = snd (eat p))
    /\ (lexer.Type_ (peekToken p) <> t -> errors p1 <> []).
Proof.
  intros Hfew. unfold eatOnly.
  destruct (eat_spec p) as (p0 & Heat & He0 & _).
  unfold bind at 1. rewrite Heat.
  assert (Hp0 : p0 = snd (eat p)) by (rewrite Heat; reflexivity).
  assert (Ht0 : tokens p0 = tokens p /\ file p0 = file p).
  { rewrite Hp0. unfold eat. simpl. auto. }
  destruct Ht0 as [Ht0 Hf0].
  destruct (token.Type_eqb (lexer.Type_ (peekToken p)) t) eqn:Heq; simpl.
  - apply bool_decide_eq_true in Heq.
    exists p0. unfold bind, ret. repeat split; auto; try congruence.
  - apply bool_decide_eq_false in Heq.
    pose proof (error_runs (T := False) (lexer.Pos (peekToken p))
                  (Errorf (msg ^^ ", got " ^^ lexer.Token_String (peekToken p)))
                  p0) as Hrun.
    unfold runs in Hrun. unfold bind.
    destruct (error (lexer.Pos (peekToken p))
                (Errorf (msg ^^ ", got " ^^ lexer.Token_String (peekToken p)))
                p0) as [[[]|v|] p1] eqn:Herr.
    + destruct Hrun as [(Ht1 & Hf1 & _) [Hne Hrem]].
      exists p1. unfold ret. repeat split; try congruence.
      * pose proof (error_same_cursor (lexer.Pos (peekToken p))
                      (Errorf (msg ^^ ", got "
                               ^^ lexer.Token_String (peekToken p))) p0) as Hc.
        rewrite Herr in Hc. exact Hc.
    + exfalso. unfold error in Herr.
      destruct (last (errors p0)) as [e|];
        [destruct (_ =? _); [discriminate|]|];
        (destruct (Nat.ltb_spec maxErrors (length (errors p0)));
         [rewrite He0 in *; lia | discriminate]).
    + contradiction.
Qed.

Lemma liftP_Return {A : Type} (m : P A) (s s' : ModState) (a : A) :
  liftP m s = (Return a, s') ->
  fst s' = fst s /\ m (snd s) = (Return a, snd s').
Proof.
  unfold liftP. destruct s as [m0 p], s' as [m1 p1]. simpl.
  destruct (m p) as [o q]. simpl. intros [= -> -> ->]. auto.
Qed.

Lemma bind_liftP {A B : Type} (m : P A) (k : A -> PM B) (mod_ : ast.Module)
    (p p1 : Parser) (a : A) :
  m p = (Return a, p1) -> bind (liftP m) k (mod_, p) = k a (mod_, p1).
Proof. intros H. unfold bind, liftP. simpl. rewrite H. reflexivity. Qed.

Lemma advance_declStart_stops (p : Parser) :
  let p' := snd (advance declStart p) in
  errors p' = errors p
  /\ (atEOF p' \/ lexer.Type_ (peekToken p') = token.Func).
Proof.
  intros p'. split.
  - apply (advance_loop_spec (T := True) declStart (remaining p) zeroToken p).
  - destruct (advance_loop_stops declStart (remaining p) zeroToken p
                (Nat.le_refl _)) as [H|H]; [left; exact H|].
    fold (advance declStart p) in H. cbv zeta in H.
    change (snd (advance_loop (remaining p) declStart zeroToken p)) with p' in H.
    unfold atEOF.
    destruct (lexer.Type_ (peekToken p')); try discriminate H; auto.
Qed.

(** X14. With no more than ten errors recorded, [parseModuleHeader] returns
    [ErrBadModule] exactly when the first token is not [module] or the second
    is not an identifier (comments apart). It has then left the module as it
    was, an error is recorded, and the cursor is before the next [func] or at
    the end of input. In the other case it returns no error value. *)
Theorem parseModuleHeader_rejects (fuel : nat) (m : ast.Module) (p : Parser) :
  (length (errors p) <= 10)%nat ->
  let first := peekToken p in
  let second := peekToken (snd (eat p)) in
  let bad :=
    lexer.Type_ first <> token.Module
    \/ lexer.Type_ second <> token.Identifier in
  (bad ->
   exists p',
     parseModuleHeader fuel (m, p) = (Return (Some ErrBadModule), (m, p'))
     /\ errors p' <> []
     /\ (atEOF p' \/ lexer.Type_ (peekToken p') = token.Func))
  /\ (~ bad ->
      forall e s', parseModuleHeader fuel (m, p) = (Return e, s') -> e = None).
Proof.
  intros Hfew first second bad.
  destruct (eatOnly_few token.Module
              "expected 'module' keyword at start of file" p Hfew)
    as (p1 & Heat1 & _ & _ & _ & Hsame1 & Herr1).
  fold first in Heat1, Hsame1, Herr1.
  assert (Hbadend : forall q,
             errors q <> [] ->
             exists p',
               bind (liftP (advance declStart))
                 (fun _ => ret (Some ErrBadModule)) (m, q)
               = (Return (Some ErrBadModule), (m, p'))
               /\ errors p' <> []
               /\ (atEOF p' \/ lexer.Type_ (peekToken p') = token.Func)).
  { intros q Hq. exists (snd (advance declStart q)).
    destruct (advance_declStart_stops q) as [He Hstop].
    split; [reflexivity|]. split; [rewrite He; exact Hq | exact Hstop]. }
  destruct (decide (lexer.Type_ first = token.Module)) as [Hmod|Hmod].
  - (* the keyword is there *)
    specialize (Hsame1 Hmod). subst p1.
    assert (Hfew1 : (length (errors (snd (eat p))) <= maxErrors)%nat).
    { unfold eat. simpl. exact Hfew. }
    destruct (eatOnly_few token.Identifier
                "expected module name after 'module' keyword" (snd (eat p))
                Hfew1)
      as (p2 & Heat2 & _ & _ & _ & _ & Herr2).
    fold second in Heat2, Herr2.
    assert (Hkw : negb (token.Type_eqb (lexer.Type_ first) token.Module)
                  = false).
    { apply negb_false_iff. apply bool_decide_eq_true. exact Hmod. }
    split.
    + intros [Hb|Hb]; [contradiction|].
      unfold parseModuleHeader.
      rewrite (bind_liftP _ _ _ _ _ _ Heat1), Hkw.
      rewrite (bind_liftP _ _ _ _ _ _ Heat2).
      replace (token.Type_eqb (lexer.Type_ second) token.Identifier)
        with false by (symmetry; apply bool_decide_eq_false; exact Hb).
      apply Hbadend. apply Herr2. exact Hb.
    + intros Hgood e s' H.
      assert (Hid : lexer.Type_ second = token.Identifier).
      { destruct (decide (lexer.Type_ second = token.Identifier)); [auto|].
        contradiction Hgood. right. assumption. }
      unfold parseModuleHeader in H.
      rewrite (bind_liftP _ _ _ _ _ _ Heat1), Hkw in H.
      rewrite (bind_liftP _ _ _ _ _ _ Heat2) in H.
      replace (token.Type_eqb (lexer.Type_ second) token.Identifier)
        with true in H by (symmetry; apply bool_decide_eq_true; exact Hid).
      cbv beta iota zeta delta [negb] in H.
      repeat unbind H. returned H as Hnone _. congruence.
  - (* no keyword *)
    split; [|intros Hgood; contradiction Hgood; left; exact Hmod].
    intros _. unfold parseModuleHeader.
    rewrite (bind_liftP _ _ _ _ _ _ Heat1).
    replace (token.Type_eqb (lexer.Type_ first) token.Module)
      with false by (symmetry; apply bool_decide_eq_false; exact Hmod).
    apply Hbadend. apply Herr1. exact Hmod.
Qed.

Lemma eatOnly_Return (t : token.Type_) (msg : string) (p p1 : Parser)
    (tok : lexer.Token) :
  eatOnly t msg p = (Return tok, p1) ->
  tok = peekToken p /\ (lexer.Type_ tok = t -> p1 = snd (eat p)).
Proof.
  unfold eatOnly. intros H. unbind H.
  destruct (eat_spec p) as (q & Heat & _).
  rewrite Heat in Hcall. injection Hcall as <- <-.
  unbind H. returned H as Htok Hp. subst.
  split; [reflexivity|]. intros Ht.
  replace (token.Type_eqb (lexer.Type_ (peekToken p)) t) with true in Hcall
    by (symmetry; apply bool_decide_eq_true; exact Ht).
  simpl in Hcall. injection Hcall as Hq. rewrite Heat. simpl. congruence.
Qed.

Lemma parseImport_Return (p p' : Parser) (d : ast.Decl) :
  parseImport p = (Return d, p') -> ast.isImportDecl d || ast.isBadDecl d = true.
Proof.
  unfold parseImport. intros H. unbind H.
  destruct (negb (token.Type_eqb (lexer.Type_ a) token.Import)).
  { unbind H. returned H as Hd _. subst d. reflexivity. }
  do 3 unbind H.
  destruct (negb (token.Type_eqb (lexer.Type_ a2) token.String)).
  { unbind H. returned H as Hd _. subst d. reflexivity. }
  returned H as Hd _. subst d. reflexivity.
Qed.

Lemma appendDecl_Return (d : ast.Decl) (s s' : ModState) (u : unit) :
  appendDecl d s = (Return u, s') ->
  s' = (ast.mkModule (ast.Id (fst s)) (ast.Imports (fst s))
          (ast.Decls (fst s) ++ [d]), snd s).
Proof. unfold appendDecl. intros [= _ Hs]. symmetry. exact Hs. Qed.

Lemma parseImports_loop_Return (fuel : nat) :
  forall imports0 s imports s',
    parseImports_loop fuel imports0 s = (Return imports, s') ->
    ast.Id (fst s') = ast.Id (fst s)
    /\ ast.Imports (fst s') = ast.Imports (fst s)
    /\ exists ds,
         ast.Decls (fst s') = ast.Decls (fst s) ++ ds
         /\ Forall (fun d => ast.isImportDecl d || ast.isBadDecl d = true) ds
         /\ imports = imports0 ++ List.filter ast.isImportDecl ds.
Proof.
  induction fuel as [|fuel IH]; intros imports0 s imports s' H;
    [discriminate|].
  cbn [parseImports_loop] in H.
  unbind H. apply liftP_Return in Hcall as [Hm Hcall].
  apply matches_Return in Hcall as [-> Hp].
  assert (Hs : p = s) by (destruct p, s; simpl in *; congruence).
  subst p. clear Hm Hp.
  destruct (matchesToken [token.Import] (snd s)).
  2:{ returned H as Hi Hs. subst. repeat split; auto.
      exists []. rewrite !app_nil_r. repeat split; auto. }
  unbind H. apply liftP_Return in Hcall as [Hm Hcall].
  pose proof (parseImport_Return _ _ _ Hcall) as Hkind.
  unbind H.
  assert (Hp0 : p0 = (ast.mkModule (ast.Id (fst s)) (ast.Imports (fst s))
                        (ast.Decls (fst s) ++ [a]), snd p)).
  { destruct a; try discriminate Hkind;
      apply appendDecl_Return in Hcall0; rewrite Hcall0, Hm; reflexivity. }
  clear Hcall0. subst p0.
  destruct a as [ | imp alias path | | | from to]; try discriminate Hkind.
  - do 3 unbind H. apply liftP_Return in Hcall0 as [Hm0 _].
    apply liftP_Return in Hcall2 as [Hm2 _].
    assert (Hm1 : fst p1 = fst p0).
    { destruct (a : bool).
      - returned Hcall1 as _ Hq. subst. reflexivity.
      - unbind Hcall1. apply liftP_Return in Hcall0 as [Hq _].
        returned Hcall1 as _ Hq'. subst. exact Hq. }
    apply IH in H. destruct H as (Hid & Himp & ds & Hds & Hall & Hres).
    rewrite Hm2, Hm1, Hm0 in Hid, Himp, Hds. simpl in Hid, Himp, Hds.
    repeat split; auto.
    exists (ast.ImportDecl imp alias path :: ds).
    split; [rewrite Hds, <- app_assoc; reflexivity|].
    split; [constructor; [reflexivity | exact Hall]|].
    rewrite Hres, <- app_assoc. reflexivity.
  - apply IH in H. destruct H as (Hid & Himp & ds & Hds & Hall & Hres).
    simpl in Hid, Himp, Hds.
    repeat split; auto.
    exists (ast.BadDecl from to :: ds).
    split; [rewrite Hds, <- app_assoc; reflexivity|].
    split; [constructor; [reflexivity | exact Hall]|].
    exact Hres.
Qed.

(** X15. When [parseModuleHeader] returns without an error, the first two
    tokens were [module] and an identifier, which has become the module's
    [Id]. The declarations appended to [Decls] are import declarations and
    bad declarations only, and [Imports] is the list of those import
    declarations, in order: an import is in the module twice, in [Imports]
    and in [Decls]. *)
Theorem parseModuleHeader_fills_module (fuel : nat) (m m' : ast.Module)
    (p p' : Parser) :
  parseModuleHeader fuel (m, p) = (Return None, (m', p')) ->
  let name := peekToken (snd (eat p)) in
  lexer.Type_ (peekToken p) = token.Module
  /\ lexer.Type_ name = token.Identifier
  /\ ast.Id m' = Some (ast.NewIdent name)
  /\ exists ds,
       ast.Decls m' = ast.Decls m ++ ds
       /\ Forall (fun d => ast.isImportDecl d || ast.isBadDecl d = true) ds
       /\ ast.Imports m' = List.filter ast.isImportDecl ds.
Proof.
  intros H name. unfold parseModuleHeader in H.
  unbind H. apply liftP_Return in Hcall as [Hm Hcall]. cbn [fst snd] in *.
  apply eatOnly_Return in Hcall as [-> Hp1].
  destruct (token.Type_eqb (lexer.Type_ (peekToken p)) token.Module) eqn:Hkw;
    cbv beta iota delta [negb] in H.
  2:{ unbind H. returned H as Hn _. discriminate. }
  apply bool_decide_eq_true in Hkw. specialize (Hp1 Hkw).
  unbind H. apply liftP_Return in Hcall as [Hm1 Hcall]. rewrite Hp1 in Hcall.
  apply eatOnly_Return in Hcall as [-> _]. fold name in H.
  destruct (token.Type_eqb (lexer.Type_ name) token.Identifier) eqn:Hid;
    cbv beta iota delta [negb] in H.
  2:{ unbind H. returned H as Hn _. discriminate. }
  apply bool_decide_eq_true in Hid.
  unbind H as m2 s2 Hget. apply getModule_Return in Hget as [-> ->].
  unbind H as u3 s3 Hset. apply setModule_Return in Hset. subst s3.
  unbind H as ended s4 Hended. apply liftP_Return in Hended as [Hm4 _].
  unbind H as u5 s5 Hsemi.
  assert (Hm5 : fst s5 = fst s4).
  { destruct ended.
    - returned Hsemi as _ Hq. subst. reflexivity.
    - unbind Hsemi as t6 s6 Heat. apply liftP_Return in Heat as [Hq _].
      returned Hsemi as _ Hq'. subst. exact Hq. }
  unbind H as t7 s7 Hall. apply liftP_Return in Hall as [Hm7 _].
  unfold parseImports in H. unbind H as imports s8 Himports.
  apply parseImports_loop_Return in Himports
    as (Hid8 & _ & ds & Hds & Hforall & Hres).
  unbind H as m9 s9 Hget. apply getModule_Return in Hget as [-> ->].
  unbind H as u10 s10 Hset. apply setModule_Return in Hset. subst s10.
  returned H as Hmod Hp. subst m' p'.
  rewrite Hm7, Hm5, Hm4 in Hid8, Hds. cbn [fst snd ast.Id ast.Decls] in *.
  rewrite Hm1, Hm in Hds.
  repeat split; auto. exists ds. repeat split; auto.
Qed.

End HeaderFacts.

Section BodyAndHeaderWitnesses.

Import parser.

Lemma parseBody_stops_before_brace_witness :
  let p := sample.at_ sample.smallModule 8 in
  let r := parseBody sample.noFloat 4 p in
  fst r = Return [ast.ReturnStatement (ast.IntLiteral 28 "1" 1)]
  /\ (lexer.Type_ (peekToken (snd r)) = token.RCurlyBracket \/ atEOF (snd r)).
Proof.
  intros p r.
  assert (H : parseBody sample.noFloat 4 p
              = (Return [ast.ReturnStatement (ast.IntLiteral 28 "1" 1)], snd r))
    by (vm_compute; reflexivity).
  split; [vm_compute; reflexivity|].
  exact (parseBody_stops_before_brace sample.noFloat 4 p (snd r) _ H).
Defined.

Lemma parseArguments_at_most_255_witness :
  let knot := parseExpression sample.noFloat 9 in
  let r := parseArguments knot 9 (sample.at_ sample.call12 2) in
  let args := [ast.IntLiteral 2 "1" 1] in
  fst r = Return args /\ (length args <= 255)%nat.
Proof.
  intros knot r args.
  assert (H : parseArguments knot 9 (sample.at_ sample.call12 2)
              = (Return [ast.IntLiteral 2 "1" 1], snd r))
    by (vm_compute; reflexivity).
  split; [vm_compute; reflexivity|].
  exact (proj1 (parseArguments_at_most_255 knot 9 _ (snd r) _ H)).
Defined.

Lemma parseModuleHeader_rejects_witness :
  let m := ast.mkModule None [] [] in
  exists p',
    parseModuleHeader 6 (m, sample.start sample.unterminated)
    = (Return (Some ErrBadModule), (m, p'))
    /\ errors p' <> []
    /\ (atEOF p' \/ lexer.Type_ (peekToken p') = token.Func).
Proof.
  intros m.
  assert (Hfew : (length (errors (sample.start sample.unterminated))
                  <= 10)%nat) by (vm_compute; lia).
  refine (proj1 (parseModuleHeader_rejects 6 m
                   (sample.start sample.unterminated) Hfew) _).
  left. vm_compute. discriminate.
Defined.

Lemma parseModuleHeader_fills_module_witness :
  let imp := ast.ImportDecl 10 None (ast.StringLiteral 17 "x") in
  let m' := ast.mkModule (Some (ast.mkIdentifier 7 "m")) [imp] [imp] in
  parseModuleHeader 8 (ast.mkModule None [] [], sample.start sample.headerWithImport)
  = (Return None, (m', sample.at_ sample.headerWithImport 6))
  /\ ast.Imports m' = List.filter ast.isImportDecl (ast.Decls m').
Proof.
  intros imp m'.
  assert (H : parseModuleHeader 8
                (ast.mkModule None [] [], sample.start sample.headerWithImport)
              = (Return None, (m', sample.at_ sample.headerWithImport 6)))
    by (vm_compute; reflexivity).
  split; [exact H|].
  destruct (parseModuleHeader_fills_module 8 _ _ _ _ H)
    as (_ & _ & _ & ds & Hds & _ & Himp).
  simpl in Hds. subst ds. exact Himp.
Defined.

End BodyAndHeaderWitnesses.

(** ** Operators group to the left *)

Section ChainFacts.

Import parser shape.

Variable ParseFloat : string -> float64 * option string.
Variable knot : P ast.Expression.

Lemma skip_skip (p : Parser) (a b : nat) :
  skip (skip p a) b = skip p (a + b).
Proof. unfold skip, set_pos. simpl. f_equal. lia. Qed.

Lemma ahead_skip (p : Parser) (l1 l2 : list lexer.Token) :
  ahead p (l1 ++ l2) -> ahead (skip p (length l1)) l2.
Proof.
  unfold ahead, skip. simpl. intros H.
  rewrite <- drop_drop, H, drop_app_length. reflexivity.
Qed.

Lemma ahead_skip1 (p : Parser) (tok : lexer.Token) (l : list lexer.Token) :
  ahead p (tok :: l) -> ahead (skip p 1) l.
Proof. intros H. apply (ahead_skip p [tok] l). exact H. Qed.

Lemma matchesToken_ahead (types : list token.Type_) (p : Parser)
    (l : list lexer.Token) :
  ahead p l ->
  matchesToken types p = existsb (token.Type_eqb (next l)) types.
Proof. unfold ahead, matchesToken, peekToken, next. intros ->. reflexivity. Qed.

Lemma eat_ahead (p : Parser) (tok : lexer.Token) (l : list lexer.Token) :
  ahead p (tok :: l) -> lexer.Type_ tok <> token.Comment ->
  eat p = (Return tok, skip p 1).
Proof.
  unfold ahead, eat, skip. intros -> Hc. simpl.
  replace (isComment tok) with false
    by (symmetry; apply bool_decide_eq_false; exact Hc).
  simpl. repeat f_equal. lia.
Qed.

Lemma next_cons (tok : lexer.Token) (l : list lexer.Token) :
  lexer.Type_ tok <> token.Comment -> next (tok :: l) = lexer.Type_ tok.
Proof.
  intros Hc. unfold next. simpl.
  replace (isComment tok) with false
    by (symmetry; apply bool_decide_eq_false; exact Hc).
  reflexivity.
Qed.

Lemma existsb_notin (t : token.Type_) (types : list token.Type_) :
  ~ In t types -> existsb (token.Type_eqb t) types = false.
Proof.
  intros H. apply not_true_is_false. intros He.
  apply existsb_exists in He. destruct He as (t' & Hin & Heq).
  apply bool_decide_eq_true in Heq. subst t'. contradiction.
Qed.

Lemma bind_eq {S A B : Type} (m : M S A) (k : A -> M S B) (s s1 : S)
    (a : A) :
  m s = (Return a, s1) -> bind m k s = k a s1.
Proof. intros H. unfold bind. rewrite H. reflexivity. Qed.

Lemma matches_ahead (types : list token.Type_) (p : Parser)
    (l : list lexer.Token) :
  ahead p l ->
  matches types p = (Return (existsb (token.Type_eqb (next l)) types), p).
Proof.
  intros H. unfold matches. rewrite (matchesToken_ahead _ _ _ H). reflexivity.
Qed.

(** The next token is none of [types]: the branch not taken. *)
Ltac no_match Hahead :=
  rewrite (bind_eq _ _ _ _ _ (matches_ahead _ _ _ Hahead));
  rewrite existsb_notin;
  [|simpl; intuition (try discriminate; eauto)].

(** An identifier that neither [(] nor [.] follows is an operand. *)
Lemma parseUnary_operand (fuel : nat) (p : Parser) (x : lexer.Token)
    (l : list lexer.Token) :
  ahead p (x :: l) ->
  lexer.Type_ x = token.Identifier ->
  ~ In (next l) [token.LParen; token.Period] ->
  parseUnary ParseFloat knot (S fuel) p = (Return (operand x), skip p 1).
Proof.
  intros Hp Hx Hl.
  assert (Hc : lexer.Type_ x <> token.Comment) by (rewrite Hx; discriminate).
  pose proof (ahead_skip1 _ _ _ Hp) as Hp1.
  pose proof (next_cons x l Hc) as Hn. rewrite Hx in Hn.
  cbn [parseUnary].
  rewrite (bind_eq _ _ _ _ _ (matches_ahead _ _ _ Hp)), Hn.
  rewrite existsb_notin by (simpl; intuition discriminate).
  assert (Hprim : parsePrimary ParseFloat knot p
                  = (Return (operand x), skip p 1)).
  { unfold parsePrimary.
    rewrite (bind_eq _ _ _ _ _ (eat_ahead _ _ _ Hp Hc)), Hx. reflexivity. }
  unfold parseCall. rewrite (bind_eq _ _ _ _ _ Hprim).
  cbn [parseCall_loop].
  rewrite (bind_eq _ _ _ _ _ (matches_ahead _ _ _ Hp1)).
  rewrite existsb_notin by (simpl in *; intuition eauto).
  rewrite (bind_eq _ _ _ _ _ (matches_ahead _ _ _ Hp1)).
  rewrite existsb_notin by (simpl in *; intuition eauto).
  reflexivity.
Qed.

Lemma skip_0 (p : Parser) : skip p 0 = p.
Proof. destruct p. unfold skip, set_pos. simpl. f_equal. lia. Qed.

Lemma isFactorPair_spec (ox : lexer.Token * lexer.Token) :
  isFactorPair ox = true ->
  (lexer.Type_ (fst ox) = token.Star \/ lexer.Type_ (fst ox) = token.Slash)
  /\ lexer.Type_ (snd ox) = token.Identifier.
Proof.
  unfold isFactorPair. intros H. apply andb_true_iff in H as [Ho Hx].
  apply orb_true_iff in Ho. apply bool_decide_eq_true in Hx.
  split; [|exact Hx].
  destruct Ho as [Ho|Ho]; apply bool_decide_eq_true in Ho; auto.
Qed.

(** What follows an operand of a product: the next operator, or what
    follows the product. *)
Lemma next_pairTokens (pairs : list (lexer.Token * lexer.Token))
    (rest : list lexer.Token) (types : list token.Type_) :
  forallb isFactorPair pairs = true ->
  ~ In (next rest) types ->
  ~ In token.Star types -> ~ In token.Slash types ->
  ~ In (next (pairTokens pairs ++ rest)) types.
Proof.
  destruct pairs as [|ox pairs]; simpl; intros Hwf Hrest Hstar Hslash;
    [exact Hrest|].
  apply andb_true_iff in Hwf as [Hox _].
  apply isFactorPair_spec in Hox as [Hop _].
  rewrite next_cons by (destruct Hop as [-> | ->]; discriminate).
  destruct Hop as [-> | ->]; assumption.
Qed.

Lemma parseFactor_loop_chain (pairs : list (lexer.Token * lexer.Token)) :
  forall fuel left p rest,
    ahead p (pairTokens pairs ++ rest) ->
    forallb isFactorPair pairs = true ->
    ~ In (next rest) [token.LParen; token.Period; token.Slash; token.Star] ->
    (length pairs < fuel)%nat ->
    parseFactor_loop ParseFloat knot fuel left p
    = (Return
         (leftFold left (map (fun ox => (fst ox, operand (snd ox))) pairs)),
       skip p (2 * length pairs)).
Proof.
  induction pairs as [|[op x] pairs IH]; intros fuel left p rest Hp Hwf Hrest Hfuel;
    (destruct fuel as [|fuel]; [simpl in Hfuel; lia|]).
  - simpl in Hp. cbn [parseFactor_loop].
    rewrite (bind_eq _ _ _ _ _ (matches_ahead _ _ _ Hp)).
    rewrite existsb_notin by (simpl in *; intuition eauto).
    simpl. rewrite skip_0. reflexivity.
  - simpl in Hfuel. cbn [parseFactor_loop]. destruct fuel as [|fuel]; [lia|].
    simpl in Hwf. apply andb_true_iff in Hwf as [Hox Hwf].
    apply isFactorPair_spec in Hox as [Hop Hx]. simpl in Hop, Hx.
    assert (Hc : lexer.Type_ op <> token.Comment)
      by (destruct Hop as [-> | ->]; discriminate).
    change (pairTokens ((op, x) :: pairs) ++ rest)
      with (op :: x :: (pairTokens pairs ++ rest)) in Hp.
    pose proof (ahead_skip1 _ _ _ Hp) as Hp1.
    pose proof (ahead_skip1 _ _ _ Hp1) as Hp2.
    rewrite (bind_eq _ _ _ _ _ (matches_ahead _ _ _ Hp)).
    rewrite (next_cons _ _ Hc).
    replace (existsb (token.Type_eqb (lexer.Type_ op))
               [token.Slash; token.Star]) with true
      by (destruct Hop as [-> | ->]; reflexivity).
    rewrite (bind_eq _ _ _ _ _ (eat_ahead _ _ _ Hp Hc)).
    assert (Hnext : ~ In (next (pairTokens pairs ++ rest))
                      [token.LParen; token.Period]).
    { apply next_pairTokens; [exact Hwf | | |];
        simpl in *; intuition (try discriminate; eauto). }
    rewrite (bind_eq _ _ _ _ _ (parseUnary_operand fuel _ _ _ Hp1 Hx Hnext)).
    rewrite skip_skip in Hp2 |- *.
    rewrite (IH (S fuel) _ _ rest Hp2 Hwf Hrest) by lia.
    rewrite skip_skip. simpl. repeat f_equal. lia.
Qed.

Lemma isProduct_spec (pr : Product) :
  isProduct pr = true ->
  lexer.Type_ (fst pr) = token.Identifier
  /\ forallb isFactorPair (snd pr) = true.
Proof.
  unfold isProduct. intros H. apply andb_true_iff in H as [Hx Hp].
  apply bool_decide_eq_true in Hx. auto.
Qed.

Lemma productTokens_length (pr : Product) :
  length (productTokens pr) = S (2 * length (snd pr)).
Proof.
  unfold productTokens. simpl. f_equal.
  induction (snd pr) as [|ox l IH]; simpl; [reflexivity|]. rewrite IH. lia.
Qed.

(** A product is parsed by [parseFactor], grouped to the left. *)
Lemma parseFactor_product (fuel : nat) (p : Parser) (pr : Product)
    (rest : list lexer.Token) :
  ahead p (productTokens pr ++ rest) ->
  isProduct pr = true ->
  ~ In (next rest) [token.LParen; token.Period; token.Slash; token.Star] ->
  (length (snd pr) < fuel)%nat ->
  parseFactor ParseFloat knot fuel p
  = (Return (productExpr pr), skip p (length (productTokens pr))).
Proof.
  intros Hp Hwf Hrest Hfuel.
  apply isProduct_spec in Hwf as [Hx Hwf].
  destruct fuel as [|fuel]; [lia|].
  change (productTokens pr ++ rest)
    with (fst pr :: (pairTokens (snd pr) ++ rest)) in Hp.
  pose proof (ahead_skip1 _ _ _ Hp) as Hp1.
  assert (Hnext : ~ In (next (pairTokens (snd pr) ++ rest))
                    [token.LParen; token.Period]).
  { apply next_pairTokens; [exact Hwf | | |];
      simpl in *; intuition (try discriminate; eauto). }
  unfold parseFactor.
  rewrite (bind_eq _ _ _ _ _ (parseUnary_operand fuel _ _ _ Hp Hx Hnext)).
  rewrite (parseFactor_loop_chain _ _ _ _ rest Hp1 Hwf Hrest Hfuel).
  rewrite skip_skip, productTokens_length. reflexivity.
Qed.

Lemma isTermPair_spec (op : lexer.Token * Product) :
  isTermPair op = true ->
  (lexer.Type_ (fst op) = token.Plus \/ lexer.Type_ (fst op) = token.Minus)
  /\ isProduct (snd op) = true.
Proof.
  unfold isTermPair. intros H. apply andb_true_iff in H as [Ho Hx].
  apply orb_true_iff in Ho. split; [|exact Hx].
  destruct Ho as [Ho|Ho]; apply bool_decide_eq_true in Ho; auto.
Qed.

(** What follows a product of a sum: the next operator, or what follows the
    sum. *)
Lemma next_termTokens (ops : list (lexer.Token * Product))
    (rest : list lexer.Token) (types : list token.Type_) :
  forallb isTermPair ops = true ->
  ~ In (next rest) types ->
  ~ In token.Plus types -> ~ In token.Minus types ->
  ~ In (next (termTokens ops ++ rest)) types.
Proof.
  destruct ops as [|op ops]; simpl; intros Hwf Hrest Hplus Hminus;
    [exact Hrest|].
  apply andb_true_iff in Hwf as [Hop _].
  apply isTermPair_spec in Hop as [Hop _].
  rewrite next_cons by (destruct Hop as [-> | ->]; discriminate).
  destruct Hop as [-> | ->]; assumption.
Qed.

Lemma parseTerm_loop_chain (ops : list (lexer.Token * Product)) :
  forall fuel left p rest,
    ahead p (termTokens ops ++ rest) ->
    forallb isTermPair ops = true ->
    ~ In (next rest)
        [token.LParen; token.Period; token.Slash; token.Star;
         token.Plus; token.Minus] ->
    (length (termTokens ops) < fuel)%nat ->
    parseTerm_loop ParseFloat knot fuel left p
    = (Return
         (leftFold left (map (fun op => (fst op, productExpr (snd op))) ops)),
       skip p (length (termTokens ops))).
Proof.
  induction ops as [|[op pr] ops IH]; intros fuel left p rest Hp Hwf Hrest Hfuel;
    (destruct fuel as [|fuel]; [simpl in Hfuel; lia|]).
  - simpl in Hp. cbn [parseTerm_loop].
    rewrite (bind_eq _ _ _ _ _ (matches_ahead _ _ _ Hp)).
    rewrite existsb_notin by (simpl in *; intuition eauto).
    simpl. rewrite skip_0. reflexivity.
  - cbn [parseTerm_loop].
    simpl in Hwf. apply andb_true_iff in Hwf as [Hop Hwf].
    apply isTermPair_spec in Hop as [Hop Hpr]. simpl in Hop, Hpr.
    assert (Hc : lexer.Type_ op <> token.Comment)
      by (destruct Hop as [-> | ->]; discriminate).
    change (termTokens ((op, pr) :: ops))
      with (op :: productTokens pr ++ termTokens ops) in Hp, Hfuel |- *.
    rewrite <- app_comm_cons, <- app_assoc in Hp.
    cbn [length] in Hfuel. rewrite length_app in Hfuel.
    pose proof (productTokens_length pr) as Hlen.
    pose proof (ahead_skip1 _ _ _ Hp) as Hp1.
    pose proof (ahead_skip _ _ _ Hp1) as Hp2.
    rewrite (bind_eq _ _ _ _ _ (matches_ahead _ _ _ Hp)).
    rewrite (next_cons _ _ Hc).
    replace (existsb (token.Type_eqb (lexer.Type_ op))
               [token.Plus; token.Minus]) with true
      by (destruct Hop as [-> | ->]; reflexivity).
    rewrite (bind_eq _ _ _ _ _ (eat_ahead _ _ _ Hp Hc)).
    assert (Hnext : ~ In (next (termTokens ops ++ rest))
                      [token.LParen; token.Period; token.Slash; token.Star]).
    { apply next_termTokens; [exact Hwf | | |];
        simpl in *; intuition (try discriminate; eauto). }
    assert (Hf : (length (snd pr) < fuel)%nat) by lia.
    rewrite (bind_eq _ _ _ _ _
               (parseFactor_product fuel _ pr _ Hp1 Hpr Hnext Hf)).
    rewrite skip_skip in Hp2 |- *.
    rewrite (IH fuel _ _ rest Hp2 Hwf Hrest) by lia.
    rewrite skip_skip. cbn [length map leftFold fold_left fst snd].
    rewrite length_app. repeat f_equal; lia.
Qed.

Lemma isSum_spec (s : Sum) :
  isSum s = true ->
  isProduct (fst s) = true /\ forallb isTermPair (snd s) = true.
Proof. unfold isSum. intros H. apply andb_true_iff in H. exact H. Qed.

(** X16. On identifiers joined by [*], [/], [+] and [-], [parseTerm] builds
    the tree in which [*] and [/] bind tighter than [+] and [-] and every
    operator groups to the left: for the tokens of a sum the result is
    [sumExpr], and the cursor is after the sum. What follows the sum must not
    continue it: it is not [(], [.] or another of the four operators. *)
Theorem parseTerm_groups_left (fuel : nat) (p : Parser) (s : Sum)
    (rest : list lexer.Token) :
  isSum s = true ->
  drop (pos p) (tokens p) = sumTokens s ++ rest ->
  ~ In (next rest)
      [token.LParen; token.Period; token.Slash; token.Star;
       token.Plus; token.Minus] ->
  (length (sumTokens s) < fuel)%nat ->
  parseTerm ParseFloat knot fuel p
  = (Return (sumExpr s), set_pos p (pos p + length (sumTokens s))).
Proof.
  intros Hwf Hp Hrest Hfuel.
  apply isSum_spec in Hwf as [Hpr Hwf].
  change (sumTokens s) with (productTokens (fst s) ++ termTokens (snd s))
    in Hp, Hfuel |- *.
  rewrite <- app_assoc in Hp. rewrite length_app in Hfuel |- *.
  pose proof (productTokens_length (fst s)) as Hlen.
  pose proof (ahead_skip _ _ _ Hp) as Hp1.
  assert (Hnext : ~ In (next (termTokens (snd s) ++ rest))
                    [token.LParen; token.Period; token.Slash; token.Star]).
  { apply next_termTokens; [exact Hwf | | |];
      simpl in *; intuition (try discriminate; eauto). }
  assert (Hf : (length (snd (fst s)) < fuel)%nat) by lia.
  unfold parseTerm.
  rewrite (bind_eq _ _ _ _ _
             (parseFactor_product fuel _ (fst s) _ Hp Hpr Hnext Hf)).
  rewrite (parseTerm_loop_chain _ fuel _ _ rest Hp1 Hwf Hrest) by lia.
  rewrite skip_skip. reflexivity.
Qed.

End ChainFacts.

Section ChainWitness.

Import parser shape.

Lemma parseTerm_groups_left_witness :
  let a := operand (sample.tok token.Identifier 0 "a") in
  let b := operand (sample.tok token.Identifier 4 "b") in
  let c := operand (sample.tok token.Identifier 8 "c") in
  let d := operand (sample.tok token.Identifier 12 "d") in
  let p := sample.start (sumTokens sample.sumSample
                         ++ [sample.tok token.Semicolon 13 ";"]) in
  parseTerm sample.noFloat (parseExpression sample.noFloat 0) 8 p
  = (Return
       (ast.BinaryExpr
          (ast.BinaryExpr a token.Plus 2 (ast.BinaryExpr b token.Star 6 c))
          token.Minus 10 d),
     set_pos p 7).
Proof.
  intros a b c d p.
  refine (parseTerm_groups_left sample.noFloat
            (parseExpression sample.noFloat 0) 8 p sample.sumSample
            [sample.tok token.Semicolon 13 ";"] _ _ _ _).
  - reflexivity.
  - reflexivity.
  - vm_compute. intuition discriminate.
  - vm_compute. lia.
Defined.

End ChainWitness.

(** ** Where the parser of types can fail to terminate *)

Section WearFacts.

Import parser.

Lemma wears_ret {A : Type} (a : A) (p : Parser) (Q : A -> Parser -> Prop) :
  Q a p -> wears (ret a) p Q.
Proof. intros H. unfold wears, ret. auto. Qed.

Lemma wears_bind {A B : Type} (m : P A) (k : A -> P B) (p : Parser)
    (Q1 : A -> Parser -> Prop) (Q : B -> Parser -> Prop) :
  wears m p Q1 ->
  (forall a p1,
      tokens p1 = tokens p -> (remaining p1 <= remaining p)%nat -> Q1 a p1 ->
      wears (k a) p1 Q) ->
  wears (bind m k) p Q.
Proof.
  unfold wears, bind. intros Hm Hk.
  destruct (m p) as [[a|v|] p1]; try assumption.
  destruct Hm as (Ht & Hr & HQ1). specialize (Hk a p1 Ht Hr HQ1).
  destruct (k a p1) as [[b|v|] p2]; try assumption.
  destruct Hk as (Ht2 & Hr2 & HQ). repeat split; [congruence | lia | exact HQ].
Qed.

Lemma wears_weaken {A : Type} (m : P A) (p : Parser)
    (Q1 Q : A -> Parser -> Prop) :
  wears m p Q1 ->
  (forall a p1,
      tokens p1 = tokens p -> (remaining p1 <= remaining p)%nat -> Q1 a p1 ->
      Q a p1) ->
  wears m p Q.
Proof.
  unfold wears. intros Hm HQ.
  destruct (m p) as [[a|v|] p1]; try assumption.
  destruct Hm as (Ht & Hr & HQ1). auto.
Qed.

Lemma wears_eat (p : Parser) : wears eat p (fun _ p' => consumed p p').
Proof.
  unfold wears, eat, consumed, remaining. simpl.
  destruct (eat_from_spec (drop (pos p) (tokens p)) (pos p)) as (_ & H2 & _).
  rewrite length_drop in H2.
  repeat split; try lia.
  intros Hpos.
  destruct (drop (pos p) (tokens p)) as [|tok l] eqn:Hd.
  { apply (f_equal length) in Hd. rewrite length_drop in Hd. simpl in Hd. lia. }
  assert (Hgt : (pos p < snd (eat_from (tok :: l) (pos p)))%nat).
  { simpl. destruct (isComment tok); simpl; [|lia].
    destruct (eat_from_spec l (S (pos p))) as (_ & H & _). lia. }
  lia.
Qed.

Lemma wears_matches (types : list token.Type_) (p : Parser) :
  wears (matches types) p (fun _ p' => p' = p).
Proof. unfold wears, matches. auto. Qed.

Lemma wears_error (at_ : token.Pos) (err : GoError) (p : Parser) :
  wears (error at_ err) p (fun _ p' => remaining p' = remaining p).
Proof.
  unfold wears, error.
  destruct (last (errors p)) as [e|];
    [destruct (_ =? _); [auto|]|];
    destruct (Nat.ltb _ _); simpl; auto.
Qed.

Lemma wears_eatOnly (t : token.Type_) (msg : string) (p : Parser) :
  wears (eatOnly t msg) p (fun _ p' => consumed p p').
Proof.
  unfold eatOnly.
  eapply wears_bind; [apply wears_eat|].
  intros tok p1 Ht1 Hr1 Hc1.
  eapply wears_bind with (Q1 := fun _ p' => remaining p' = remaining p1).
  - destruct (negb _); [apply wears_error | apply wears_ret; reflexivity].
  - intros x1 p2 Ht2 Hr2 He2. apply wears_ret.
    unfold consumed in *. intros Hpos. specialize (Hc1 Hpos). lia.
Qed.

Lemma fuelled_le (fuel : nat) (p p' : Parser) :
  fuelled fuel p -> (remaining p' <= remaining p)%nat -> fuelled fuel p'.
Proof. unfold fuelled. lia. Qed.

Lemma fuelled_consumed (fuel : nat) (p p' : Parser) :
  fuelled (S fuel) p -> (remaining p' <= remaining p)%nat ->
  consumed p p' -> fuelled fuel p'.
Proof. unfold fuelled, consumed. lia. Qed.

Lemma parseTupleType_loop_wears (knot : P ast.Expression) (knotFuel : nat)
    (fuel : nat) :
  (forall q, fuelled knotFuel q -> wears knot q (fun _ q' => consumed q q')) ->
  forall fields p,
    fuelled fuel p -> fuelled knotFuel p ->
    wears (parseTupleType_loop knot fuel fields) p (fun _ _ => True).
Proof.
  intros Hknot.
  induction fuel as [|fuel IH]; intros fields p Hfuel Hk.
  - unfold wears. simpl. destruct Hfuel; [lia | assumption].
  - cbn [parseTupleType_loop].
    eapply wears_bind; [apply wears_matches|].
    intros close p0 _ _ ->.
    destruct close; [apply wears_ret; exact I|].
    eapply wears_bind; [apply Hknot; exact Hk|].
    intros typExpr p1 Ht1 Hr1 Hc1. cbv zeta.
    eapply wears_bind; [apply wears_matches|].
    intros close1 p1' _ _ ->.
    destruct close1; [apply wears_ret; exact I|].
    eapply wears_bind; [apply wears_eatOnly|].
    intros x2 p2 Ht2 Hr2 Hc2.
    apply IH.
    + eapply fuelled_le; [|exact Hr2].
      eapply fuelled_consumed; eassumption.
    + eapply fuelled_le; [|exact Hr2].
      eapply fuelled_le; eassumption.
Qed.

Lemma parseType_wears (fuel : nat) :
  forall p,
    fuelled fuel p ->
    wears (parseType fuel) p (fun _ p' => consumed p p').
Proof.
  induction fuel as [|fuel IH]; intros p Hfuel.
  - unfold wears. simpl. destruct Hfuel; [lia | assumption].
  - cbn [parseType]. unfold parseType_body.
    eapply wears_bind; [apply wears_eat|].
    intros tok p1 Ht1 Hr1 Hc1.
    assert (Hf1 : fuelled fuel p1)
      by (eapply fuelled_consumed; eassumption).
    assert (Hdone : forall (e : ast.Expression) q,
               (remaining q <= remaining p1)%nat -> consumed p q).
    { intros e q Hq. unfold consumed in *. intros Hpos.
      specialize (Hc1 Hpos). lia. }
    destruct (lexer.Type_ tok);
      try (eapply wears_bind; [apply wears_error|];
           intros x3 p2 Ht2 Hr2 He2; apply wears_ret;
           apply (Hdone ast.NilExpression); lia).
    + (* an identifier *)
      eapply wears_bind; [apply wears_matches|].
      intros isDot p1' _ _ ->.
      destruct isDot;
        [|apply wears_ret; apply (Hdone ast.NilExpression); lia].
      eapply wears_bind; [apply wears_eat|].
      intros dot p2 Ht2 Hr2 _.
      eapply wears_bind; [apply wears_eatOnly|].
      intros attr p3 Ht3 Hr3 _.
      destruct (negb _); apply wears_ret;
        apply (Hdone ast.NilExpression); lia.
    + (* a tuple type *)
      unfold parseTupleType.
      eapply wears_bind; [apply wears_eatOnly|].
      intros lbracket p2 Ht2 Hr2 _.
      eapply wears_bind.
      { apply (parseTupleType_loop_wears (parseType fuel) fuel (S fuel) IH).
        - eapply fuelled_le; [|exact Hr2].
          unfold fuelled in *. lia.
        - eapply fuelled_le; eassumption. }
      intros fields p3 Ht3 Hr3 _.
      eapply wears_bind; [apply wears_eatOnly|].
      intros rbracket p4 Ht4 Hr4 _. apply wears_ret.
      apply (Hdone ast.NilExpression). lia.
Qed.

(** X17. [parseTypeDecl] can only fail to terminate at the end of the input:
    run with more fuel than there are tokens left, it is out of fuel only
    with no token left (until then the loop of [parseTupleType] consumes a
    token at every turn). *)
Theorem parseTypeDecl_diverges_only_at_end (fuel : nat) (p : Parser) :
  (remaining p < fuel)%nat ->
  fst (parseTypeDecl fuel p) = OutOfFuel ->
  remaining (snd (parseTypeDecl fuel p)) = O.
Proof.
  intros Hfuel.
  assert (H : wears (parseTypeDecl fuel) p (fun _ _ => True)).
  { unfold parseTypeDecl.
    eapply wears_bind; [apply wears_eatOnly|].
    intros typeTok p1 Ht1 Hr1 _.
    destruct (negb _).
    { unfold wears, bind, advance, ret. simpl.
      pose proof (advance_loop_spec (T := True) declStart (remaining p1)
                    zeroToken p1) as [(Ht & _ & Hr & _) _].
      auto. }
    eapply wears_bind; [apply wears_eatOnly|].
    intros name p2 Ht2 Hr2 _.
    destruct (negb _).
    { unfold wears, bind, advance, ret. simpl.
      pose proof (advance_loop_spec (T := True) declStart (remaining p2)
                    zeroToken p2) as [(Ht & _ & Hr & _) _].
      auto. }
    eapply wears_bind.
    { apply parseType_wears. unfold fuelled. lia. }
    intros def p3 _ _ _. apply wears_ret. exact I. }
  unfold wears in H.
  destruct (parseTypeDecl fuel p) as [[d|v|] p']; simpl; try discriminate.
  intros _. exact H.
Qed.

End WearFacts.

Section WearWitness.

Import parser.

Lemma parseTypeDecl_diverges_only_at_end_witness :
  let p := mkParser (sample.openTuple Z.of_nat) sample.file O [] in
  fst (parseTypeDecl 5 p) = OutOfFuel
  /\ remaining (snd (parseTypeDecl 5 p)) = O.
Proof.
  intros p.
  assert (Hfuel : (remaining p < 5)%nat) by (vm_compute; lia).
  assert (Hout : fst (parseTypeDecl 5 p) = OutOfFuel)
    by (vm_compute; reflexivity).
  split; [exact Hout|].
  exact (parseTypeDecl_diverges_only_at_end 5 p Hfuel Hout).
Defined.

End WearWitness.

(** ** What lowers, and to what *)

Section LoweringShape.

Import compile.

Lemma compileExpr_atom (v : string) :
  compileExpr (ast.AtomLiteral 0 v) = Return (core.Atom v).
Proof. rewrite compileExpr_eq. reflexivity. Qed.

Lemma compileExprs_loop_decided (args : list ast.Expression) :
  Forall decided args ->
  forall acc,
    if forallb lowerable args
    then exists l, compileExprs_loop compileExpr acc args = Return l
    else exists x,
        compileExprs_loop compileExpr acc args = Panicked (unrecognized x).
Proof.
  induction 1 as [|e rest He _ IH]; intros acc; simpl; [eauto|].
  unfold decided in He.
  destruct (lowerable e); simpl.
  - destruct He as [c ->]. simpl. apply IH.
  - destruct He as [x ->]. simpl. eauto.
Qed.

Lemma call_decided (f : Outcome core.Expr) (b : bool)
    (args : list ast.Expression) (mk : core.Expr -> list core.Expr -> core.Expr) :
  (if b then exists c, f = Return c
   else exists x, f = Panicked (unrecognized x)) ->
  Forall decided args ->
  if b && forallb lowerable args
  then exists c,
      (Func <- f ;; Args <- compileExprs compileExpr args ;;
       Return (mk Func Args)) = Return c
  else exists x,
      (Func <- f ;; Args <- compileExprs compileExpr args ;;
       Return (mk Func Args)) = Panicked (unrecognized x).
Proof.
  intros Hf Hargs.
  pose proof (compileExprs_loop_decided args Hargs []) as Hl.
  unfold compileExprs.
  destruct b; simpl.
  - destruct Hf as [c ->]. simpl.
    destruct (forallb lowerable args).
    + destruct Hl as [l ->]. simpl. eauto.
    + destruct Hl as [x ->]. simpl. eauto.
  - destruct Hf as [x ->]. simpl. eauto.
Qed.

Lemma compileExpr_decided :
  forall e,
    decided e
    /\ match e with
       | ast.DotExpr _ t _ => decided t
       | _ => True
       end.
Proof.
  apply Expression_nested_ind;
    try (intros;
         match goal with
         | |- decided ?e /\ True =>
             split; [|exact I]; unfold decided; rewrite compileExpr_eq; simpl;
             first [solve [eauto] | exists e; reflexivity]
         end).
  - (* a call *)
    intros e args lp rp IHe IHargs.
    split; [|exact I]. unfold decided. rewrite compileExpr_eq.
    assert (Hargs : Forall decided args).
    { eapply Forall_impl; [exact IHargs|]. intros x [Hx _]. exact Hx. }
    destruct IHe as [Hc Hdot].
    cbn [lowerable compileExpr_switch]. unfold compileCallExpr.
    destruct e as [ | | | | | id | | | | | | | d t a | | ];
      unfold compileLocalCallExpr, compileDotCallExpr;
      try (apply call_decided; [exact Hc | exact Hargs]).
    + rewrite compileExpr_atom.
      apply (call_decided (Return (core.Atom (ast.Name id))) true);
        [eauto | exact Hargs].
    + destruct t;
        try (apply (call_decided _ _ args
                      (fun m => core.InterModuleCall m (core.Atom (ast.Name a))));
             [exact Hdot | exact Hargs]).
      rewrite compileExpr_atom.
      apply (call_decided (Return (core.Atom (ast.Name id))) true args
               (fun m => core.InterModuleCall m (core.Atom (ast.Name a))));
        [eauto | exact Hargs].
  - (* target.attr on its own *)
    intros d t a IHt. split; [|apply IHt].
    unfold decided. rewrite compileExpr_eq. simpl.
    exists (ast.DotExpr d t a). reflexivity.
Qed.

(** X18. [compileExpr] returns exactly on the expressions that are
    [lowerable]: the literals other than floats, identifiers, and the calls
    whose callee (of [target.attr], the target) and arguments are lowerable.
    On every other expression it panics, with [unrecognized expression type]
    and the type of a node. *)
Theorem compileExpr_returns_iff_lowerable (e : ast.Expression) :
  (lowerable e = true <-> exists c, compileExpr e = Return c)
  /\ (lowerable e = false <->
      exists x, compileExpr e = Panicked (unrecognized x)).
Proof.
  pose proof (proj1 (compileExpr_decided e)) as H. unfold decided in H.
  destruct (lowerable e).
  - destruct H as [c Hc]. split; split; eauto; try discriminate.
    intros [x Hx]. congruence.
  - destruct H as [x Hx]. split; split; eauto; try discriminate.
    intros [c Hc]. congruence.
Qed.

Lemma compileExprs_loop_acc (f : ast.Expression -> Outcome core.Expr)
    (exprs : list ast.Expression) :
  forall acc,
    compileExprs_loop f acc exprs
    = (l <- compileExprs_loop f [] exprs ;; Return (acc ++ l)).
Proof.
  induction exprs as [|e rest IH]; intros acc; simpl.
  - rewrite app_nil_r. reflexivity.
  - destruct (f e) as [c|v|]; simpl; try reflexivity.
    rewrite (IH (acc ++ [c])), (IH [c]).
    destruct (compileExprs_loop f [] rest); simpl; try reflexivity.
    rewrite <- app_assoc. reflexivity.
Qed.

Lemma compileStatements_loop_returns (stmts : list ast.Statement) :
  forall expr,
    compileStatements_loop expr stmts
    = (l <- compileExprs compileExpr (returnExprs stmts) ;;
       Return (match last l with Some c => Some c | None => expr end)).
Proof.
  unfold compileExprs.
  induction stmts as [|stmt rest IH]; intros expr; simpl; [reflexivity|].
  destruct stmt as [e|e|from to]; simpl; try apply IH.
  destruct (compileExpr e) as [c|v|]; simpl; try reflexivity.
  rewrite IH, (compileExprs_loop_acc _ _ [c]).
  destruct (compileExprs_loop compileExpr [] (returnExprs rest)) as [l|v|];
    cbn [Outcome_bind]; try reflexivity.
  f_equal. destruct l as [|c' l]; [reflexivity|].
  change ([c] ++ c' :: l) with (c :: c' :: l). rewrite last_cons_cons.
  destruct (last (c' :: l)) eqn:Hl; [reflexivity|].
  apply last_None in Hl. discriminate.
Qed.

(** X19. [CompileFunction] lowers the operands of the [return] statements of
    the body, all of them and in order, and nothing else: expression
    statements are not lowered. The function it returns has the name and the
    number of parameters of the declaration, the parameters as variables, and
    for body the lowering of the last [return] ([nil] when there is none);
    the error it returns is always [nil]. *)
Theorem CompileFunction_lowers_returns (fn : ast.FuncDecl) :
  CompileFunction fn
  = (l <- compileExprs compileExpr (returnExprs (ast.Statements fn)) ;;
     Return
       (core.mkFunc (coreName fn)
          (core.mkAnnotation
             [core.ConstTuple
                [core.ConstAtom "function";
                 core.ConstTuple
                   [core.ConstAtom (core.Name (coreName fn));
                    core.ConstInteger (core.Arity (coreName fn))]]])
          (map ast.Name (ast.Parameters fn))
          (last l),
        None)).
Proof.
  unfold CompileFunction, compileFunction, compileStatements.
  rewrite compileStatements_loop_returns.
  destruct (compileExprs compileExpr (returnExprs (ast.Statements fn)))
    as [l|v|]; simpl; try reflexivity.
  destruct (last l); reflexivity.
Qed.

Section ModuleFacts2.

Variable IsPublic : ast.FuncDecl -> bool.

Lemma compileFunction_name (fn : ast.FuncDecl) (coreFn : core.Func)
    (err : option GoError) :
  compileFunction fn = Return (coreFn, err) ->
  core.FName coreFn = coreName fn /\ err = None.
Proof.
  unfold compileFunction, compileStatements.
  destruct (compileStatements_loop None (ast.Statements fn)); simpl;
    try discriminate.
  intros [= <- <-]. auto.
Qed.

Lemma compileModule_loop_funcs (fns : list ast.FuncDecl) :
  forall coreMod coreFns,
    Forall2 (fun fn coreFn => compileFunction fn = Return (coreFn, None))
      fns coreFns ->
    compileModule_loop IsPublic coreMod (map ast.FuncDecl_ fns)
    = Return
        (core.mkModule (core.ModName coreMod)
           (core.Exports coreMod ++ map coreName (List.filter IsPublic fns))
           (core.Functions coreMod ++ coreFns),
         None).
Proof.
  induction fns as [|fn fns IH]; intros coreMod coreFns H;
    inversion H as [|? coreFn ? coreFns' Hfn Hrest]; subst; simpl.
  - rewrite !app_nil_r. destruct coreMod; reflexivity.
  - rewrite Hfn. simpl. rewrite (IH _ _ Hrest). simpl.
    destruct (compileFunction_name _ _ _ Hfn) as [Hname _].
    destruct (IsPublic fn); simpl; rewrite <- ?app_assoc; simpl;
      rewrite ?Hname; reflexivity.
Qed.

Lemma compileModule_loop_Return (decls : list ast.Decl) :
  forall coreMod r,
    compileModule_loop IsPublic coreMod decls = Return r ->
    exists fns coreFns,
      decls = map ast.FuncDecl_ fns
      /\ Forall2 (fun fn coreFn => compileFunction fn = Return (coreFn, None))
           fns coreFns.
Proof.
  induction decls as [|decl rest IH]; intros coreMod r H; simpl in H.
  - exists [], []. split; [reflexivity | constructor].
  - destruct decl as [ | | | fn | ]; try discriminate H.
    destruct (compileFunction fn) as [[coreFn err]|v|] eqn:Hfn;
      simpl in H; try discriminate H.
    destruct (compileFunction_name _ _ _ Hfn) as [_ ->]. simpl in H.
    apply IH in H. destruct H as (fns & coreFns & -> & Hall).
    exists (fn :: fns), (coreFn :: coreFns).
    split; [reflexivity | constructor; assumption].
Qed.

(** X20. [compileModule] returns exactly when the module has a name and only
    function declarations, all of which lower. It then returns no error, and
    the Core module has the name of the module, the functions in the order of
    the source, and for exports the names of the public ones in that
    order. *)
Theorem compileModule_returns_functions (mod_ : ast.Module)
    (r : core.Module * option GoError) :
  compileModule IsPublic mod_ = Return r <->
  exists id fns coreFns,
    ast.Id mod_ = Some id
    /\ ast.Decls mod_ = map ast.FuncDecl_ fns
    /\ Forall2 (fun fn coreFn => compileFunction fn = Return (coreFn, None))
         fns coreFns
    /\ r = (core.mkModule (ast.Name id)
              (map coreName (List.filter IsPublic fns)) coreFns,
            None).
Proof.
  unfold compileModule. split.
  - intros H. destruct (ast.Id mod_) as [id|]; [|discriminate].
    destruct (compileModule_loop_Return _ _ _ H) as (fns & coreFns & Hd & Hall).
    exists id, fns, coreFns. repeat split; auto.
    rewrite Hd, (compileModule_loop_funcs _ _ _ Hall) in H.
    injection H as <-. reflexivity.
  - intros (id & fns & coreFns & -> & -> & Hall & ->).
    rewrite (compileModule_loop_funcs _ _ _ Hall). reflexivity.
Qed.

End ModuleFacts2.

End LoweringShape.

(** ** Declarations that are not functions *)

Section ModuleRejects.

Import compile.

Variable IsPublic : ast.FuncDecl -> bool.







End ModuleRejects.



(** ** The tree as the lowering leaves it *)

Section InPlaceFacts.

Import compile.

Lemma compileExprs_inPlace_loop_ext
    (f g : ast.Expression -> Outcome core.Expr * ast.Expression)
    (exprs : list ast.Expression) :
  (forall x, In x exprs -> f x = g x) ->
  forall acc,
    compileExprs_inPlace_loop f acc exprs
    = compileExprs_inPlace_loop g acc exprs.
Proof.
  induction exprs as [|e rest IH]; intros Hfg acc; simpl; [reflexivity|].
  rewrite (Hfg e) by (left; reflexivity).
  destruct (fst (g e)); try reflexivity.
  rewrite IH; [reflexivity|]. intros x Hx. apply Hfg. right; exact Hx.
Qed.

Lemma height_CallExpr (c : ast.Expression) (args : list ast.Expression)
    (lp rp : token.Pos) :
  ast.height (ast.CallExpr c args lp rp)
  = S (Nat.max (ast.height c) (ast.heights args)).
Proof. reflexivity. Qed.

Lemma atomFor_height (e : ast.Expression) :
  ast.height (atomFor e) = ast.height e.
Proof. destruct e; reflexivity. Qed.

Lemma compileExpr_inPlace_switch_ext
    (f g : ast.Expression -> Outcome core.Expr * ast.Expression)
    (e : ast.Expression) :
  (forall x, (ast.height x < ast.height e)%nat -> f x = g x) ->
  compileExpr_inPlace_switch f e = compileExpr_inPlace_switch g e.
Proof.
  destruct e as [ | | | | | | | | | | | c args lp rp | | | ];
    try reflexivity.
  intros Hfg.
  change (ast.height (ast.CallExpr c args lp rp))
    with (S (Nat.max (ast.height c) (ast.heights args))) in Hfg.
  assert (Hargs : compileExprs_inPlace f args = compileExprs_inPlace g args).
  { apply compileExprs_inPlace_loop_ext. intros x Hx. apply Hfg.
    pose proof (heights_le args x Hx). lia. }
  assert (Hlocal : forall c', (ast.height c' <= ast.height c)%nat ->
             compileLocalCallExpr_inPlace f c' args
             = compileLocalCallExpr_inPlace g c' args).
  { intros c' Hc'. unfold compileLocalCallExpr_inPlace.
    rewrite (Hfg (atomFor c')), Hargs by (rewrite atomFor_height; lia).
    reflexivity. }
  unfold compileExpr_inPlace_switch, compileCallExpr_inPlace.
  destruct c as [ | | | | | id | | | | | | | d t a | | ];
    try (rewrite Hlocal by lia; reflexivity).
  unfold compileDotCallExpr_inPlace.
  rewrite (Hfg (atomFor t)), Hargs by (rewrite atomFor_height; simpl; lia).
  reflexivity.
Qed.

Lemma compileExpr_inPlace_fuel_stable (n : nat) :
  forall m e, (ast.height e < n)%nat -> (ast.height e < m)%nat ->
  compileExpr_inPlace_fuel n e = compileExpr_inPlace_fuel m e.
Proof.
  induction n as [|n IH]; intros m e Hn Hm; [lia|].
  destruct m as [|m]; [lia|]. simpl.
  apply compileExpr_inPlace_switch_ext. intros x Hx. apply IH; lia.
Qed.

(** [compileExpr_inPlace] satisfies the equation of the source function. *)
Lemma compileExpr_inPlace_eq (e : ast.Expression) :
  compileExpr_inPlace e = compileExpr_inPlace_switch compileExpr_inPlace e.
Proof.
  unfold compileExpr_inPlace at 1. simpl.
  apply compileExpr_inPlace_switch_ext. intros x Hx.
  unfold compileExpr_inPlace. apply compileExpr_inPlace_fuel_stable; lia.
Qed.

(** The node a call leaves is of the kind of the node it was given. *)
Lemma compileExpr_inPlace_kind (x : ast.Expression) :
  match x with
  | ast.CallExpr _ _ lp rp =>
      exists c' args', snd (compileExpr_inPlace x) = ast.CallExpr c' args' lp rp
  | _ => snd (compileExpr_inPlace x) = x
  end.
Proof.
  rewrite compileExpr_inPlace_eq. destruct x; try reflexivity.
  simpl. eauto.
Qed.

Lemma atomFor_left (c : ast.Expression) :
  let y := snd (compileExpr_inPlace (atomFor c)) in
  atomFor y = y
  /\ ((forall d t a, c <> ast.DotExpr d t a) ->
      forall d t a, y <> ast.DotExpr d t a).
Proof.
  pose proof (compileExpr_inPlace_kind (atomFor c)) as H.
  destruct c; simpl in *;
    try (split; [reflexivity | intros; discriminate]).
  split; [reflexivity|]. intros Hc. exact Hc.
Qed.

Lemma compileExprs_inPlace_loop_settled (args : list ast.Expression) :
  Forall settled args ->
  forall acc,
    let r := compileExprs_inPlace_loop compileExpr_inPlace acc args in
    fst r = compileExprs_loop compile.compileExpr acc args
    /\ compileExprs_inPlace_loop compileExpr_inPlace acc (snd r) = r
    /\ ast.heights (snd r) = ast.heights args.
Proof.
  induction 1 as [|e rest He _ IH]; intros acc; cbv zeta; simpl; [auto|].
  unfold settled in He. cbv zeta in He.
  destruct He as (Hfst & Hagain & Hheight).
  rewrite <- Hfst.
  destruct (compileExpr_inPlace e) as [[c|v|] e'] eqn:He; simpl in *.
  - destruct (IH (acc ++ [c])) as (IH1 & IH2 & IH3).
    rewrite Hagain. simpl. rewrite IH2, IH3, Hheight.
    repeat split; auto;
      destruct (compileExprs_inPlace_loop compileExpr_inPlace (acc ++ [c]) rest);
      reflexivity.
  - rewrite Hagain. simpl. rewrite Hheight. auto.
  - rewrite Hagain. simpl. rewrite Hheight. auto.
Qed.

Lemma compileExpr_inPlace_settled (n : nat) :
  forall e, (ast.height e < n)%nat -> settled e.
Proof.
  induction n as [|n IH]; intros e Hlt; [lia|].
  destruct e as [ | | | | | | | | | | | c args lp rp | | | ];
    try solve [unfold settled; rewrite compileExpr_inPlace_eq, compileExpr_eq;
               simpl; rewrite compileExpr_inPlace_eq; auto].
  change (ast.height (ast.CallExpr c args lp rp))
    with (S (Nat.max (ast.height c) (ast.heights args))) in Hlt.
  assert (Hargs : Forall settled args).
  { apply List.Forall_forall. intros x Hx. apply IH.
    pose proof (heights_le args x Hx). lia. }
  pose proof (compileExprs_inPlace_loop_settled args Hargs []) as Hloop.
  cbv zeta in Hloop. fold (compileExprs_inPlace compileExpr_inPlace args) in Hloop.
  fold (compileExprs compile.compileExpr args) in Hloop.
  destruct Hloop as (Ha1 & Ha2 & Ha3).
  fold (compileExprs_inPlace compileExpr_inPlace
          (snd (compileExprs_inPlace compileExpr_inPlace args))) in Ha2.
  (* the callee, or the target of the callee, with its atom in place *)
  assert (Hsub : forall x, (ast.height x <= ast.height c)%nat ->
             settled (atomFor x)).
  { intros x Hx. apply IH. rewrite atomFor_height. lia. }
  unfold settled. rewrite compileExpr_inPlace_eq, compileExpr_eq.
  cbn [compileExpr_inPlace_switch compileExpr_switch].
  unfold compileCallExpr_inPlace, compileCallExpr.
  assert (Hlocal :
    (forall d t a, c <> ast.DotExpr d t a) ->
    let r := compileLocalCallExpr_inPlace compileExpr_inPlace c args in
    fst r = compileLocalCallExpr compile.compileExpr c args
    /\ compileExpr_inPlace (ast.CallExpr (fst (snd r)) (snd (snd r)) lp rp)
       = (fst r, ast.CallExpr (fst (snd r)) (snd (snd r)) lp rp)
    /\ ast.height (ast.CallExpr (fst (snd r)) (snd (snd r)) lp rp)
       = S (Nat.max (ast.height c) (ast.heights args))).
  { intros Hnodot.
    destruct (Hsub c (Nat.le_refl _)) as (Hc1 & Hc2 & Hc3).
    destruct (atomFor_left c) as [Hatom Hkeep]. specialize (Hkeep Hnodot).
    rewrite atomFor_height in Hc3.
    unfold compileLocalCallExpr_inPlace, compileLocalCallExpr.
    change (match c with
            | ast.Ident ident => ast.AtomLiteral 0 (ast.Name ident)
            | _ => c
            end) with (atomFor c).
    rewrite <- Hc1, <- Ha1.
    set (f := compileExpr_inPlace (atomFor c)) in *.
    set (a := compileExprs_inPlace compileExpr_inPlace args) in *.
    assert (Hagain : forall args',
               compileLocalCallExpr_inPlace compileExpr_inPlace (snd f) args'
               = match fst f with
                 | Return Func =>
                     let a' := compileExprs_inPlace compileExpr_inPlace args' in
                     (Args <- fst a' ;; Return (core.Application Func Args),
                      (snd f, snd a'))
                 | Panicked v => (Panicked v, (snd f, args'))
                 | OutOfFuel => (OutOfFuel, (snd f, args'))
                 end).
    { intros args'. unfold compileLocalCallExpr_inPlace.
      rewrite Hatom, Hc2. reflexivity. }
    assert (Hcall : forall args',
               compileExpr_inPlace (ast.CallExpr (snd f) args' lp rp)
               = (let r := compileLocalCallExpr_inPlace compileExpr_inPlace
                             (snd f) args' in
                  (fst r, ast.CallExpr (fst (snd r)) (snd (snd r)) lp rp))).
    { intros args'. rewrite compileExpr_inPlace_eq.
      cbn [compileExpr_inPlace_switch]. unfold compileCallExpr_inPlace.
      destruct (snd f) eqn:Hs; try reflexivity.
      exfalso. eapply Hkeep. reflexivity. }
    destruct (fst f) as [Func|v|] eqn:Hf; cbn [fst snd].
    - split; [reflexivity|]. split.
      + rewrite Hcall, Hagain. cbv zeta. rewrite Ha2. reflexivity.
      + rewrite height_CallExpr, Hc3, Ha3. reflexivity.
    - split; [reflexivity|]. split.
      + rewrite Hcall, Hagain. reflexivity.
      + rewrite height_CallExpr, Hc3. reflexivity.
    - split; [reflexivity|]. split.
      + rewrite Hcall, Hagain. reflexivity.
      + rewrite height_CallExpr, Hc3. reflexivity. }
  destruct c as [ | | | | | id | | | | | | | d t a | | ];
    try (apply Hlocal; intros; discriminate).
  (* target.attr(args) *)
  clear Hlocal.
  assert (Ht : (ast.height t <= ast.height (ast.DotExpr d t a))%nat)
    by (simpl; lia).
  destruct (Hsub t Ht) as (Hc1 & Hc2 & Hc3).
  destruct (atomFor_left t) as [Hatom _].
  rewrite atomFor_height in Hc3.
  unfold compileDotCallExpr_inPlace, compileDotCallExpr.
  change (match t with
          | ast.Ident ident => ast.AtomLiteral 0 (ast.Name ident)
          | _ => t
          end) with (atomFor t).
  rewrite <- Hc1, <- Ha1.
  set (m := compileExpr_inPlace (atomFor t)) in *.
  set (ar := compileExprs_inPlace compileExpr_inPlace args) in *.
  assert (Hcall : forall args',
             compileExpr_inPlace
               (ast.CallExpr (ast.DotExpr d (snd m) a) args' lp rp)
             = (let r :=
                  match fst m with
                  | Return Module =>
                      let a' :=
                        compileExprs_inPlace compileExpr_inPlace args' in
                      (Args <- fst a' ;;
                       Return
                         (core.InterModuleCall Module
                            (core.Atom (ast.Name a)) Args),
                       (snd m, snd a'))
                  | Panicked v => (Panicked v, (snd m, args'))
                  | OutOfFuel => (OutOfFuel, (snd m, args'))
                  end in
                (fst r,
                 ast.CallExpr (ast.DotExpr d (fst (snd r)) a) (snd (snd r))
                   lp rp))).
  { intros args'. rewrite compileExpr_inPlace_eq.
    cbn [compileExpr_inPlace_switch]. unfold compileCallExpr_inPlace.
    unfold compileDotCallExpr_inPlace. rewrite Hatom, Hc2. reflexivity. }
  destruct (fst m) as [Module|v|] eqn:Hm; cbn [fst snd].
  - split; [reflexivity|]. split.
    + rewrite Hcall. cbv zeta. rewrite Ha2. reflexivity.
    + rewrite height_CallExpr. cbn [ast.height]. rewrite Hc3, Ha3. reflexivity.
  - split; [reflexivity|]. split.
    + rewrite Hcall. reflexivity.
    + rewrite height_CallExpr. cbn [ast.height]. rewrite Hc3. reflexivity.
  - split; [reflexivity|]. split.
    + rewrite Hcall. reflexivity.
    + rewrite height_CallExpr. cbn [ast.height]. rewrite Hc3. reflexivity.
Qed.

(** X21. The lowering rewrites the tree it is given: the callee of
    [f(args)] and the target of [m.f(args)], when identifiers, are replaced
    by atom literals of position 0. What it returns is what [compileExpr]
    returns; and lowering the tree it has left gives the same result and
    leaves the tree as it is. *)
Theorem compileExpr_rewrites_in_place (e : ast.Expression) :
  let r := compileExpr_inPlace e in
  fst r = compile.compileExpr e
  /\ compileExpr_inPlace (snd r) = r
  /\ (forall id args lp rp,
         e = ast.CallExpr (ast.Ident id) args lp rp ->
         exists args',
           snd r = ast.CallExpr (ast.AtomLiteral 0 (ast.Name id)) args' lp rp)
  /\ (forall dot id attr args lp rp,
         e = ast.CallExpr (ast.DotExpr dot (ast.Ident id) attr) args lp rp ->
         exists args',
           snd r
           = ast.CallExpr
               (ast.DotExpr dot (ast.AtomLiteral 0 (ast.Name id)) attr)
               args' lp rp).
Proof.
  intros r.
  destruct (compileExpr_inPlace_settled (S (ast.height e)) e (Nat.lt_succ_diag_r _))
    as (H1 & H2 & _).
  split; [exact H1|]. split; [exact H2|]. split.
  - intros id args lp rp ->. subst r. rewrite compileExpr_inPlace_eq.
    cbn [compileExpr_inPlace_switch]. unfold compileCallExpr_inPlace.
    unfold compileLocalCallExpr_inPlace. cbn [atomFor].
    rewrite (compileExpr_inPlace_eq (ast.AtomLiteral 0 (ast.Name id))).
    simpl. eauto.
  - intros dot id attr args lp rp ->. subst r. rewrite compileExpr_inPlace_eq.
    cbn [compileExpr_inPlace_switch]. unfold compileCallExpr_inPlace.
    unfold compileDotCallExpr_inPlace. cbn [atomFor].
    rewrite (compileExpr_inPlace_eq (ast.AtomLiteral 0 (ast.Name id))).
    simpl. eauto.
Qed.

End InPlaceFacts.

(** ** Calls, from the tokens to Core Erlang *)

Section CallFacts.

Import parser shape.

Variable ParseFloat : string -> float64 * option string.

(** The next token is none of [types]: the branch not taken. *)
Ltac no_match Hahead :=
  rewrite (bind_eq _ _ _ _ _ (matches_ahead _ _ _ Hahead));
  rewrite existsb_notin by (unfold continues in *; simpl in *; intuition eauto).

(** The loop of a level of binary operators that none of its operators
    follows returns its left operand. *)
Ltac level_done Hlower Hahead :=
  rewrite (bind_eq _ _ _ _ _ Hlower);
  match goal with
  | |- ?loop _ _ (S ?n) ?e ?p = _ =>
      cbn [parseFactor_loop parseTerm_loop parseComparison_loop
           parseEquality_loop]
  end;
  rewrite (bind_eq _ _ _ _ _ (matches_ahead _ _ _ Hahead));
  rewrite existsb_notin
    by (unfold continues in *; simpl in *; intuition eauto);
  reflexivity.

(** What [parseUnary] returns is the expression, when what follows does not
    continue it. *)
Lemma parseExpression_of_unary (n : nat) (p p1 : Parser) (e : ast.Expression)
    (l : list lexer.Token) :
  parseUnary ParseFloat (parseExpression ParseFloat n) (S n) p
  = (Return e, p1) ->
  ahead p1 l ->
  ~ In (next l) continues ->
  parseExpression ParseFloat (S n) p = (Return e, p1).
Proof.
  intros Hunary Hp1 Hl.
  set (knot := parseExpression ParseFloat n) in *.
  assert (Hfactor : parseFactor ParseFloat knot (S n) p = (Return e, p1)).
  { unfold parseFactor. level_done Hunary Hp1. }
  assert (Hterm : parseTerm ParseFloat knot (S n) p = (Return e, p1)).
  { unfold parseTerm. level_done Hfactor Hp1. }
  assert (Hcomp : parseComparison ParseFloat knot (S n) p = (Return e, p1)).
  { unfold parseComparison. level_done Hterm Hp1. }
  assert (Heq : parseEquality ParseFloat knot (S n) p = (Return e, p1)).
  { unfold parseEquality. level_done Hcomp Hp1. }
  cbn [parseExpression parseMatch]. fold knot.
  rewrite (bind_eq _ _ _ _ _ Heq).
  rewrite (bind_eq _ _ _ _ _ (matches_ahead _ _ _ Hp1)).
  rewrite existsb_notin
    by (unfold continues in *; simpl in *; intuition eauto).
  rewrite (bind_eq _ _ _ _ _ (matches_ahead _ _ _ Hp1)).
  rewrite existsb_notin
    by (unfold continues in *; simpl in *; intuition eauto).
  reflexivity.
Qed.

(** An identifier that nothing continues is an expression. *)
Lemma parseExpression_operand (n : nat) (p : Parser) (x : lexer.Token)
    (l : list lexer.Token) :
  ahead p (x :: l) ->
  lexer.Type_ x = token.Identifier ->
  ~ In (next l) continues ->
  parseExpression ParseFloat (S n) p = (Return (operand x), skip p 1).
Proof.
  intros Hp Hx Hl.
  apply (parseExpression_of_unary n p (skip p 1) (operand x) l).
  - apply (parseUnary_operand ParseFloat _ n p x l Hp Hx).
    unfold continues in Hl. simpl in *. intuition eauto.
  - exact (ahead_skip1 _ _ _ Hp).
  - exact Hl.
Qed.

Lemma isArgPair_spec (cx : lexer.Token * lexer.Token) :
  isArgPair cx = true ->
  lexer.Type_ (fst cx) = token.Comma
  /\ lexer.Type_ (snd cx) = token.Identifier.
Proof.
  unfold isArgPair. intros H. apply andb_true_iff in H as [Hc Hx].
  apply bool_decide_eq_true in Hc. apply bool_decide_eq_true in Hx. auto.
Qed.

(** What follows an argument: the next comma, or what follows the
    arguments. *)
Lemma next_argTokens (more : list (lexer.Token * lexer.Token))
    (rest : list lexer.Token) :
  forallb isArgPair more = true ->
  ~ In (next rest) continues ->
  ~ In (next (pairTokens more ++ rest)) continues.
Proof.
  destruct more as [|cx more]; simpl; intros Hwf Hrest; [exact Hrest|].
  apply andb_true_iff in Hwf as [Hcx _].
  apply isArgPair_spec in Hcx as [Hc _].
  rewrite next_cons by (rewrite Hc; discriminate).
  rewrite Hc. unfold continues. simpl. intuition discriminate.
Qed.

Lemma parseArguments_loop_idents (n : nat)
    (more : list (lexer.Token * lexer.Token)) :
  forall fuel args0 p rest,
    ahead p (pairTokens more ++ rest) ->
    forallb isArgPair more = true ->
    next rest <> token.Comma ->
    ~ In (next rest) continues ->
    (length args0 + length more <= 255)%nat ->
    (length more < fuel)%nat ->
    parseArguments_loop (parseExpression ParseFloat (S n)) fuel args0 p
    = (Return (args0 ++ map (fun cx => operand (snd cx)) more),
       skip p (2 * length more)).
Proof.
  induction more as [|[comma x] more IH];
    intros fuel args0 p rest Hp Hwf Hcomma Hrest Hlen Hfuel;
    (destruct fuel as [|fuel]; [simpl in Hfuel; lia|]);
    cbn [parseArguments_loop].
  - simpl in Hp.
    rewrite (bind_eq _ _ _ _ _ (matches_ahead _ _ _ Hp)).
    rewrite existsb_notin by (simpl; intuition eauto).
    simpl. rewrite skip_0, app_nil_r. reflexivity.
  - simpl in Hwf. apply andb_true_iff in Hwf as [Hcx Hwf].
    apply isArgPair_spec in Hcx as [Hc Hx]. simpl in Hc, Hx.
    assert (Hnc : lexer.Type_ comma <> token.Comment)
      by (rewrite Hc; discriminate).
    change (pairTokens ((comma, x) :: more) ++ rest)
      with (comma :: x :: (pairTokens more ++ rest)) in Hp.
    pose proof (ahead_skip1 _ _ _ Hp) as Hp1.
    pose proof (ahead_skip1 _ _ _ Hp1) as Hp2.
    rewrite (bind_eq _ _ _ _ _ (matches_ahead _ _ _ Hp)).
    rewrite (next_cons _ _ Hnc), Hc.
    change (existsb (token.Type_eqb token.Comma) [token.Comma]) with true.
    cbv beta iota.
    rewrite (bind_eq _ _ _ _ _ (eat_ahead _ _ _ Hp Hnc)).
    simpl in Hlen, Hfuel.
    destruct (Nat.leb_spec 255 (length args0)); [lia|].
    rewrite (bind_eq _ _ _ _ _
               (parseExpression_operand n _ x _ Hp1 Hx
                  (next_argTokens more rest Hwf Hrest))).
    rewrite skip_skip in Hp2 |- *.
    rewrite (IH fuel _ _ rest Hp2 Hwf Hcomma Hrest)
      by (rewrite ?length_app; simpl; lia).
    rewrite skip_skip, <- app_assoc. simpl. repeat f_equal; lia.
Qed.

Lemma argTokens_length (args : Args) :
  length (argTokens args)
  = match args with
    | None => O
    | Some (_, more) => S (2 * length more)
    end.
Proof.
  destruct args as [[x more]|]; [|reflexivity]. simpl. f_equal.
  unfold pairTokens.
  induction more as [|cx l IH]; simpl; [reflexivity|]. rewrite IH. lia.
Qed.

(** Identifiers between parentheses are the arguments, each its node. *)
Lemma parseArguments_idents (n fuel : nat) (p : Parser) (args : Args)
    (rparen : lexer.Token) (rest : list lexer.Token) :
  ahead p (argTokens args ++ rparen :: rest) ->
  isArgs args = true ->
  lexer.Type_ rparen = token.RParen ->
  (length (argNames args) <= 255)%nat ->
  (length (argTokens args) < fuel)%nat ->
  parseArguments (parseExpression ParseFloat (S n)) fuel p
  = (Return (map operand (argNames args)), skip p (length (argTokens args))).
Proof.
  intros Hp Hwf Hr Hlen Hfuel.
  assert (Hnr : lexer.Type_ rparen <> token.Comment)
    by (rewrite Hr; discriminate).
  assert (Hnext : next (rparen :: rest) = token.RParen)
    by (rewrite next_cons by exact Hnr; exact Hr).
  unfold parseArguments.
  rewrite (bind_eq _ _ _ _ _ (matches_ahead _ _ _ Hp)).
  destruct args as [[x more]|].
  - simpl in Hwf. apply andb_true_iff in Hwf as [Hx Hwf].
    apply bool_decide_eq_true in Hx.
    change (argTokens (Some (x, more)) ++ rparen :: rest)
      with (x :: (pairTokens more ++ rparen :: rest)) in Hp |- *.
    rewrite next_cons by (rewrite Hx; discriminate). rewrite Hx.
    change (existsb (token.Type_eqb token.Identifier) [token.RParen])
      with false.
    cbv beta iota.
    pose proof (ahead_skip1 _ _ _ Hp) as Hp1.
    assert (Hcont : ~ In (next (rparen :: rest)) continues)
      by (rewrite Hnext; unfold continues; simpl; intuition discriminate).
    rewrite (bind_eq _ _ _ _ _
               (parseExpression_operand n _ x _ Hp Hx
                  (next_argTokens more _ Hwf Hcont))).
    rewrite argTokens_length in Hfuel |- *. simpl in Hlen.
    rewrite length_map in Hlen.
    rewrite (parseArguments_loop_idents n more fuel [operand x] _
               (rparen :: rest) Hp1 Hwf)
      by (try (rewrite Hnext; discriminate); try exact Hcont; simpl; lia).
    rewrite skip_skip. simpl. rewrite map_map. reflexivity.
  - change (argTokens None ++ rparen :: rest) with (rparen :: rest) in *.
    rewrite Hnext.
    change (existsb (token.Type_eqb token.RParen) [token.RParen]) with true.
    simpl. rewrite skip_0. reflexivity.
Qed.

(** The call of a callee on identifiers between parentheses. *)
Lemma parseCall_loop_call (n fuel : nat) (callee : ast.Expression)
    (p : Parser) (lparen rparen : lexer.Token) (args : Args)
    (rest : list lexer.Token) :
  ahead p (lparen :: argTokens args ++ rparen :: rest) ->
  lexer.Type_ lparen = token.LParen ->
  lexer.Type_ rparen = token.RParen ->
  isArgs args = true ->
  (length (argNames args) <= 255)%nat ->
  ~ In (next rest) continues ->
  (length (argTokens args) < fuel)%nat ->
  parseCall_loop (parseExpression ParseFloat (S n)) (S (S fuel)) callee p
  = (Return
       (ast.CallExpr callee (map operand (argNames args)) (lexer.Pos lparen)
          (lexer.Pos rparen)),
     skip p (length (argTokens args) + 2)).
Proof.
  intros Hp Hl Hr Hwf Hlen Hrest Hfuel.
  assert (Hnl : lexer.Type_ lparen <> token.Comment)
    by (rewrite Hl; discriminate).
  assert (Hnr : lexer.Type_ rparen <> token.Comment)
    by (rewrite Hr; discriminate).
  pose proof (ahead_skip1 _ _ _ Hp) as Hp1.
  pose proof (ahead_skip _ _ _ Hp1) as Hp2.
  pose proof (ahead_skip1 _ _ _ Hp2) as Hp3.
  cbn [parseCall_loop].
  rewrite (bind_eq _ _ _ _ _ (matches_ahead _ _ _ Hp)).
  rewrite (next_cons _ _ Hnl), Hl.
  change (existsb (token.Type_eqb token.LParen) [token.LParen]) with true.
  cbv beta iota.
  rewrite (bind_eq _ _ _ _ _ (eat_ahead _ _ _ Hp Hnl)).
  assert (Hfuel' : (length (argTokens args) < S fuel)%nat) by lia.
  rewrite (bind_eq _ _ _ _ _
             (parseArguments_idents n (S fuel) _ args rparen rest Hp1 Hwf Hr
                Hlen Hfuel')).
  rewrite (bind_eq _ _ _ _ _ (eat_ahead _ _ _ Hp2 Hnr)).
  rewrite (bind_eq _ _ _ _ _ (matches_ahead _ _ _ Hp3)).
  rewrite existsb_notin
    by (unfold continues in *; simpl in *; intuition eauto).
  rewrite (bind_eq _ _ _ _ _ (matches_ahead _ _ _ Hp3)).
  rewrite existsb_notin
    by (unfold continues in *; simpl in *; intuition eauto).
  unfold parser.ret. rewrite !skip_skip. do 2 f_equal. lia.
Qed.

Lemma eatOnly_ahead (t : token.Type_) (msg : string) (p : Parser)
    (tok : lexer.Token) (l : list lexer.Token) :
  ahead p (tok :: l) -> lexer.Type_ tok = t -> t <> token.Comment ->
  eatOnly t msg p = (Return tok, skip p 1).
Proof.
  intros Hp Ht Hc. unfold eatOnly.
  rewrite (bind_eq _ _ _ _ _ (eat_ahead _ _ _ Hp ltac:(rewrite Ht; exact Hc))).
  replace (token.Type_eqb (lexer.Type_ tok) t) with true
    by (symmetry; apply bool_decide_eq_true; exact Ht).
  reflexivity.
Qed.

(** An identifier is a primary expression. *)
Lemma parsePrimary_operand (knot : P ast.Expression) (p : Parser)
    (x : lexer.Token) (l : list lexer.Token) :
  ahead p (x :: l) ->
  lexer.Type_ x = token.Identifier ->
  parsePrimary ParseFloat knot p = (Return (operand x), skip p 1).
Proof.
  intros Hp Hx.
  assert (Hc : lexer.Type_ x <> token.Comment) by (rewrite Hx; discriminate).
  unfold parsePrimary.
  rewrite (bind_eq _ _ _ _ _ (eat_ahead _ _ _ Hp Hc)), Hx. reflexivity.
Qed.

(** The call of a local function on identifiers, as an expression. *)
Lemma parseExpression_local_call (fuel : nat) (p : Parser)
    (fn lparen rparen : lexer.Token) (args : Args)
    (rest : list lexer.Token) :
  ahead p (fn :: lparen :: argTokens args ++ rparen :: rest) ->
  lexer.Type_ fn = token.Identifier ->
  lexer.Type_ lparen = token.LParen ->
  lexer.Type_ rparen = token.RParen ->
  isArgs args = true ->
  (length (argNames args) <= 255)%nat ->
  ~ In (next rest) continues ->
  (length (argTokens args) + 3 < fuel)%nat ->
  parseExpression ParseFloat fuel p
  = (Return
       (ast.CallExpr (operand fn) (map operand (argNames args))
          (lexer.Pos lparen) (lexer.Pos rparen)),
     skip p (length (argTokens args) + 3)).
Proof.
  intros Hp Hfn Hl Hr Hwf Hlen Hrest Hfuel.
  destruct fuel as [|[|n]]; [lia|lia|].
  assert (Hc : lexer.Type_ fn <> token.Comment)
    by (rewrite Hfn; discriminate).
  pose proof (ahead_skip1 _ _ _ Hp) as Hp1.
  pose proof (ahead_skip1 _ _ _ Hp1) as Hp2.
  pose proof (ahead_skip _ _ _ Hp2) as Hp3.
  pose proof (ahead_skip1 _ _ _ Hp3) as Hp4.
  rewrite !skip_skip in Hp4.
  match type of Hp4 with
  | ahead (skip p ?k) _ =>
      replace k with (length (argTokens args) + 3)%nat in Hp4 by lia
  end.
  apply (parseExpression_of_unary (S n) p _ _ rest); [|exact Hp4|exact Hrest].
  cbn [parseUnary].
  rewrite (bind_eq _ _ _ _ _ (matches_ahead _ _ _ Hp)).
  rewrite (next_cons _ _ Hc), Hfn.
  rewrite existsb_notin by (simpl; intuition discriminate).
  unfold parseCall.
  rewrite (bind_eq _ _ _ _ _ (parsePrimary_operand _ p fn _ Hp Hfn)).
  rewrite (parseCall_loop_call n n (operand fn) (skip p 1) lparen rparen args
             rest Hp1 Hl Hr Hwf Hlen Hrest) by lia.
  rewrite skip_skip. do 2 f_equal. lia.
Qed.

(** The call of a function of another module on identifiers, as an
    expression. *)
Lemma parseExpression_qualified_call (fuel : nat) (p : Parser)
    (m dot fn lparen rparen : lexer.Token) (args : Args)
    (rest : list lexer.Token) :
  ahead p (m :: dot :: fn :: lparen :: argTokens args ++ rparen :: rest) ->
  lexer.Type_ m = token.Identifier ->
  lexer.Type_ dot = token.Period ->
  lexer.Type_ fn = token.Identifier ->
  lexer.Type_ lparen = token.LParen ->
  lexer.Type_ rparen = token.RParen ->
  isArgs args = true ->
  (length (argNames args) <= 255)%nat ->
  ~ In (next rest) continues ->
  (length (argTokens args) + 5 < fuel)%nat ->
  parseExpression ParseFloat fuel p
  = (Return
       (ast.CallExpr
          (ast.DotExpr (lexer.Pos dot) (operand m) (ast.NewIdent fn))
          (map operand (argNames args)) (lexer.Pos lparen)
          (lexer.Pos rparen)),
     skip p (length (argTokens args) + 5)).
Proof.
  intros Hp Hm Hd Hfn Hl Hr Hwf Hlen Hrest Hfuel.
  destruct fuel as [|[|[|n]]]; [lia|lia|lia|].
  assert (Hcm : lexer.Type_ m <> token.Comment)
    by (rewrite Hm; discriminate).
  assert (Hcd : lexer.Type_ dot <> token.Comment)
    by (rewrite Hd; discriminate).
  pose proof (ahead_skip1 _ _ _ Hp) as Hp1.
  pose proof (ahead_skip1 _ _ _ Hp1) as Hp2.
  pose proof (ahead_skip1 _ _ _ Hp2) as Hp3.
  pose proof (ahead_skip1 _ _ _ Hp3) as Hp4.
  pose proof (ahead_skip _ _ _ Hp4) as Hp5.
  pose proof (ahead_skip1 _ _ _ Hp5) as Hp6.
  rewrite !skip_skip in Hp6.
  match type of Hp6 with
  | ahead (skip p ?k) _ =>
      replace k with (length (argTokens args) + 5)%nat in Hp6 by lia
  end.
  apply (parseExpression_of_unary (S (S n)) p _ _ rest);
    [|exact Hp6|exact Hrest].
  cbn [parseUnary].
  rewrite (bind_eq _ _ _ _ _ (matches_ahead _ _ _ Hp)).
  rewrite (next_cons _ _ Hcm), Hm.
  rewrite existsb_notin by (simpl; intuition discriminate).
  unfold parseCall.
  rewrite (bind_eq _ _ _ _ _ (parsePrimary_operand _ p m _ Hp Hm)).
  change (parseCall_loop (parseExpression ParseFloat (S (S n)))
            (S (S (S n))) (operand m) (skip p 1))
    with ((isCall <- matches [token.LParen] ;;
           if isCall : bool then
             lparen <- eat ;;
             args <- parseArguments (parseExpression ParseFloat (S (S n)))
                       (S (S n)) ;;
             rparen <- eat ;;
             parseCall_loop (parseExpression ParseFloat (S (S n))) (S (S n))
               (ast.CallExpr (operand m) args (lexer.Pos lparen)
                  (lexer.Pos rparen))
           else
             isDot <- matches [token.Period] ;;
             if isDot : bool then
               dot <- eat ;;
               name <- eatOnly token.Identifier
                         "expected identifier after '.'" ;;
               if negb (token.Type_eqb (lexer.Type_ name) token.Identifier)
               then
                 advance exprEnd ;;;
                 ret (ast.BadExpr (lexer.Pos name) (lexer.Pos name))
               else
                 parseCall_loop (parseExpression ParseFloat (S (S n)))
                   (S (S n))
                   (ast.DotExpr (lexer.Pos dot) (operand m)
                      (ast.NewIdent name))
             else ret (operand m)) (skip p 1)).
  rewrite (bind_eq _ _ _ _ _ (matches_ahead _ _ _ Hp1)).
  rewrite (next_cons _ _ Hcd), Hd.
  rewrite existsb_notin by (simpl; intuition discriminate).
  rewrite (bind_eq _ _ _ _ _ (matches_ahead _ _ _ Hp1)).
  rewrite (next_cons _ _ Hcd), Hd.
  change (existsb (token.Type_eqb token.Period) [token.Period]) with true.
  cbv beta iota.
  rewrite (bind_eq _ _ _ _ _ (eat_ahead _ _ _ Hp1 Hcd)).
  rewrite (bind_eq _ _ _ _ _
             (eatOnly_ahead token.Identifier _ _ fn _ Hp2 Hfn
                ltac:(discriminate))).
  rewrite Hfn.
  change (negb (token.Type_eqb token.Identifier token.Identifier))
    with false.
  cbv beta iota.
  rewrite (parseCall_loop_call (S n) n _ _ lparen rparen args rest Hp3 Hl Hr
             Hwf Hlen Hrest) by lia.
  rewrite !skip_skip. do 2 f_equal. lia.
Qed.

End CallFacts.

Section CallLowering.

Import parser shape compile.

Variable ParseFloat : string -> float64 * option string.

(** Identifiers lower to variables of their names. *)
Lemma compileExprs_loop_operands (xs : list lexer.Token) :
  forall acc,
    compileExprs_loop compileExpr acc (map operand xs)
    = Return (acc ++ map (fun x => core.Var (lexer.Lit x)) xs).
Proof.
  induction xs as [|x xs IH]; intros acc; cbn [map compileExprs_loop].
  - rewrite app_nil_r. reflexivity.
  - rewrite compileExpr_eq.
    cbn [operand compileExpr_switch Outcome_bind ast.Name].
    rewrite IH, <- app_assoc. reflexivity.
Qed.

(** X22. The tokens of a call [f(a1, ..., an)] of at most 255 identifiers,
    followed by nothing that continues an expression, parse, with enough
    fuel, to one call node on which the cursor has moved past the closing
    parenthesis and no error is recorded; lowering that node returns the
    application of the atom [f] to the variables [a1], ..., [an]. *)
Theorem local_call_parses_and_lowers (fuel : nat) (p : Parser)
    (fn lparen rparen : lexer.Token) (args : Args)
    (rest : list lexer.Token) :
  ahead p (fn :: lparen :: argTokens args ++ rparen :: rest) ->
  lexer.Type_ fn = token.Identifier ->
  lexer.Type_ lparen = token.LParen ->
  lexer.Type_ rparen = token.RParen ->
  isArgs args = true ->
  (length (argNames args) <= 255)%nat ->
  ~ In (next rest) continues ->
  (length (argTokens args) + 3 < fuel)%nat ->
  exists call,
    parseExpression ParseFloat fuel p
    = (Return call, skip p (length (argTokens args) + 3))
    /\ compileExpr call
       = Return
           (core.Application (core.Atom (lexer.Lit fn))
              (map (fun x => core.Var (lexer.Lit x)) (argNames args))).
Proof.
  intros Hp Hfn Hl Hr Hwf Hlen Hrest Hfuel.
  eexists. split.
  - exact (parseExpression_local_call ParseFloat fuel p fn lparen rparen args
             rest Hp Hfn Hl Hr Hwf Hlen Hrest Hfuel).
  - rewrite compileExpr_eq.
    unfold compileExpr_switch, compileCallExpr, compileLocalCallExpr, operand.
    cbv beta iota zeta. rewrite compileExpr_atom.
    fold operand. unfold compileExprs.
    rewrite compileExprs_loop_operands. reflexivity.
Qed.

(** X23. The tokens of a call [m.f(a1, ..., an)] of at most 255
    identifiers, followed by nothing that continues an expression, parse,
    with enough fuel, to one call node whose callee is the selection of [f]
    in [m]; lowering that node returns the call of the atom [f] in the module
    of the atom [m] on the variables [a1], ..., [an]. *)
Theorem qualified_call_parses_and_lowers (fuel : nat) (p : Parser)
    (m dot fn lparen rparen : lexer.Token) (args : Args)
    (rest : list lexer.Token) :
  ahead p (m :: dot :: fn :: lparen :: argTokens args ++ rparen :: rest) ->
  lexer.Type_ m = token.Identifier ->
  lexer.Type_ dot = token.Period ->
  lexer.Type_ fn = token.Identifier ->
  lexer.Type_ lparen = token.LParen ->
  lexer.Type_ rparen = token.RParen ->
  isArgs args = true ->
  (length (argNames args) <= 255)%nat ->
  ~ In (next rest) continues ->
  (length (argTokens args) + 5 < fuel)%nat ->
  exists call,
    parseExpression ParseFloat fuel p
    = (Return call, skip p (length (argTokens args) + 5))
    /\ compileExpr call
       = Return
           (core.InterModuleCall (core.Atom (lexer.Lit m))
              (core.Atom (lexer.Lit fn))
              (map (fun x => core.Var (lexer.Lit x)) (argNames args))).
Proof.
  intros Hp Hm Hd Hfn Hl Hr Hwf Hlen Hrest Hfuel.
  eexists. split.
  - exact (parseExpression_qualified_call ParseFloat fuel p m dot fn lparen
             rparen args rest Hp Hm Hd Hfn Hl Hr Hwf Hlen Hrest Hfuel).
  - rewrite compileExpr_eq.
    unfold compileExpr_switch, compileCallExpr, compileDotCallExpr, operand.
    cbv beta iota zeta. rewrite compileExpr_atom.
    fold operand. unfold compileExprs.
    rewrite compileExprs_loop_operands. reflexivity.
Qed.

End CallLowering.

Section CallWitnesses.

Import parser shape compile.

Lemma local_call_parses_and_lowers_witness :
  let a := sample.tok token.Identifier 2 "a" in
  let b := sample.tok token.Identifier 5 "b" in
  let p := sample.start sample.localCall in
  exists call,
    parseExpression sample.noFloat 10 p = (Return call, skip p 6)
    /\ compileExpr call
       = Return
           (core.Application (core.Atom "f") [core.Var "a"; core.Var "b"]).
Proof.
  intros a b p.
  refine (local_call_parses_and_lowers sample.noFloat 10 p
            (sample.tok token.Identifier 0 "f")
            (sample.tok token.LParen 1 "(")
            (sample.tok token.RParen 6 ")")
            (Some (a, [(sample.tok token.Comma 3 ",", b)]))
            [sample.tok token.Semicolon 7 ";"] _ _ _ _ _ _ _ _).
  - reflexivity.
  - reflexivity.
  - reflexivity.
  - reflexivity.
  - reflexivity.
  - vm_compute. lia.
  - vm_compute. intuition discriminate.
  - vm_compute. lia.
Defined.

Lemma qualified_call_parses_and_lowers_witness :
  let p := sample.start sample.qualifiedCall in
  exists call,
    parseExpression sample.noFloat 10 p = (Return call, skip p 6)
    /\ compileExpr call
       = Return
           (core.InterModuleCall (core.Atom "erlang")
              (core.Atom "module_info") [core.Var "Value"]).
Proof.
  intros p.
  refine (qualified_call_parses_and_lowers sample.noFloat 10 p
            (sample.tok token.Identifier 0 "erlang")
            (sample.tok token.Period 6 ".")
            (sample.tok token.Identifier 7 "module_info")
            (sample.tok token.LParen 18 "(")
            (sample.tok token.RParen 24 ")")
            (Some (sample.tok token.Identifier 19 "Value", []))
            [sample.tok token.RCurlyBracket 26 "}"] _ _ _ _ _ _ _ _ _ _).
  - reflexivity.
  - reflexivity.
  - reflexivity.
  - reflexivity.
  - reflexivity.
  - reflexivity.
  - reflexivity.
  - vm_compute. lia.
  - vm_compute. intuition discriminate.
  - vm_compute. lia.
Defined.

End CallWitnesses.
